(** * Red-black tree of [red_black_tree.py]

    A shallow embedding of the classes [Node] and [Tree] of
    [red_black_tree.py] and the properties of its operations.

    The Python program keeps a graph of [Node] objects linked through
    [child] slots and [parent] back-references.  Here a node together with
    everything beneath it is a value of type [node], and a node together with
    its chain of [parent] references is a location: the node and the list of
    its ancestors (a [path]), nearest first.  Following [n.parent] is taking
    the head of the path, [n.parent.child.index(n)] is the direction
    recorded in that head, and a write into a node is a change of the
    corresponding [node] or [frame]. *)

From Stdlib Require Import String.
From Stdlib Require Import ZArith List Lia Bool Sorted Arith Permutation.
From Equations Require Import Equations.
Import ListNotations.
Local Open Scope Z_scope.

(** ** Constants of the module *)

(** [(RED, BLACK) = range(2)], [(LEFT, RIGHT) = range(2)]. *)
Inductive color := RED | BLACK.
Inductive direction := LEFT | RIGHT.

(** [(TREE_INSERT, TREE_DELETE, TREE_UPDATE) = range(3)]. *)
Inductive action := TREE_INSERT | TREE_DELETE | TREE_UPDATE.

(** [(PRE_ORDER, IN_ORDER, POST_ORDER) = range(3)]. *)
Inductive order := PRE_ORDER | IN_ORDER | POST_ORDER.

(** The exceptions the module raises, and [AttributeError], which Python
    raises when an attribute of [None] is read.  (In Python [KeyError] is a
    subclass of [LookupError]; the constructors are the classes named at the
    [raise].) *)
Inductive exn :=
| TypeError | KeyError | LookupError | AttributeError
| ValueError | ReferenceError | ArithmeticError.

Inductive result (A : Type) :=
| Ok (a : A)
| Raise (e : exn).
Arguments Ok {A} a.
Arguments Raise {A} e.

Definition bind {A B} (r : result A) (k : A -> result B) : result B :=
  match r with
  | Ok a => k a
  | Raise e => Raise e
  end.

Notation "x <- r ;; k" := (bind r (fun x => k))
  (at level 61, r at next level, right associativity).
Notation "' p <- r ;; k" := (bind r (fun p => k))
  (at level 61, p pattern, r at next level, right associativity).

(** Python values that reach the tree as keys, payloads and selectors. *)
Inductive pyval :=
| PyNone
| PyBool (b : bool)
| PyInt (z : Z)
| PyStr (s : string).

(** Truth value of a Python object, as tested by [if value:]. *)
Definition truthy (v : pyval) : bool :=
  match v with
  | PyNone => false
  | PyBool b => b
  | PyInt z => negb (z =? 0)
  | PyStr s => match s with EmptyString => false | _ => true end
  end.

(** [isinstance(key, int)], with the integer the key compares as
    ([bool] is a subclass of [int]). *)
Definition isinstance_int (v : pyval) : option Z :=
  match v with
  | PyInt z => Some z
  | PyBool b => Some (if b then 1 else 0)
  | _ => None
  end.

(** [(LOWEST_KEY, HIGHEST_KEY) = range(2)]. *)
Definition LOWEST_KEY : pyval := PyInt 0.
Definition HIGHEST_KEY : pyval := PyInt 1.

Definition color_eqb (a b : color) : bool :=
  match a, b with
  | RED, RED | BLACK, BLACK => true
  | _, _ => false
  end.

Definition direction_eqb (a b : direction) : bool :=
  match a, b with
  | LEFT, LEFT | RIGHT, RIGHT => true
  | _, _ => false
  end.

(** [1 - direction]. *)
Definition opp (d : direction) : direction :=
  match d with LEFT => RIGHT | RIGHT => LEFT end.

(** ** class Node *)

(** A [Node] object with the objects reachable through its [child] slots.
    [Nil] is a node built with [nil = True]: its key is [None], its [child]
    list is [[None, None]], and it has a [color] attribute of its own.
    [value] is [None] when the object has no [value] attribute. *)
Inductive node :=
| Nil (c : color)
| Node (c : color) (l : node) (key : Z) (value : option pyval) (r : node).

(** [Node(None, None, True)]. *)
Definition Node_nil : node := Nil BLACK.

(** [Node(key, value)]: a RED node with two fresh nil children; the [value]
    attribute is set only under [if value:]. *)
Definition Node_init (key : Z) (value : pyval) : node :=
  Node RED Node_nil key (if truthy value then Some value else None) Node_nil.

(** [self.child == [None, None]]. *)
Definition is_nil (n : node) : bool :=
  match n with
  | Nil _ => true
  | Node _ _ _ _ _ => false
  end.

Definition key_of (n : node) : option Z :=
  match n with
  | Nil _ => None
  | Node _ _ k _ _ => Some k
  end.

Definition value_of (n : node) : option pyval :=
  match n with
  | Nil _ => None
  | Node _ _ _ v _ => v
  end.

Definition color_of (n : node) : color :=
  match n with
  | Nil c => c
  | Node c _ _ _ _ => c
  end.

(** [Node.compare(n1, n2)]; both arguments are [Node] objects here, so the
    [TypeError] branch is not reachable. *)
Definition compare (n1 n2 : node) : result (option direction) :=
  match key_of n1, key_of n2 with
  | Some k1, Some k2 =>
      if k1 <? k2 then Ok (Some LEFT)
      else if k1 >? k2 then Ok (Some RIGHT)
      else Ok None
  | _, _ => Raise KeyError
  end.

(** [n.child[d]] read as a node: the slot of a nil terminator holds [None],
    and reading an attribute of it raises [AttributeError]. *)
Definition child (d : direction) (n : node) : result node :=
  match n with
  | Nil _ => Raise AttributeError
  | Node _ l _ _ r => Ok (match d with LEFT => l | RIGHT => r end)
  end.

(** [n.color = c]. *)
Definition paint (c : color) (n : node) : node :=
  match n with
  | Nil _ => Nil c
  | Node _ l k v r => Node c l k v r
  end.

(** [n.child[d] = x], for a real node [n]. *)
Definition set_child (d : direction) (x : node) (n : node) : node :=
  match n with
  | Nil c => Nil c
  | Node c l k v r =>
      match d with
      | LEFT => Node c x k v r
      | RIGHT => Node c l k v x
      end
  end.

(** [n.child[d].color = c]. *)
Definition paint_child (d : direction) (c : color) (n : node) : result node :=
  x <- child d n ;; Ok (set_child d (paint c x) n).

(** ** Locations: a node and its ancestors *)

(** One ancestor, seen from the child the walk came through: the slot [dir]
    in which that child sits, the ancestor's own color, key and value, and
    its other child. *)
Record frame := Frame {
  f_dir : direction;
  f_color : color;
  f_key : Z;
  f_value : option pyval;
  f_other : node
}.

Abbreviation path := (list frame).

(** The ancestor described by a frame, with [n] back in its slot. *)
Definition fill (f : frame) (n : node) : node :=
  match f_dir f with
  | LEFT => Node (f_color f) n (f_key f) (f_value f) (f_other f)
  | RIGHT => Node (f_color f) (f_other f) (f_key f) (f_value f) n
  end.

(** The root of the tree that holds [n] under the ancestors [p]. *)
Fixpoint zip (n : node) (p : path) : node :=
  match p with
  | [] => n
  | f :: p' => zip (fill f n) p'
  end.

(** From a location to the one of its child in slot [d]. *)
Definition down (d : direction) (l : node * path) : result (node * path) :=
  match fst l with
  | Nil _ => Raise AttributeError
  | Node c a k v b =>
      match d with
      | LEFT => Ok (a, Frame LEFT c k v b :: snd l)
      | RIGHT => Ok (b, Frame RIGHT c k v a :: snd l)
      end
  end.

(** From a location to the one of [n.parent]; [None] for the root. *)
Definition up (l : node * path) : option (node * path) :=
  match snd l with
  | [] => None
  | f :: p' => Some (fill f (fst l), p')
  end.

(** ** class Tree *)

(** The attributes [__root], [__debug], [__vals] (its keys) and
    [__max_nodes] ([_REPORTED], [_ACTUAL]).  The last two exist only on a
    debug tree and are read only by [validate]. *)
Record Tree := mkTree {
  root : option node;
  debug : bool;
  vals : list Z;
  max_nodes : Z * Z
}.

(** [Tree(debug)]. *)
Definition Tree_init (dbg : bool) : Tree := mkTree None dbg [] (0, 0).

Definition set_root (T : Tree) (r : option node) : Tree :=
  mkTree r (debug T) (vals T) (max_nodes T).

(** [__rotate(nFocus, _OBVERSE_DIRECTION)] on the subtree of [nFocus]: the
    result is the promoted [nChild], which the source links in place of
    [nFocus] (under [nFocus.parent], or as [__root]).  When [nChild] is a nil
    terminator the source copies [None] into a child slot of [nFocus] and
    makes the terminator its parent; the object graph is then no longer a
    tree of nodes over terminators, and the callers' next read through that
    slot raises [AttributeError].  The model raises at the rotation. *)
Definition rotate (nFocus : node) (OBVERSE : direction) : result node :=
  let REVERSE := opp OBVERSE in
  nChild <- child REVERSE nFocus ;;
  inner <- child OBVERSE nChild ;;
  Ok (set_child OBVERSE (set_child REVERSE inner nFocus) nChild).

(** The loop of [find]: walk down from [nFocus] until a nil terminator or
    the node whose key compares equal. *)
Fixpoint descend (key : Z) (nFocus : node) (p : path) : result (node * path) :=
  match nFocus with
  | Nil _ => Ok (nFocus, p)
  | Node c l k v r =>
      DIRECTION <- compare (Node_init key PyNone) nFocus ;;
      match DIRECTION with
      | Some LEFT => descend key l (Frame LEFT c k v r :: p)
      | Some RIGHT => descend key r (Frame RIGHT c k v l :: p)
      | None => Ok (nFocus, p)
      end
  end.

Definition is_insert (a : option action) : bool :=
  match a with
  | Some TREE_INSERT => true
  | _ => false
  end.

(** [find(key, _post_action)]: the node found, as a location. *)
Definition find (key : pyval) (post_action : option action) (T : Tree)
  : result (node * path) :=
  match isinstance_int key with
  | None => Raise TypeError
  | Some k =>
      match root T with
      | None => Raise LookupError
      | Some r =>
          nFocus <- descend k r [] ;;
          if negb (is_nil (fst nFocus)) && is_insert post_action
          then Raise LookupError
          else if is_nil (fst nFocus) && negb (is_insert post_action)
          then Raise LookupError
          else Ok nFocus
      end
  end.

(** *** insert *)

(** Loop test of [__insert_fixup]:
    [nFocus.parent and nFocus.parent.color == RED]. *)
Definition insert_fixup_test (st : node * path) : bool :=
  match snd st with
  | [] => false
  | f :: _ => color_eqb (f_color f) RED
  end.

(** Loop body of [__insert_fixup]: the location of [nFocus] at the end of
    the iteration. *)
Definition insert_fixup_body (st : node * path) : result (node * path) :=
  let nFocus := fst st in
  match snd st with
  | [] => Raise AttributeError
  | fP :: [] => Raise AttributeError
  | fP :: fG :: p' =>
      let DIRECTION_FROM_GRANDPA := f_dir fG in
      let OPPOSITE_DIRECTION := opp DIRECTION_FROM_GRANDPA in
      let nUncle := f_other fG in
      if color_eqb (color_of nUncle) RED then
        (* CLRS Case 1 *)
        let nParent := paint BLACK (fill fP nFocus) in
        let nGrandpa :=
          paint RED (fill (Frame (f_dir fG) (f_color fG) (f_key fG)
                             (f_value fG) (paint BLACK nUncle)) nParent) in
        Ok (nGrandpa, p')
      else
        nParent <-
          (if direction_eqb (f_dir fP) OPPOSITE_DIRECTION then
             (* CLRS Case 2: nFocus becomes the child of the promoted node *)
             rotate (fill fP nFocus) DIRECTION_FROM_GRANDPA
           else Ok (fill fP nFocus)) ;;
        (* CLRS Case 3 *)
        top <- rotate (paint RED (fill fG (paint BLACK nParent)))
                 OPPOSITE_DIRECTION ;;
        down DIRECTION_FROM_GRANDPA (top, p')
  end.

Definition keep {A} (a : A) : {b : A | a = b} := exist _ a eq_refl.

Equations? insert_fixup_loop (st : node * path) : result (node * path)
  by wf (length (snd st)) lt :=
insert_fixup_loop st with keep (insert_fixup_test st) := {
  | exist _ false _ := Ok st;
  | exist _ true _ with keep (insert_fixup_body st) := {
      | exist _ (Raise e) _ := Raise e;
      | exist _ (Ok st') Hb := insert_fixup_loop st' } }.
Proof.
  match type of Hb with
  | insert_fixup_body (?a, ?b) = _ => rename a into nF; rename b into pA
  end.
  destruct pA as [|fP [|fG p']]; cbn in Hb; try discriminate.
  destruct (color_eqb (color_of (f_other fG)) RED).
  - inversion Hb; subst; simpl; lia.
  - destruct (direction_eqb (f_dir fP) (opp (f_dir fG)));
      [destruct (rotate (fill fP nF) (f_dir fG)) as [nP|]|];
      cbn in Hb; try discriminate.
    + destruct (rotate (paint RED (fill fG (paint BLACK nP))) (opp (f_dir fG)))
        as [[|c a k v b]|]; cbn in Hb; try discriminate.
      destruct (f_dir fG); inversion Hb; subst; simpl; lia.
    + destruct (rotate (paint RED (fill fG (paint BLACK (fill fP nF))))
                  (opp (f_dir fG)))
        as [[|c a k v b]|]; cbn in Hb; try discriminate.
      destruct (f_dir fG); inversion Hb; subst; simpl; lia.
Qed.

(** [__insert_fixup(nFocus)]: the new root. *)
Definition insert_fixup (nFocus : node) (p : path) : result node :=
  st <- insert_fixup_loop (nFocus, p) ;;
  Ok (paint BLACK (zip (fst st) (snd st))).

(** [insert(key, value)]. *)
Definition insert (key : pyval) (value : pyval) (T : Tree) : result Tree :=
  match isinstance_int key with
  | None => Raise TypeError
  | Some k =>
      let nNew := Node_init k value in
      match root T with
      | None => Ok (set_root T (Some (paint BLACK nNew)))
      | Some _ =>
          nFocus <- find key (Some TREE_INSERT) T ;;
          match snd nFocus with
          | [] => Raise AttributeError
          | _ :: _ =>
              r <- insert_fixup nNew (snd nFocus) ;;
              Ok (set_root T (Some r))
          end
      end
  end.

(** *** delete *)

(** Loop test of [__delete_fixup]:
    [nFocus is not self.__root and nFocus.color == BLACK]. *)
Definition delete_fixup_test (st : node * path) : bool :=
  match snd st with
  | [] => false
  | _ :: _ => color_eqb (color_of (fst st)) BLACK
  end.

(** Loop body of [__delete_fixup]: the location of [nFocus] at the end of
    the iteration. *)
Definition delete_fixup_body (st : node * path) : result (node * path) :=
  let nFocus := fst st in
  match snd st with
  | [] => Raise AttributeError
  | fP :: pP =>
      let DIRECTION_FROM_PARENT := f_dir fP in
      let OPPOSITE_DIRECTION := opp DIRECTION_FROM_PARENT in
      let nSibling := f_other fP in
      locP <-
        (if color_eqb (color_of nSibling) RED then
           (* CLRS Case 1: nParent goes down under the old sibling *)
           top <- rotate
                    (paint RED (set_child OPPOSITE_DIRECTION
                                  (paint BLACK nSibling) (fill fP nFocus)))
                    DIRECTION_FROM_PARENT ;;
           down DIRECTION_FROM_PARENT (top, pP)
         else Ok (fill fP nFocus, pP)) ;;
      let nParent := fst locP in
      let pP := snd locP in
      nSibling <- child OPPOSITE_DIRECTION nParent ;;
      sl <- child LEFT nSibling ;;
      sr <- child RIGHT nSibling ;;
      if color_eqb (color_of sl) BLACK && color_eqb (color_of sr) BLACK then
        (* CLRS Case 2 *)
        Ok (set_child OPPOSITE_DIRECTION (paint RED nSibling) nParent, pP)
      else
        far <- child OPPOSITE_DIRECTION nSibling ;;
        nParent <-
          (if color_eqb (color_of far) BLACK then
             (* CLRS Case 3 *)
             s1 <- paint_child DIRECTION_FROM_PARENT BLACK nSibling ;;
             top <- rotate (paint RED s1) OPPOSITE_DIRECTION ;;
             Ok (set_child OPPOSITE_DIRECTION top nParent)
           else Ok nParent) ;;
        nSibling <- child OPPOSITE_DIRECTION nParent ;;
        (* CLRS Case 4 *)
        s1 <- paint_child OPPOSITE_DIRECTION BLACK nSibling ;;
        top <- rotate
                 (paint BLACK (set_child OPPOSITE_DIRECTION
                                 (paint (color_of nParent) s1) nParent))
                 DIRECTION_FROM_PARENT ;;
        Ok (zip top pP, [])
  end.

Definition delete_fixup_measure (st : node * path) : nat :=
  (2 * List.length (snd st) +
   (if color_eqb (color_of (fst st)) BLACK then 1 else 0))%nat.

Ltac delete_fixup_decreases Hb e :=
  unfold delete_fixup_test in e; unfold delete_fixup_body in Hb;
  unfold delete_fixup_measure;
  match type of Hb with
  | context [snd (_, ?p0)] =>
      destruct p0 as [|[[|] ? ? ? [[|]|[|] ? ? ? ?]] ?]; try discriminate
  end;
  cbn [fst snd] in *; rewrite e; clear e;
  unfold rotate, paint_child, down, fill, bind, child in Hb;
  cbn in Hb; try discriminate;
  repeat match type of Hb with
         | context [match ?x with _ => _ end] =>
             destruct x; cbn in Hb; try discriminate
         end;
  inversion Hb; subst; cbn [fst snd color_of color_eqb List.length];
  try lia;
  repeat match goal with
         | |- context [if ?x then _ else _] => destruct x
         end; lia.

Equations? delete_fixup_loop (st : node * path) : result (node * path)
  by wf (delete_fixup_measure st) lt :=
delete_fixup_loop st with keep (delete_fixup_test st) := {
  | exist _ false _ := Ok st;
  | exist _ true _ with keep (delete_fixup_body st) := {
      | exist _ (Raise e) _ := Raise e;
      | exist _ (Ok st') Hb := delete_fixup_loop st' } }.
Proof.
  clear delete_fixup_loop. delete_fixup_decreases Hb e.
Qed.

(** [__delete_fixup(nFocus)]: the new root. *)
Definition delete_fixup (nFocus : node) (p : path) : result node :=
  st <- delete_fixup_loop (nFocus, p) ;;
  Ok (zip (paint BLACK (fst st)) (snd st)).

(** The successor loop of [delete]:
    [while not nReplacer.child[LEFT].is_nil(): nReplacer = nReplacer.child[LEFT]]. *)
Fixpoint leftmost (nReplacer : node) (p : path) : result (node * path) :=
  match nReplacer with
  | Nil _ => Raise AttributeError
  | Node c l k v r =>
      if negb (is_nil l) then leftmost l (Frame LEFT c k v r :: p)
      else Ok (nReplacer, p)
  end.

(** [a.key = k] for the ancestor [a] that is [i] levels above the parent. *)
Fixpoint set_key (i : nat) (k : Z) (p : path) : path :=
  match p with
  | [] => []
  | f :: p' =>
      match i with
      | O => Frame (f_dir f) (f_color f) k (f_value f) (f_other f) :: p'
      | S i' => f :: set_key i' k p'
      end
  end.

(** [delete(key)]. *)
Definition delete (key : pyval) (T : Tree) : result Tree :=
  nFocus <- find key (Some TREE_DELETE) T ;;
  let pF := snd nFocus in
  lF <- child LEFT (fst nFocus) ;;
  rF <- child RIGHT (fst nFocus) ;;
  (* Locate next-largest value as successor *)
  nReplacer <-
    (if negb (is_nil lF) && negb (is_nil rF) then
       start <- down RIGHT nFocus ;;
       leftmost (fst start) (snd start)
     else Ok nFocus) ;;
  let pR := snd nReplacer in
  (* nFocus is [above] levels over nReplacer; 0 when they are the same node *)
  let above := (List.length pR - List.length pF)%nat in
  (* Extract replacer node from tree and copy its key to focus *)
  lR <- child LEFT (fst nReplacer) ;;
  rR <- child RIGHT (fst nReplacer) ;;
  let nRepChild := if negb (is_nil lR) then lR else rR in
  match pR with
  | [] =>
      (* nReplacer == self.__root *)
      if is_nil nRepChild then Ok (set_root T None)
      else Ok (set_root T (Some (paint BLACK nRepChild)))
  | _ :: _ =>
      let pR :=
        match above, key_of (fst nReplacer) with
        | S i, Some kR => set_key i kR pR
        | _, _ => pR
        end in
      if color_eqb (color_of (fst nReplacer)) BLACK then
        r <- delete_fixup nRepChild pR ;;
        Ok (set_root T (Some r))
      else Ok (set_root T (Some (zip nRepChild pR)))
  end.

(** *** update, boundary *)

(** [node.value = value]. *)
Definition set_value (value : pyval) (n : node) : node :=
  match n with
  | Nil c => Nil c
  | Node c l k _ r => Node c l k (Some value) r
  end.

(** [update(key, value)]. *)
Definition update (key : pyval) (value : pyval) (T : Tree) : result Tree :=
  n <- find key (Some TREE_UPDATE) T ;;
  Ok (set_root T (Some (zip (set_value value (fst n)) (snd n)))).

(** The loop of [boundary], [while curr: prev = curr; curr = curr.child[direction]]:
    a nil terminator is a [Node] object and so is true; the walk ends when
    [curr] is the [None] held in a terminator's slot.  The result is [prev]. *)
Fixpoint boundary_walk (d : direction) (curr : node) : node :=
  match curr with
  | Nil _ => curr
  | Node _ l _ _ r =>
      boundary_walk d (match d with LEFT => l | RIGHT => r end)
  end.

(** [boundary(find_option)]: [None], or the object in [prev]. *)
Definition boundary (find_option : pyval) (T : Tree) : result (option node) :=
  match root T with
  | None => Ok None
  | Some r =>
      match find_option with
      | PyInt z =>
          if z =? 0 then Ok (Some (boundary_walk LEFT r))
          else if z =? 1 then Ok (Some (boundary_walk RIGHT r))
          else Raise KeyError
      | _ => Raise KeyError
      end
  end.

(** *** traverse *)

(** Identity of a node object inside one tree: the slots followed from the
    root, last step first. *)
Definition address (l : node * path) : list direction := map f_dir (snd l).

Fixpoint address_eqb (a b : list direction) : bool :=
  match a, b with
  | [], [] => true
  | x :: a', y :: b' => direction_eqb x y && address_eqb a' b'
  | _, _ => false
  end.

(** [x is n.child[d]], for an object [x] that is not [None]. *)
Definition is_child (d : direction) (x n : node * path) : bool :=
  negb (is_nil (fst n)) && address_eqb (address x) (d :: address n).

(** [x in n.child]. *)
Definition in_children (x n : node * path) : bool :=
  is_child LEFT x n || is_child RIGHT x n.

Definition order_eqb (a b : order) : bool :=
  match a, b with
  | PRE_ORDER, PRE_ORDER | IN_ORDER, IN_ORDER | POST_ORDER, POST_ORDER => true
  | _, _ => false
  end.

Section Traverse.
(** The callback acts on a state of its own; it receives the node and the
    depth and does not write to the tree. *)
Variable A : Type.
Variable callback : node -> Z -> A -> A.
Variable process_order : order.

Record walk := Walk {
  curr : option (node * path);
  prev : option (node * path);
  depth : Z;
  seen : A
}.

Definition call_if (o : order) (n : node) (d : Z) (a : A) : A :=
  if order_eqb process_order o then callback n d a else a.

(** One iteration of [while curr:]. *)
Definition traverse_body (st : walk) : result walk :=
  match curr st with
  | None => Ok st
  | Some c =>
      if match prev st with
         | None => true
         | Some pv => in_children c pv
         end
      then
        let depth := depth st + 1 in
        let a := call_if PRE_ORDER (fst c) depth (seen st) in
        l <- child LEFT (fst c) ;;
        if negb (is_nil l) then
          nxt <- down LEFT c ;; Ok (Walk (Some nxt) (Some c) depth a)
        else
          let a := call_if IN_ORDER (fst c) depth a in
          r <- child RIGHT (fst c) ;;
          if negb (is_nil r) then
            nxt <- down RIGHT c ;; Ok (Walk (Some nxt) (Some c) depth a)
          else
            let a := call_if POST_ORDER (fst c) depth a in
            Ok (Walk (up c) (Some c) depth a)
      else if match prev st with
              | None => false
              | Some pv => is_child LEFT pv c
              end
      then
        let depth := depth st - 1 in
        let a := call_if IN_ORDER (fst c) depth (seen st) in
        r <- child RIGHT (fst c) ;;
        if negb (is_nil r) then
          nxt <- down RIGHT c ;; Ok (Walk (Some nxt) (Some c) depth a)
        else
          let a := call_if POST_ORDER (fst c) depth a in
          Ok (Walk (up c) (Some c) depth a)
      else if match prev st with
              | None => false
              | Some pv => is_child RIGHT pv c
              end
      then
        let depth := depth st - 1 in
        let a := call_if POST_ORDER (fst c) depth (seen st) in
        Ok (Walk (up c) (Some c) depth a)
      else Ok st
  end.

(** [while curr:], at most [fuel] iterations; [None] when the loop has not
    ended by then. *)
Fixpoint traverse_loop (fuel : nat) (st : walk) : option (result A) :=
  match curr st with
  | None => Some (Ok (seen st))
  | Some _ =>
      match fuel with
      | O => None
      | S fuel' =>
          match traverse_body st with
          | Raise e => Some (Raise e)
          | Ok st' => traverse_loop fuel' st'
          end
      end
  end.

(** [traverse(callback, process_order)]. *)
Definition traverse (T : Tree) (fuel : nat) (a : A) : option (result A) :=
  match root T with
  | None => Some (Ok a)
  | Some r => traverse_loop fuel (Walk (Some (r, [])) None 0 a)
  end.
End Traverse.

Arguments Walk {A}.
Arguments curr {A}.
Arguments prev {A}.
Arguments depth {A}.
Arguments seen {A}.
Arguments traverse_body {A}.
Arguments traverse_loop {A}.
Arguments traverse {A}.

(** [__display_cb]: append [(node.key, depth, color)] to [__elem_list]. *)
Definition display_cb (n : node) (d : Z) (elem_list : list (option Z * Z * color))
  : list (option Z * Z * color) :=
  elem_list ++ [(key_of n, d, color_of n)].

(** [display()]: the list that is printed. *)
Definition display (T : Tree) (fuel : nat)
  : option (result (list (option Z * Z * color))) :=
  traverse display_cb IN_ORDER T fuel [].

(** *** validate *)

Definition set_debug (T : Tree) (vs : list Z) (mn : Z * Z) : Tree :=
  mkTree (root T) (debug T) vs mn.

(** The red/order tests of [__inspect] on the children of [nFocus]. *)
Definition inspect_children (nFocus : node) : result unit :=
  l <- child LEFT nFocus ;;
  r <- child RIGHT nFocus ;;
  if negb (is_nil l) then
    if color_eqb (color_of nFocus) RED && color_eqb (color_of l) RED
    then Raise ValueError
    else
      d <- compare nFocus l ;;
      match d with
      | Some LEFT => Raise KeyError
      | _ => Ok tt
      end
  else if negb (is_nil r) then
    if color_eqb (color_of nFocus) RED && color_eqb (color_of r) RED
    then Raise ValueError
    else
      d <- compare nFocus r ;;
      match d with
      | Some RIGHT => Raise KeyError
      | _ => Ok tt
      end
  else Ok tt.

(** [__inspect(nFocus)]; [is_root] is [nFocus is self.__root].  The state is
    returned with the exception: the bookkeeping written before a [raise]
    stays written. *)
Fixpoint inspect (is_root : bool) (nFocus : node) (T : Tree) : result Z * Tree :=
  match nFocus with
  | Nil _ => (Ok 1, T)
  | Node c l k v r =>
      let T := set_debug T (vals T) (fst (max_nodes T), snd (max_nodes T) + 1) in
      if existsb (Z.eqb k) (vals T) then (Raise ReferenceError, T)
      else
        let T := set_debug T (k :: vals T) (max_nodes T) in
        match inspect_children nFocus with
        | Raise e => (Raise e, T)
        | Ok _ =>
            match inspect false l T with
            | (Raise e, T) => (Raise e, T)
            | (Ok bhL, T) =>
                match inspect false r T with
                | (Raise e, T) => (Raise e, T)
                | (Ok bhR, T) =>
                    if (bhL >? 0) && (bhR >? 0) && negb (bhL =? bhR)
                    then (Raise ValueError, T)
                    else if is_root &&
                            negb (fst (max_nodes T) =? snd (max_nodes T))
                    then (Raise ArithmeticError, T)
                    else if (bhL =? bhR) && (bhR =? 0) then (Ok 0, T)
                    else if color_eqb c RED then (Ok bhL, T)
                    else (Ok (bhL + 1), T)
                end
            end
        end
  end.

(** [validate(_pre_action)]. *)
Definition validate (pre_action : option action) (T : Tree) : result unit * Tree :=
  match root T with
  | None => (Ok tt, T)
  | Some r =>
      if negb (debug T) then (Ok tt, T)
      else
        let T := set_debug T [] (fst (max_nodes T), 0) in
        let T :=
          match pre_action with
          | Some TREE_INSERT =>
              set_debug T (vals T) (fst (max_nodes T) + 1, snd (max_nodes T))
          | Some TREE_DELETE =>
              set_debug T (vals T) (fst (max_nodes T) - 1, snd (max_nodes T))
          | _ => T
          end in
        match inspect true r T with
        | (Raise e, T) => (Raise e, T)
        | (Ok _, T) => (Ok tt, T)
        end
  end.

(** ** Runs of the public mutators *)

Inductive op :=
| Insert (key : pyval) (value : pyval)
| Delete (key : pyval)
| Update (key : pyval) (value : pyval).

Definition apply_op (o : op) (T : Tree) : result Tree :=
  match o with
  | Insert k v => insert k v T
  | Delete k => delete k T
  | Update k v => update k v T
  end.

(** The tree the caller holds after a call.  [TypeError] and [LookupError]
    are raised by the argument test and by [find], before the first write to
    the tree, which is therefore the one passed in.  An exception raised
    while nodes are being relinked leaves a state the model does not
    describe. *)
Definition after (T : Tree) (r : result Tree) : option Tree :=
  match r with
  | Ok T' => Some T'
  | Raise TypeError | Raise LookupError => Some T
  | Raise _ => None
  end.

Fixpoint run (ops : list op) (T : Tree) : option Tree :=
  match ops with
  | [] => Some T
  | o :: ops' =>
      match after T (apply_op o T) with
      | None => None
      | Some T' => run ops' T'
      end
  end.

(** ** The invariants of the data model *)

(** In-order contents. *)
Fixpoint elements (n : node) : list (Z * option pyval) :=
  match n with
  | Nil _ => []
  | Node _ l k v r => elements l ++ (k, v) :: elements r
  end.

Definition keys (n : node) : list Z := map fst (elements n).

(** Number of real nodes. *)
Fixpoint size (n : node) : nat :=
  match n with
  | Nil _ => O
  | Node _ l _ _ r => S (size l + size r)
  end.

(** Largest number of real nodes on a path from [n] down to a terminator. *)
Fixpoint height (n : node) : nat :=
  match n with
  | Nil _ => O
  | Node _ l _ _ r => S (Nat.max (height l) (height r))
  end.

Definition blackness (c : color) : nat :=
  match c with BLACK => 1%nat | RED => 0%nat end.

(** For each path from [n] down to a nil terminator, the number of BLACK
    nodes on it, [n] and the terminator included. *)
Fixpoint black_counts (n : node) : list nat :=
  match n with
  | Nil c => [blackness c]
  | Node c l _ _ r =>
      map (Nat.add (blackness c)) (black_counts l ++ black_counts r)
  end.

(** Invariant 1: every nil terminator is BLACK (that it has no key and no
    children is the shape of [Nil]). *)
Fixpoint inv1 (n : node) : Prop :=
  match n with
  | Nil c => c = BLACK
  | Node _ l _ _ r => inv1 l /\ inv1 r
  end.

(** Invariant 2: no RED node has a RED child. *)
Fixpoint inv2 (n : node) : Prop :=
  match n with
  | Nil _ => True
  | Node c l _ _ r =>
      (c = RED -> color_of l = BLACK /\ color_of r = BLACK) /\ inv2 l /\ inv2 r
  end.

(** Invariant 3: at every node, all paths down to a nil terminator hold the
    same number of BLACK nodes. *)
Fixpoint inv3 (n : node) : Prop :=
  match n with
  | Nil _ => True
  | Node _ l _ _ r =>
      (forall a b, In a (black_counts n) -> In b (black_counts n) -> a = b) /\
      inv3 l /\ inv3 r
  end.

(** Invariant 4: the root is BLACK. *)
Definition inv4 (n : node) : Prop := color_of n = BLACK.

(** Invariant 5: strict search-tree order at every node. *)
Fixpoint inv5 (n : node) : Prop :=
  match n with
  | Nil _ => True
  | Node _ l k _ r =>
      Forall (fun x => x < k) (keys l) /\ Forall (fun x => k < x) (keys r) /\
      inv5 l /\ inv5 r
  end.

(** A tree is valid when it is empty or its root is a real node under which
    invariants 1 to 5 hold. *)
Definition valid (T : Tree) : Prop :=
  match root T with
  | None => True
  | Some r =>
      is_nil r = false /\ inv1 r /\ inv2 r /\ inv3 r /\ inv4 r /\ inv5 r
  end.

Definition tree_keys (T : Tree) : list Z :=
  match root T with
  | None => []
  | Some r => keys r
  end.

Definition tree_elements (T : Tree) : list (Z * option pyval) :=
  match root T with
  | None => []
  | Some r => elements r
  end.

Definition tree_size (T : Tree) : nat :=
  match root T with
  | None => O
  | Some r => size r
  end.

Definition tree_height (T : Tree) : nat :=
  match root T with
  | None => O
  | Some r => height r
  end.

(** *** Working form of invariants 1 to 3 *)

(** BLACK real nodes from [n] down its leftmost path. *)
Fixpoint bh (n : node) : nat :=
  match n with
  | Nil _ => O
  | Node c l _ _ _ => (bh l + blackness c)%nat
  end.

Fixpoint rb (n : node) : Prop :=
  match n with
  | Nil c => c = BLACK
  | Node c l _ _ r =>
      rb l /\ rb r /\ bh l = bh r /\
      (c = RED -> color_of l = BLACK /\ color_of r = BLACK)
  end.

(** Contents to the left and to the right of the place a path leads to. *)
Fixpoint lefts (p : path) : list (Z * option pyval) :=
  match p with
  | [] => []
  | f :: p' =>
      match f_dir f with
      | LEFT => lefts p'
      | RIGHT => lefts p' ++ elements (f_other f) ++ [(f_key f, f_value f)]
      end
  end.

Fixpoint rights (p : path) : list (Z * option pyval) :=
  match p with
  | [] => []
  | f :: p' =>
      match f_dir f with
      | LEFT => (f_key f, f_value f) :: elements (f_other f) ++ rights p'
      | RIGHT => rights p'
      end
  end.

Definition top_black (p : path) : Prop :=
  match p with
  | [] => True
  | f :: _ => f_color f = BLACK
  end.

(** The ancestors fit a subtree of black height [n] put under them. *)
Fixpoint rbpath (n : nat) (p : path) : Prop :=
  match p with
  | [] => True
  | f :: p' =>
      rb (f_other f) /\ bh (f_other f) = n /\
      (f_color f = RED ->
       color_of (f_other f) = BLACK /\ top_black p' /\ p' <> []) /\
      rbpath (n + blackness (f_color f)) p'
  end.

(** The validity of a root in working form. *)
Definition good (r : node) : Prop :=
  is_nil r = false /\ rb r /\ color_of r = BLACK /\
  StronglySorted Z.lt (keys r).

Definition payload (value : pyval) : option pyval :=
  if truthy value then Some value else None.

Definition rekey (k : Z) (f : frame) : frame :=
  Frame (f_dir f) (f_color f) k (f_value f) (f_other f).

(** The nodes handed to the callback, with their depths, in the order of the
    calls. *)
Fixpoint visits (o : order) (n : node) (d : Z) : list (node * Z) :=
  match n with
  | Nil _ => []
  | Node _ l _ _ r =>
      (if order_eqb o PRE_ORDER then [(n, d)] else []) ++
      visits o l (d + 1) ++
      (if order_eqb o IN_ORDER then [(n, d)] else []) ++
      visits o r (d + 1) ++
      (if order_eqb o POST_ORDER then [(n, d)] else [])
  end.

Definition feed {A} (callback : node -> Z -> A -> A) (a : A)
  (vs : list (node * Z)) : A :=
  fold_left (fun a v => callback (fst v) (snd v) a) vs a.

(** Iterations of [while curr:] spent on a subtree. *)
Fixpoint steps (n : node) : nat :=
  match n with
  | Nil _ => O
  | Node _ l _ _ r =>
      S ((if is_nil l then O else S (steps l)) +
         (if is_nil r then O else S (steps r)))
  end.

Definition tree_visits (o : order) (T : Tree) : list (node * Z) :=
  match root T with
  | None => []
  | Some r => visits o r 1
  end.

Definition insert_op (kv : Z * pyval) : op := Insert (PyInt (fst kv)) (snd kv).

(** *** Sample trees *)

Definition leaf (c : color) (k : Z) (v : option pyval) : node :=
  Node c (Nil BLACK) k v (Nil BLACK).

(** The tree after [insert(10); insert(20); insert(30)]. *)
Definition tree_10_20_30 : Tree :=
  mkTree (Some (Node BLACK (leaf RED 10 None) 20 None (leaf RED 30 None)))
    false [] (0, 0).

(** The tree after [insert(10, 'a'); insert(5, 'b'); insert(20, 'c')]. *)
Definition tree_abc : Tree :=
  mkTree (Some (Node BLACK (leaf RED 5 (Some (PyStr "b"))) 10
                  (Some (PyStr "a")) (leaf RED 20 (Some (PyStr "c")))))
    false [] (0, 0).

(** A debug tree on which [validate] is run: [count] nodes were reported;
    [vs] and [act] are what the last check left in [__vals] and
    [__max_nodes[_ACTUAL]]. *)
Definition debug_tree (r : node) (count : Z) (vs : list Z) (act : Z) : Tree :=
  mkTree (Some r) true vs (count, act).

(** The RED node 5 has the RED right child 7, next to a real left child. *)
Definition red_red_right : node :=
  Node BLACK
    (Node RED (leaf BLACK 3 None) 5 None
       (Node RED (leaf BLACK 6 None) 7 None (leaf BLACK 8 None)))
    10 None (leaf BLACK 15 None).

(** The same defect on the left side. *)
Definition red_red_left : node :=
  Node BLACK
    (Node RED (Node RED (leaf BLACK 1 None) 2 None (leaf BLACK 3 None)) 5 None
       (leaf BLACK 7 None))
    10 None (leaf BLACK 15 None).

(** The right child 3 of the root 10 is out of order, next to a real left
    child; and the mirror image. *)
Definition order_right : node :=
  Node BLACK (leaf RED 5 None) 10 None (leaf RED 3 None).
Definition order_left : node :=
  Node BLACK (leaf RED 15 None) 10 None (leaf RED 20 None).

(** What a test does to put a defect into a tree: [tree.find(key).color = c]
    and [tree.find(key).key = k]. *)
Definition write_color (key : Z) (c : color) (T : Tree) : result Tree :=
  n <- find (PyInt key) None T ;;
  Ok (set_root T (Some (zip (paint c (fst n)) (snd n)))).

Definition write_key (key : Z) (k : Z) (T : Tree) : result Tree :=
  n <- find (PyInt key) None T ;;
  match fst n with
  | Nil c => Ok T
  | Node c l _ v r => Ok (set_root T (Some (zip (Node c l k v r) (snd n))))
  end.

(** The step of [random_seed_tests]:
    [tree.insert(key); tree.validate(TREE_INSERT)]. *)
Definition insert_validate (T : result Tree) (key : Z) : result Tree :=
  T0 <- T ;;
  T1 <- insert (PyInt key) PyNone T0 ;;
  match validate (Some TREE_INSERT) T1 with
  | (Ok _, T2) => Ok T2
  | (Raise e, _) => Raise e
  end.

(** A callback that records what [traverse] shows of each node: key, color,
    payload and depth. *)
Definition view_cb (n : node) (d : Z)
  (acc : list (option Z * color * option pyval * Z))
  : list (option Z * color * option pyval * Z) :=
  acc ++ [(key_of n, color_of n, value_of n, d)].

(** *** Callers of the tree *)

(** The second step of [random_seed_tests]:
    [tree.delete(key); tree.validate(TREE_DELETE)]. *)
Definition delete_validate (T : result Tree) (key : Z) : result Tree :=
  T0 <- T ;;
  T1 <- delete (PyInt key) T0 ;;
  match validate (Some TREE_DELETE) T1 with
  | (Ok _, T2) => Ok T2
  | (Raise e, _) => Raise e
  end.

(** The body of [random_seed_tests] for one [rand_array]: a debug tree, every
    key inserted and checked, then every key deleted and checked, in the
    order of the array. *)
Definition seed_test (rand_array : list Z) : result Tree :=
  fold_left delete_validate rand_array
    (fold_left insert_validate rand_array (Ok (Tree_init true))).

(** [NodeField._find_tree_depth] of [main.py], the callback that
    [_draw_tree_on_canvas] hands to [traverse]:
    [if self.rbt_draw_depth < node_depth: self.rbt_draw_depth = node_depth]. *)
Definition find_tree_depth (db_node : node) (node_depth : Z)
  (rbt_draw_depth : Z) : Z :=
  if rbt_draw_depth <? node_depth then node_depth else rbt_draw_depth.

(** [self.rbt_draw_depth = 0] followed by
    [rbt_db.traverse(self._find_tree_depth, rbt_ns.IN_ORDER)]. *)
Definition draw_depth (T : Tree) (fuel : nat) : option (result Z) :=
  traverse find_tree_depth IN_ORDER T fuel 0.

(** *** Notions used in the statements *)

(** A node without its payloads: keys, colors and links. *)
Fixpoint skeleton (n : node) : node :=
  match n with
  | Nil c => Nil c
  | Node c l k _ r => Node c (skeleton l) k None (skeleton r)
  end.

(** The nodes of a subtree in pre-order and in post-order, each with its
    depth, the top of the subtree being at depth [d]. *)
Fixpoint pre_order (n : node) (d : Z) : list (node * Z) :=
  match n with
  | Nil _ => []
  | Node _ l _ _ r => (n, d) :: pre_order l (d + 1) ++ pre_order r (d + 1)
  end.

Fixpoint post_order (n : node) (d : Z) : list (node * Z) :=
  match n with
  | Nil _ => []
  | Node _ l _ _ r => post_order l (d + 1) ++ post_order r (d + 1) ++ [(n, d)]
  end.

Fixpoint in_order (n : node) (d : Z) : list (node * Z) :=
  match n with
  | Nil _ => []
  | Node _ l _ _ r => in_order l (d + 1) ++ (n, d) :: in_order r (d + 1)
  end.

(** The line [display] prints for one node. *)
Definition display_entry (v : node * Z) : option Z * Z * color :=
  (key_of (fst v), snd v, color_of (fst v)).

(** Equal numbers of BLACK real nodes on the leftmost paths of the two
    subtrees of every node. *)
Fixpoint balanced (n : node) : Prop :=
  match n with
  | Nil _ => True
  | Node _ l _ _ r => balanced l /\ balanced r /\ bh l = bh r
  end.

(** The red and order tests that [__inspect] makes at every node: the left
    child when it is real, the right child only when the left one is a
    terminator. *)
Fixpoint inspected (n : node) : Prop :=
  match n with
  | Nil _ => True
  | Node c l k _ r =>
      inspect_children n = Ok tt /\ inspected l /\ inspected r
  end.

(** The keys in the order in which [__inspect] enters them into [__vals]. *)
Fixpoint pre_keys (n : node) : list Z :=
  match n with
  | Nil _ => []
  | Node _ l k _ r => k :: pre_keys l ++ pre_keys r
  end.

(** [__max_nodes[_REPORTED]] as [validate(_pre_action)] compares it. *)
Definition reported (pre_action : option action) (T : Tree) : Z :=
  match pre_action with
  | Some TREE_INSERT => fst (max_nodes T) + 1
  | Some TREE_DELETE => fst (max_nodes T) - 1
  | _ => fst (max_nodes T)
  end.

(** * Properties *)

(** ** Basic facts *)

Lemma color_eqb_eq a b : color_eqb a b = true <-> a = b.
Proof. destruct a, b; simpl; split; congruence. Qed.

Lemma color_eqb_neq a b : color_eqb a b = false <-> a <> b.
Proof. destruct a, b; simpl; split; congruence. Qed.

Lemma not_red c : c <> RED -> c = BLACK.
Proof. destruct c; congruence. Qed.

Lemma not_black c : c <> BLACK -> c = RED.
Proof. destruct c; congruence. Qed.

Lemma elements_paint c n : elements (paint c n) = elements n.
Proof. destruct n; reflexivity. Qed.

Lemma elements_zip n p :
  elements (zip n p) = lefts p ++ elements n ++ rights p.
Proof.
  revert n. induction p as [|[d c k v s] p IH]; intros n; simpl.
  - now rewrite app_nil_r.
  - rewrite IH. unfold fill; destruct d; simpl;
      repeat (rewrite <- app_assoc; simpl); reflexivity.
Qed.

Lemma zip_app n p q : zip n (p ++ q) = zip (zip n p) q.
Proof. revert n. induction p; intros; simpl; auto. Qed.

Lemma zip_is_node n p : p <> [] -> is_nil (zip n p) = false.
Proof.
  revert n. induction p as [|f p IH]; intros n H; [congruence|].
  simpl. destruct p as [|g p].
  - simpl. unfold fill. destruct (f_dir f); reflexivity.
  - apply IH. discriminate.
Qed.

Lemma size_elements n : size n = List.length (elements n).
Proof.
  induction n; simpl; auto.
  rewrite length_app. simpl. lia.
Qed.

Lemma keys_length n : List.length (keys n) = size n.
Proof. unfold keys. now rewrite length_map, size_elements. Qed.

(** *** Search-tree order as sortedness of the in-order keys *)

Lemma sorted_app (l1 l2 : list Z) :
  StronglySorted Z.lt (l1 ++ l2) <->
  StronglySorted Z.lt l1 /\ StronglySorted Z.lt l2 /\
  (forall x y, In x l1 -> In y l2 -> x < y).
Proof.
  induction l1 as [|a l1 IH]; simpl.
  - split; [intros H; repeat split; auto; [constructor|contradiction]|tauto].
  - split.
    + intros H. inversion H as [|? ? Hs Hf]; subst.
      apply IH in Hs. destruct Hs as (S1 & S2 & Hlt).
      rewrite Forall_app in Hf. destruct Hf as [F1 F2].
      repeat split; auto.
      * constructor; auto.
      * intros x y [->|Hx] Hy; [|auto].
        rewrite Forall_forall in F2. auto.
    + intros (S1 & S2 & Hlt). inversion S1; subst.
      constructor.
      * apply IH. repeat split; auto.
      * rewrite Forall_app. split; auto.
        rewrite Forall_forall. intros y Hy. apply Hlt; auto.
Qed.

Lemma keys_node c l k v r : keys (Node c l k v r) = keys l ++ k :: keys r.
Proof. unfold keys. simpl. now rewrite map_app. Qed.

Lemma inv5_sorted n : inv5 n <-> StronglySorted Z.lt (keys n).
Proof.
  induction n as [c|c l IHl k v r IHr].
  - simpl. split; auto. intros; constructor.
  - rewrite keys_node. simpl. rewrite sorted_app. rewrite IHl, IHr.
    rewrite !Forall_forall. split.
    + intros (Hl & Hr & Sl & Sr). repeat split; auto.
      * constructor; auto. rewrite Forall_forall. auto.
      * intros x y Hx [->|Hy]; auto.
        specialize (Hl _ Hx). specialize (Hr _ Hy). lia.
    + intros (Sl & Sr & Hlt). inversion Sr as [|? ? Sr' Fr]; subst.
      rewrite Forall_forall in Fr. repeat split; auto.
      intros x Hx. apply Hlt; simpl; auto.
Qed.

(** *** Invariants 1 to 3 and their working form *)

Lemma black_counts_nonempty n : black_counts n <> [].
Proof.
  induction n as [c|c l IHl k v r IHr]; simpl; [discriminate|].
  destruct (black_counts l); [contradiction|]. discriminate.
Qed.

Lemma rb_black_counts n :
  rb n -> Forall (fun x => x = S (bh n)) (black_counts n).
Proof.
  induction n as [c|c l IHl k v r IHr]; simpl.
  - intros ->. constructor; auto.
  - intros (Hl & Hr & Hbh & _).
    apply Forall_map. apply Forall_app. split.
    + eapply Forall_impl; [|apply IHl; auto]. simpl. intros; lia.
    + eapply Forall_impl; [|apply IHr; auto]. simpl. intros; lia.
Qed.

Lemma rb_invs n : rb n -> inv1 n /\ inv2 n /\ inv3 n.
Proof.
  induction n as [c|c l IHl k v r IHr]; simpl.
  - auto.
  - intros (Hl & Hr & Hbh & Hc).
    destruct (IHl Hl) as (? & ? & ?). destruct (IHr Hr) as (? & ? & ?).
    split; [auto|]. split; [auto|]. split; [|auto].
    intros a b Ha Hb.
    assert (H' : rb (Node c l k v r)) by (simpl; auto).
    apply rb_black_counts in H'. rewrite Forall_forall in H'.
    rewrite (H' a Ha), (H' b Hb). reflexivity.
Qed.

Lemma invs_rb n : inv1 n -> inv2 n -> inv3 n -> rb n.
Proof.
  induction n as [c|c l IHl k v r IHr]; simpl; auto.
  intros (H1l & H1r) (Hc & H2l & H2r) (Heq & H3l & H3r).
  assert (Rl : rb l) by auto. assert (Rr : rb r) by auto.
  assert (Hbh : bh l = bh r).
  { pose proof (rb_black_counts l Rl) as Fl.
    pose proof (rb_black_counts r Rr) as Fr.
    destruct (black_counts l) as [|a la] eqn:El;
      [exfalso; eapply black_counts_nonempty; eauto|].
    destruct (black_counts r) as [|b lb] eqn:Er;
      [exfalso; eapply black_counts_nonempty; eauto|].
    inversion Fl; subst. inversion Fr; subst.
    assert (E : (blackness c + S (bh l) = blackness c + S (bh r))%nat).
    { apply Heq.
      - simpl. auto.
      - apply in_map. apply in_or_app. right. simpl. auto. }
    lia. }
  auto.
Qed.

Lemma rb_paint_black n : rb n -> rb (paint BLACK n).
Proof.
  destruct n; simpl; auto.
  intros (? & ? & ? & ?). repeat split; auto; discriminate.
Qed.

Lemma rb_nil_black c : rb (Nil c) -> c = BLACK.
Proof. auto. Qed.

Lemma rb_red_is_node n :
  rb n -> color_of n = RED -> exists l k v r, n = Node RED l k v r.
Proof.
  destruct n; simpl.
  - intros -> ?; discriminate.
  - intros _ ->. eauto.
Qed.

Lemma rb_bh_pos_is_node n : (0 < bh n)%nat -> is_nil n = false.
Proof. destruct n; simpl; auto. lia. Qed.

Lemma bh_fill f n : bh (f_other f) = bh n ->
  bh (fill f n) = (bh n + blackness (f_color f))%nat.
Proof.
  unfold fill. destruct (f_dir f); simpl; intros; lia.
Qed.

(** Putting a fitting subtree under fitting ancestors gives a tree with
    invariants 1 to 3 and, when there is an ancestor, a BLACK root. *)
Lemma zip_rb n p :
  rb n -> rbpath (bh n) p -> (color_of n = RED -> top_black p) ->
  rb (zip n p) /\ (p <> [] -> color_of (zip n p) = BLACK).
Proof.
  revert n. induction p as [|f p IH]; intros n Hn Hp Hc; simpl.
  - split; auto. congruence.
  - simpl in Hp. destruct Hp as (Ro & Bo & Hred & Hp').
    assert (Hcn : f_color f = RED -> color_of n = BLACK).
    { intros E. destruct (color_of n) eqn:En; auto.
      specialize (Hc eq_refl). simpl in Hc. congruence. }
    assert (Rf : rb (fill f n)).
    { unfold fill. destruct (f_dir f); simpl.
      - split; [auto|]. split; [auto|]. split; [congruence|].
        intros E. destruct (Hred E) as (? & _). auto.
      - split; [auto|]. split; [auto|]. split; [congruence|].
        intros E. destruct (Hred E) as (? & _). auto. }
    assert (Cf : color_of (fill f n) = f_color f).
    { unfold fill. destruct (f_dir f); reflexivity. }
    destruct (IH (fill f n)) as (R & C); auto.
    + rewrite bh_fill; auto.
    + rewrite Cf. intros E. apply Hred in E. tauto.
    + split; auto. intros _. destruct p as [|g p].
      * simpl. rewrite Cf. destruct (f_color f) eqn:E; auto.
        destruct (Hred eq_refl) as (_ & _ & E'). congruence.
      * apply C. discriminate.
Qed.

(** Conversely, a place inside a tree with invariants 1 to 4 has a fitting
    subtree and fitting ancestors. *)
Lemma zip_rb_inv n p :
  rb (zip n p) -> color_of (zip n p) = BLACK ->
  rb n /\ rbpath (bh n) p /\ (color_of n = RED -> top_black p /\ p <> []).
Proof.
  revert n. induction p as [|f p IH]; intros n R C; simpl in *.
  - repeat split; auto; congruence.
  - destruct (IH _ R C) as (Rf & Pf & Cf).
    assert (Ec : color_of (fill f n) = f_color f).
    { unfold fill. destruct (f_dir f); reflexivity. }
    rewrite Ec in Cf.
    assert (G : rb n /\ rb (f_other f) /\ bh (f_other f) = bh n /\
                (f_color f = RED ->
                 color_of n = BLACK /\ color_of (f_other f) = BLACK) /\
                rbpath (bh n + blackness (f_color f)) p).
    { unfold fill in Rf, Pf.
      destruct (f_dir f); simpl in Rf, Pf;
        destruct Rf as (R1 & R2 & Hbh & Hc).
      - split; [auto|]. split; [auto|]. split; [auto|]. split; auto.
      - rewrite Hbh in Pf.
        split; [auto|]. split; [auto|]. split; [auto|]. split; auto.
        intros E. destruct (Hc E). auto. }
    destruct G as (Rn & Ro & Hbh & Hc & Pp).
    split; [auto|]. split.
    + split; [auto|]. split; [auto|]. split; [|auto].
      intros E. destruct (Hc E). destruct (Cf E). auto.
    + intros E. split; [|discriminate].
      destruct (f_color f) eqn:E'; auto.
      destruct (Hc eq_refl). congruence.
Qed.

(** ** insert *)

Lemma insert_fixup_loop_eq st :
  insert_fixup_loop st =
  if insert_fixup_test st
  then st' <- insert_fixup_body st ;; insert_fixup_loop st'
  else Ok st.
Proof.
  funelim (insert_fixup_loop st).
  - rewrite e. reflexivity.
  - rewrite e, Hb. reflexivity.
  - rewrite e2, e0. reflexivity.
Qed.

Lemma paint_is_nil c n : is_nil (paint c n) = is_nil n.
Proof. destruct n; reflexivity. Qed.

Lemma color_paint c n : color_of (paint c n) = c.
Proof. destruct n; reflexivity. Qed.

Lemma zip_not_nil n p : is_nil n = false -> is_nil (zip n p) = false.
Proof.
  destruct p; auto. intros _. apply zip_is_node. discriminate.
Qed.

Lemma finish_root t p :
  rb t -> color_of t = BLACK -> is_nil t = false -> rbpath (bh t) p ->
  rb (paint BLACK (zip t p)) /\ color_of (paint BLACK (zip t p)) = BLACK /\
  is_nil (paint BLACK (zip t p)) = false.
Proof.
  intros R C N P. destruct (zip_rb t p) as (R' & _); auto.
  - congruence.
  - split; [apply rb_paint_black; auto|]. split; [apply color_paint|].
    rewrite paint_is_nil. apply zip_not_nil; auto.
Qed.

Ltac elements_eq :=
  rewrite ?elements_paint, ?elements_zip; simpl;
  rewrite ?elements_paint; simpl;
  repeat (rewrite <- ?app_assoc; simpl); try reflexivity.

Lemma insert_fixup_ok n p :
  rb n -> color_of n = RED -> rbpath (bh n) p ->
  exists r, insert_fixup n p = Ok r /\ rb r /\ color_of r = BLACK /\
            is_nil r = false /\ elements r = elements (zip n p).
Proof.
  remember (List.length p) as m eqn:Hm. revert n p Hm.
  induction m as [m IH] using lt_wf_ind. intros n p Hm Rn Cn Pp.
  destruct (rb_red_is_node n Rn Cn) as (nl & nk & nv & nr & En).
  unfold insert_fixup. rewrite insert_fixup_loop_eq.
  destruct p as [|fP p].
  - (* nFocus is the root *)
    simpl. subst n. eexists. split; [reflexivity|]. simpl in *.
    repeat split; try tauto; discriminate.
  - unfold insert_fixup_test. cbn [snd].
    destruct (color_eqb (f_color fP) RED) eqn:EP.
    + (* the parent is RED *)
      apply color_eqb_eq in EP.
      simpl in Pp. destruct Pp as (Ro & Bo & Hred & Pp).
      destruct (Hred EP) as (Co & Tb & Ne).
      destruct p as [|fG p]; [congruence|]. simpl in Tb.
      simpl in Pp. destruct Pp as (Ru & Bu & Hredg & Pp).
      destruct fP as [dP cP kP vP sP], fG as [dG cG kG vG u].
      cbn [f_dir f_color f_key f_value f_other] in *. subst cP cG.
      cbn [blackness] in Bu, Pp. rewrite Nat.add_0_r in Bu, Pp.
      unfold insert_fixup_body. cbn [fst snd f_dir f_color f_key f_value f_other].
      destruct (color_eqb (color_of u) RED) eqn:EU.
      * (* CLRS Case 1 *)
        apply color_eqb_eq in EU.
        destruct (rb_red_is_node u Ru EU) as (ul & uk & uv & ur & ->).
        cbn [bind].
        match goal with
        | |- exists r, (st <- insert_fixup_loop (?g, p) ;; _) = _ /\ _ =>
            destruct (IH (List.length p)) with (n := g) (p := p)
              as (r & Hr & R & C & N & E)
        end.
        { subst m. simpl. lia. }
        { reflexivity. }
        { subst n. simpl in *. unfold fill; destruct dP, dG; simpl;
            repeat split; try tauto; try congruence; try lia. }
        { unfold fill; destruct dP, dG; reflexivity. }
        { replace (bh _) with (bh n + 1)%nat; auto.
          subst n. unfold fill; destruct dP, dG; simpl in *; lia. }
        exists r. split; [exact Hr|]. split; [auto|]. split; [auto|].
        split; [auto|]. rewrite E. rewrite !elements_zip.
        unfold fill; destruct dP, dG; simpl;
          repeat (rewrite <- ?app_assoc; simpl); reflexivity.
      * (* CLRS Cases 2 and 3 *)
        apply color_eqb_neq in EU. apply not_red in EU.
        clear IH Hm Hred Hredg Ne.
        subst n. simpl in Rn, Bo, Bu, Pp.
        destruct dP, dG; cbn; rewrite insert_fixup_loop_eq; cbn;
          (eexists; split; [reflexivity|]);
          match goal with
          | |- rb (paint BLACK (zip ?t p)) /\ _ =>
              destruct (finish_root t p) as (R & C & N);
                [ simpl; intuition (try congruence; try lia)
                | reflexivity | reflexivity
                | simpl; replace (bh _ + 0 + 1)%nat with (bh nl + 0 + 1)%nat by lia; auto
                | split; [exact R|]; split; [exact C|]; split; [exact N|];
                  elements_eq ]
          end.
    + (* the parent is BLACK: the loop ends *)
      apply color_eqb_neq in EP. apply not_red in EP.
      cbn [bind fst snd].
      destruct (zip_rb n (fP :: p)) as (R & C); auto.
      eexists. split; [reflexivity|].
      split; [apply rb_paint_black; auto|].
      split; [apply color_paint|].
      split; [rewrite paint_is_nil; apply zip_is_node; discriminate|].
      apply elements_paint.
Qed.

Lemma lefts_app q p : lefts (q ++ p) = lefts p ++ lefts q.
Proof.
  induction q as [|f q IH]; simpl.
  - now rewrite app_nil_r.
  - destruct (f_dir f); auto. rewrite IH. now rewrite <- app_assoc.
Qed.

Lemma rights_app q p : rights (q ++ p) = rights q ++ rights p.
Proof.
  induction q as [|f q IH]; simpl; auto.
  destruct (f_dir f); auto. rewrite IH. simpl.
  now rewrite <- app_assoc.
Qed.

Lemma keys_zip n p :
  keys (zip n p) = map fst (lefts p) ++ keys n ++ map fst (rights p).
Proof. unfold keys. rewrite elements_zip, !map_app. reflexivity. Qed.

Lemma valid_good T r : root T = Some r -> (valid T <-> good r).
Proof.
  intros E. unfold valid, good. rewrite E. split.
  - intros (N & I1 & I2 & I3 & I4 & I5).
    split; [auto|]. split; [apply invs_rb; auto|]. split; [exact I4|].
    apply inv5_sorted; auto.
  - intros (N & R & C & S). destruct (rb_invs r R) as (I1 & I2 & I3).
    repeat split; auto. apply inv5_sorted; auto.
Qed.

Lemma compare_node k c l k' v r :
  compare (Node_init k PyNone) (Node c l k' v r) =
  Ok (if k <? k' then Some LEFT else if k >? k' then Some RIGHT else None).
Proof.
  unfold compare. simpl. destruct (k <? k'); auto. destruct (k >? k'); auto.
Qed.

(** The walk of [find] stops at the place where [k] is or belongs. *)
Lemma descend_ok k n p :
  inv5 n ->
  exists n' q,
    descend k n p = Ok (n', q ++ p) /\ zip n' q = n /\
    Forall (fun x => x < k) (map fst (lefts q)) /\
    Forall (fun x => k < x) (map fst (rights q)) /\
    (is_nil n' = true \/ key_of n' = Some k).
Proof.
  revert p. induction n as [c|c l IHl k' v r IHr]; intros p H5.
  - exists (Nil c), []. simpl. repeat split; auto.
  - simpl in H5. destruct H5 as (Fl & Fr & H5l & H5r).
    cbn [descend]. rewrite compare_node. cbn [bind].
    destruct (k <? k') eqn:E1; [|destruct (k >? k') eqn:E2].
    + apply Z.ltb_lt in E1.
      destruct (IHl (Frame LEFT c k' v r :: p) H5l)
        as (n' & q & D & Z' & L & R & K).
      exists n', (q ++ [Frame LEFT c k' v r]).
      rewrite <- app_assoc. simpl. split; [exact D|].
      rewrite zip_app, Z'. split; [reflexivity|].
      rewrite lefts_app, rights_app. simpl.
      rewrite app_nil_r. split; [auto|]. split; [|auto].
      rewrite map_app. apply Forall_app. split; [auto|].
      simpl. constructor; [auto|].
      eapply Forall_impl; [|exact Fr]. simpl. intros; lia.
    + apply Z.gtb_lt in E2.
      destruct (IHr (Frame RIGHT c k' v l :: p) H5r)
        as (n' & q & D & Z' & L & R & K).
      exists n', (q ++ [Frame RIGHT c k' v l]).
      rewrite <- app_assoc. simpl. split; [exact D|].
      rewrite zip_app, Z'. split; [reflexivity|].
      rewrite lefts_app, rights_app. simpl.
      rewrite app_nil_r. split; [|auto].
      rewrite !map_app. apply Forall_app. split; [|auto].
      apply Forall_app. split.
      * eapply Forall_impl; [|exact Fl]. simpl. intros; lia.
      * simpl. constructor; [lia|constructor].
    + exists (Node c l k' v r), []. simpl.
      repeat split; auto. right. f_equal.
      apply Z.ltb_ge in E1. rewrite Z.gtb_ltb in E2. apply Z.ltb_ge in E2. lia.
Qed.

Lemma descend_found k n p n' q :
  inv5 n -> descend k n p = Ok (n', q) ->
  (In k (keys n) -> exists c l v r, n' = Node c l k v r) /\
  (~ In k (keys n) -> exists c, n' = Nil c).
Proof.
  intros H5 D. destruct (descend_ok k n p H5) as (m & q' & D' & Z' & L & R & K).
  rewrite D in D'. inversion D'; subst m q. clear D'.
  assert (Ek : keys n = map fst (lefts q') ++ keys n' ++ map fst (rights q')).
  { rewrite <- Z'. apply keys_zip. }
  rewrite Forall_forall in L, R.
  split.
  - intros Hin. rewrite Ek in Hin.
    apply in_app_or in Hin. destruct Hin as [Hin|Hin];
      [apply L in Hin; lia|].
    apply in_app_or in Hin. destruct Hin as [Hin|Hin];
      [|apply R in Hin; lia].
    destruct n' as [c|c l k' v r]; [contradiction|].
    destruct K as [K|K]; [discriminate|]. simpl in K. inversion K. eauto.
  - intros Hnin. destruct n' as [c|c l k' v r]; [eauto|].
    exfalso. apply Hnin. rewrite Ek.
    destruct K as [K|K]; [discriminate|]. simpl in K. inversion K; subst k'.
    apply in_or_app. right. apply in_or_app. left.
    rewrite keys_node. apply in_or_app. right. simpl. auto.
Qed.

Lemma sorted_insert L R k :
  StronglySorted Z.lt (L ++ R) ->
  Forall (fun x => x < k) L -> Forall (fun x => k < x) R ->
  StronglySorted Z.lt (L ++ k :: R).
Proof.
  intros S FL FR. apply sorted_app in S. destruct S as (SL & SR & H).
  rewrite Forall_forall in FL, FR.
  apply sorted_app. split; [auto|]. split.
  - constructor; auto. rewrite Forall_forall. auto.
  - intros x y Hx [->|Hy]; auto.
Qed.

(** Inserting an absent key into a valid tree. *)
Lemma insert_ok T key k value :
  isinstance_int key = Some k ->
  valid T -> ~ In k (tree_keys T) ->
  exists T' L R,
    insert key value T = Ok T' /\ valid T' /\
    debug T' = debug T /\ vals T' = vals T /\ max_nodes T' = max_nodes T /\
    tree_elements T = L ++ R /\
    tree_elements T' = L ++ (k, payload value) :: R.
Proof.
  intros Hk V Hnin. unfold insert. rewrite Hk.
  destruct (root T) as [r|] eqn:Er.
  - apply (valid_good T r Er) in V. destruct V as (N & R & C & S).
    unfold tree_keys in Hnin. rewrite Er in Hnin.
    unfold find. rewrite Hk, Er.
    assert (H5 : inv5 r) by (apply inv5_sorted; auto).
    destruct (descend_ok k r [] H5) as (n' & q & D & Z' & FL & FR & K).
    rewrite app_nil_r in D. rewrite D. cbn [bind fst snd].
    destruct (descend_found k r [] n' q H5 D) as (_ & Hnil).
    destruct (Hnil Hnin) as (c & ->). cbn [is_nil negb andb is_insert bind snd].
    destruct q as [|f q]; [simpl in Z'; subst r; discriminate|].
    rewrite <- Z' in R, C.
    destruct (zip_rb_inv _ _ R C) as (Rn & Pq & _).
    destruct (insert_fixup_ok (Node_init k value) (f :: q))
      as (r' & Hr & R' & C' & N' & E'); auto.
    { simpl. repeat split; auto. }
    rewrite Hr. cbn [bind].
    exists (set_root T (Some r')), (lefts (f :: q)), (rights (f :: q)).
    split; [reflexivity|]. split.
    + apply (valid_good (set_root T (Some r')) r' eq_refl).
      split; [auto|]. split; [auto|]. split; [auto|].
      unfold keys. rewrite E', elements_zip, !map_app. simpl.
      apply sorted_insert; auto.
      rewrite <- Z' in S. rewrite keys_zip in S. exact S.
    + split; [reflexivity|]. split; [reflexivity|]. split; [reflexivity|].
      unfold tree_elements, set_root. rewrite Er. cbn [root].
      rewrite E', <- Z', !elements_zip. simpl. auto.
  - exists (set_root T (Some (paint BLACK (Node_init k value)))), [], [].
    split; [reflexivity|]. split.
    + apply (valid_good (set_root T (Some (paint BLACK (Node_init k value)))) _ eq_refl). simpl.
      repeat split; auto; try discriminate.
      repeat constructor.
    + unfold tree_elements. rewrite Er. simpl. auto.
Qed.

(** Inserting a key that is present is refused by [find]. *)
Lemma insert_duplicate T key k value :
  isinstance_int key = Some k ->
  valid T -> In k (tree_keys T) ->
  insert key value T = Raise LookupError.
Proof.
  intros Hk V Hin. unfold insert. rewrite Hk.
  unfold tree_keys in Hin.
  destruct (root T) as [r|] eqn:Er; [|contradiction].
  apply (valid_good T r Er) in V. destruct V as (N & R & C & S).
  unfold find. rewrite Hk, Er.
  assert (H5 : inv5 r) by (apply inv5_sorted; auto).
  destruct (descend k r []) as [[n' q]|e] eqn:D.
  - destruct (descend_found k r [] n' q H5 D) as (Hnode & _).
    destruct (Hnode Hin) as (c & l & v & r0 & ->). reflexivity.
  - destruct (descend_ok k r [] H5) as (? & ? & D' & _). congruence.
Qed.

(** ** delete *)

Lemma delete_fixup_loop_eq st :
  delete_fixup_loop st =
  if delete_fixup_test st
  then st' <- delete_fixup_body st ;; delete_fixup_loop st'
  else Ok st.
Proof.
  funelim (delete_fixup_loop st).
  - rewrite e. reflexivity.
  - rewrite e, Hb. reflexivity.
  - rewrite e2, e0. reflexivity.
Qed.

Lemma paint_same n : paint (color_of n) n = n.
Proof. destruct n; reflexivity. Qed.

Lemma finish_root' t p :
  rb t -> is_nil t = false -> rbpath (bh t) p ->
  (color_of t = RED -> top_black p) ->
  rb (paint BLACK (zip t p)) /\ color_of (paint BLACK (zip t p)) = BLACK /\
  is_nil (paint BLACK (zip t p)) = false.
Proof.
  intros R N P C. destruct (zip_rb t p) as (R' & _); auto.
  split; [apply rb_paint_black; auto|]. split; [apply color_paint|].
  rewrite paint_is_nil. apply zip_not_nil; auto.
Qed.

Lemma black_bh_pos_node n :
  rb n -> (0 < bh n)%nat -> color_of n = BLACK ->
  exists l k v r, n = Node BLACK l k v r.
Proof.
  destruct n; simpl; [lia|]. intros _ _ ->. eauto.
Qed.

Ltac red_node x :=
  match goal with
  | H : color_of x = RED, R : rb x |- _ =>
      destruct (rb_red_is_node x R H) as (? & ? & ? & ? & ->);
      simpl in R; decompose [and] R; clear R
  end.

Lemma rbpath_eq a b p : a = b -> rbpath a p -> rbpath b p.
Proof. intros ->; auto. Qed.

Ltac crush :=
  cbn [bh blackness color_of rb rbpath top_black paint is_nil f_other f_color f_dir] in *;
  intuition (try congruence; try lia; try discriminate;
             try (eapply rbpath_eq; [|eassumption]; lia)).

Ltac body_leaf :=
  cbn -[zip];
  eexists; eexists; (split; [reflexivity|]);
  first
    [ (* the loop goes on from the parent *)
      split; [solve [crush]|];
      split; [reflexivity|];
      split; [solve [crush]|];
      elements_eq
    | (* the rotation of Case 4 ends the loop *)
      match goal with
      | |- rb (paint BLACK (zip ?t ?p)) /\ _ =>
          destruct (finish_root' t p) as (R' & C' & N');
          [ solve [crush]
          | reflexivity
          | solve [crush]
          | solve [crush]
          | split; [exact R'|]; split; [rewrite paint_is_nil in N'; exact N'|];
            split; [exact Logic.I|]; elements_eq; rewrite ?app_nil_r; reflexivity ]
      end ].

Lemma delete_fixup_body_ok n fP pP :
  rb n -> color_of n = BLACK -> rbpath (S (bh n)) (fP :: pP) ->
  exists n' p',
    delete_fixup_body (n, fP :: pP) = Ok (n', p') /\
    rb (paint BLACK n') /\ is_nil n' = false /\ rbpath (S (bh n')) p' /\
    elements (zip n' p') = elements (zip n (fP :: pP)).
Proof.
  intros Rn Cn Pp.
  destruct fP as [d cP kP vP s]. simpl in Pp.
  destruct Pp as (Rs & Bs & Hred & Pp).
  destruct s as [cs|cs sl sk sv sr]; [simpl in Bs; lia|].
  destruct cs.
  - (* the sibling is RED *)
    assert (cP = BLACK).
    { destruct cP; auto. destruct (Hred eq_refl) as (E & _). discriminate. }
    subst cP. clear Hred.
    simpl in Rs. destruct Rs as (Rsl & Rsr & Bsl & Cs).
    destruct (Cs eq_refl) as (Csl & Csr). clear Cs.
    simpl in Bs. rewrite Nat.add_0_r in Bs.
    destruct (black_bh_pos_node sl Rsl) as (sll & slk & slv & slr & ->);
      [lia|auto|].
    destruct (black_bh_pos_node sr Rsr) as (srl & srk & srv & srr & ->);
      [lia|auto|].
    clear Csl Csr.
    simpl in Rsl, Rsr, Bsl, Bs.
    destruct Rsl as (Rsll & Rslr & Bsll & _).
    destruct Rsr as (Rsrl & Rsrr & Bsrl & _).
    destruct d.
    + unfold delete_fixup_body. cbn -[zip].
      destruct (color_of sll) eqn:Csll, (color_of slr) eqn:Cslr;
        try red_node sll; try red_node slr.
      * body_leaf.
      * body_leaf.
      * body_leaf.
      * body_leaf.
    + unfold delete_fixup_body. cbn -[zip].
      destruct (color_of srl) eqn:Csrl, (color_of srr) eqn:Csrr;
        try red_node srl; try red_node srr; body_leaf.
  - (* the sibling is BLACK *)
    simpl in Rs. destruct Rs as (Rsl & Rsr & Bsl & _).
    simpl in Bs.
    destruct d; unfold delete_fixup_body; cbn -[zip];
      destruct (color_of sl) eqn:Csl, (color_of sr) eqn:Csr;
      try red_node sl; try red_node sr; body_leaf.
Qed.

Lemma delete_fixup_body_decreases st st' :
  delete_fixup_test st = true -> delete_fixup_body st = Ok st' ->
  (delete_fixup_measure st' < delete_fixup_measure st)%nat.
Proof.
  destruct st as [n0 p0], st' as [n p]. intros e Hb.
  delete_fixup_decreases Hb e.
Qed.

Lemma delete_fixup_step n p n' p' :
  delete_fixup_test (n, p) = true ->
  delete_fixup_body (n, p) = Ok (n', p') ->
  delete_fixup n p = delete_fixup n' p'.
Proof.
  intros Ht Hb. unfold delete_fixup.
  rewrite delete_fixup_loop_eq, Ht, Hb. reflexivity.
Qed.

Lemma delete_fixup_exit n p :
  delete_fixup_test (n, p) = false ->
  delete_fixup n p = Ok (zip (paint BLACK n) p).
Proof.
  intros Ht. unfold delete_fixup.
  rewrite delete_fixup_loop_eq, Ht. reflexivity.
Qed.

Lemma delete_fixup_ok n p :
  rb (paint BLACK n) -> (is_nil n = true -> color_of n = BLACK) ->
  rbpath (S (bh n)) p ->
  exists r, delete_fixup n p = Ok r /\ rb r /\ color_of r = BLACK /\
            (p <> [] \/ is_nil n = false -> is_nil r = false) /\
            elements r = elements (zip n p).
Proof.
  remember (delete_fixup_measure (n, p)) as m eqn:Hm. revert n p Hm.
  induction m as [m IH] using lt_wf_ind. intros n p Hm Rn Nn Pp.
  destruct (delete_fixup_test (n, p)) eqn:Et.
  - (* one more iteration *)
    pose proof Et as Et'.
    unfold delete_fixup_test in Et. cbn [fst snd] in Et.
    destruct p as [|fP pP]; [discriminate|].
    apply color_eqb_eq in Et.
    assert (Rn' : rb n) by (rewrite <- Et in Rn; now rewrite paint_same in Rn).
    destruct (delete_fixup_body_ok n fP pP Rn' Et Pp)
      as (n' & p' & Hb & R' & N' & P' & E').
    rewrite (delete_fixup_step _ _ _ _ Et' Hb).
    destruct (IH (delete_fixup_measure (n', p'))) with (n := n') (p := p')
      as (r & Hr & R & C & N & E); auto.
    { subst m. apply delete_fixup_body_decreases; auto. }
    { rewrite N'. discriminate. }
    exists r. split; [exact Hr|]. split; [auto|]. split; [auto|].
    split; [intros _; apply N; auto|]. congruence.
  - (* the loop ends *)
    rewrite (delete_fixup_exit _ _ Et).
    eexists. split; [reflexivity|].
    unfold delete_fixup_test in Et. cbn [fst snd] in Et.
    destruct p as [|fP pP].
    + simpl. split; [auto|]. split; [apply color_paint|].
      split; [|apply elements_paint].
      rewrite paint_is_nil. intros [H|H]; congruence.
    + apply color_eqb_neq in Et. apply not_black in Et.
      destruct n as [c|c l k v r];
        [simpl in *; specialize (Nn eq_refl); congruence|].
      simpl in Et. subst c.
      destruct (zip_rb (paint BLACK (Node RED l k v r)) (fP :: pP))
        as (R & C); auto.
      { eapply rbpath_eq; [|exact Pp]. simpl. lia. }
      { simpl. discriminate. }
      split; [exact R|]. split; [apply C; discriminate|].
      split; [intros _; apply zip_is_node; discriminate|].
      rewrite !elements_zip. reflexivity.
Qed.

Lemma leftmost_ok n p :
  is_nil n = false ->
  exists c l k v r q,
    leftmost n p = Ok (Node c l k v r, q ++ p) /\ is_nil l = true /\
    zip (Node c l k v r) q = n /\ lefts q = [].
Proof.
  revert p. induction n as [c|c l IHl k v r _]; intros p Hn; [discriminate|].
  cbn [leftmost]. destruct (is_nil l) eqn:El; cbn [negb].
  - exists c, l, k, v, r, []. auto.
  - destruct (IHl (Frame LEFT c k v r :: p) eq_refl)
      as (c' & l' & k' & v' & r' & q & H & Hl & Hz & Hq).
    exists c', l', k', v', r', (q ++ [Frame LEFT c k v r]).
    rewrite <- app_assoc. split; [exact H|]. split; [auto|].
    split; [rewrite zip_app, Hz; reflexivity|].
    rewrite lefts_app, Hq. reflexivity.
Qed.

Lemma set_key_app q k f p :
  set_key (List.length q) k (q ++ f :: p) = q ++ rekey k f :: p.
Proof. induction q; simpl; [reflexivity|]. now rewrite IHq. Qed.

Lemma rbpath_rekey n q k f p :
  rbpath n (q ++ f :: p) -> rbpath n (q ++ rekey k f :: p).
Proof.
  revert n. induction q as [|g q IH]; intros n; simpl.
  - auto.
  - intros (R & B & Hred & P). split; [auto|]. split; [auto|].
    split; [|auto]. intros E. destruct (Hred E) as (C & T & N).
    split; [auto|]. split.
    + destruct q; simpl in *; auto.
    + destruct q; discriminate.
Qed.

Lemma is_nil_keys n : is_nil n = true -> elements n = [].
Proof. destruct n; simpl; auto. discriminate. Qed.

Lemma sorted_remove L k R :
  StronglySorted Z.lt (L ++ k :: R) -> StronglySorted Z.lt (L ++ R).
Proof.
  intros S. apply sorted_app in S. destruct S as (SL & SR & H).
  inversion SR; subst. apply sorted_app. split; [auto|]. split; [auto|].
  intros x y Hx Hy. apply H; simpl; auto.
Qed.

(** Taking a node with at most one real child out of its place. *)
Lemma splice_ok T cR lR kR vR rR x p :
  rb (Node cR lR kR vR rR) -> rbpath (bh (Node cR lR kR vR rR)) p ->
  p <> [] -> (x = lR \/ x = rR) ->
  exists r',
    (if color_eqb cR BLACK
     then r <- delete_fixup x p ;; Ok (set_root T (Some r))
     else Ok (set_root T (Some (zip x p)))) = Ok (set_root T (Some r')) /\
    rb r' /\ color_of r' = BLACK /\ is_nil r' = false /\
    elements r' = elements (zip x p).
Proof.
  intros R P Np Hx. simpl in R. destruct R as (Rl & Rr & Hbh & Hc).
  assert (Rx : rb x) by (destruct Hx; subst; auto).
  assert (Bx : bh x = bh lR) by (destruct Hx; subst; auto).
  simpl in P. destruct cR; cbn [color_eqb].
  - destruct (Hc eq_refl) as (Cl & Cr).
    assert (P' : rbpath (bh x) p).
    { eapply rbpath_eq; [|exact P]. simpl. lia. }
    assert (Cx : color_of x = RED -> top_black p).
    { destruct Hx; subst; congruence. }
    destruct (zip_rb x p Rx P' Cx) as (R' & C').
    exists (zip x p). split; [reflexivity|]. split; [auto|].
    split; [auto|]. split; [apply zip_is_node; auto|reflexivity].
  - assert (P' : rbpath (S (bh x)) p).
    { eapply rbpath_eq; [|exact P]. simpl. lia. }
    assert (Nx : is_nil x = true -> color_of x = BLACK).
    { intros Hn. destruct x; simpl in *; [auto|discriminate]. }
    destruct (delete_fixup_ok x p (rb_paint_black x Rx) Nx P')
      as (r & Hr & R' & C' & N' & E').
    exists r. rewrite Hr. split; [reflexivity|]. split; [auto|].
    split; [auto|]. split; [apply N'; auto|auto].
Qed.

Lemma find_present T key k r :
  isinstance_int key = Some k -> root T = Some r -> inv5 r ->
  In k (keys r) ->
  exists c l v r' p,
    find key (Some TREE_DELETE) T = Ok (Node c l k v r', p) /\
    find key (Some TREE_UPDATE) T = Ok (Node c l k v r', p) /\
    find key None T = Ok (Node c l k v r', p) /\
    zip (Node c l k v r') p = r.
Proof.
  intros Hk Er H5 Hin. unfold find. rewrite Hk, Er.
  destruct (descend_ok k r [] H5) as (n' & q & D & Z' & _).
  rewrite app_nil_r in D.
  destruct (descend_found k r [] n' q H5 D) as (Hnode & _).
  destruct (Hnode Hin) as (c & l & v & r' & ->).
  exists c, l, v, r', q. rewrite D. auto.
Qed.

Lemma find_absent T key k r a :
  isinstance_int key = Some k -> root T = Some r -> inv5 r ->
  ~ In k (keys r) -> is_insert a = false ->
  find key a T = Raise LookupError.
Proof.
  intros Hk Er H5 Hnin Ha. unfold find. rewrite Hk, Er.
  destruct (descend_ok k r [] H5) as (n' & q & D & Z' & _).
  rewrite app_nil_r in D.
  destruct (descend_found k r [] n' q H5 D) as (_ & Hnil).
  destruct (Hnil Hnin) as (c & ->). rewrite D. cbn. rewrite Ha. reflexivity.
Qed.

Lemma match_nonempty {A B} (l : list A) (x y : B) :
  l <> [] -> match l with [] => x | _ :: _ => y end = y.
Proof. destruct l; congruence. Qed.

(** Deleting a present key from a valid tree. *)
Lemma delete_ok T key k :
  isinstance_int key = Some k -> valid T -> In k (tree_keys T) ->
  exists T' L R,
    delete key T = Ok T' /\ valid T' /\
    debug T' = debug T /\ vals T' = vals T /\ max_nodes T' = max_nodes T /\
    tree_keys T = L ++ k :: R /\ tree_keys T' = L ++ R.
Proof.
  intros Hk V Hin. unfold tree_keys in *.
  destruct (root T) as [r|] eqn:Er; [|contradiction].
  apply (valid_good T r Er) in V. destruct V as (N & R & C & Srt).
  assert (H5 : inv5 r) by (apply inv5_sorted; auto).
  destruct (find_present T key k r Hk Er H5 Hin)
    as (cF & lF & vF & rF & pF & Hf & _ & _ & Hz).
  unfold delete. rewrite Hf. cbn [bind fst snd child].
  destruct (negb (is_nil lF) && negb (is_nil rF)) eqn:Etwo.
  - (* two real children: the successor is taken out *)
    apply andb_prop in Etwo. destruct Etwo as (El & Er').
    assert (Nr : is_nil rF = false) by (destruct (is_nil rF); auto; discriminate).
    cbn [down fst snd bind].
    destruct (leftmost_ok rF (Frame RIGHT cF k vF lF :: pF) Nr)
      as (cR & lR & kR & vR & rR & q & Hl & HlR & Hzq & Hq).
    rewrite Hl. cbn [bind fst snd child key_of color_of].
    rewrite HlR. cbn [negb].
    replace (List.length (q ++ Frame RIGHT cF k vF lF :: pF) - List.length pF)%nat
      with (S (List.length q)) by (rewrite length_app; simpl; lia).
    rewrite match_nonempty by (destruct q; discriminate).
    rewrite set_key_app.
    assert (Hzr : zip (Node cR lR kR vR rR)
                    (q ++ Frame RIGHT cF k vF lF :: pF) = r).
    { rewrite zip_app, Hzq. exact Hz. }
    rewrite <- Hzr in R, C.
    destruct (zip_rb_inv _ _ R C) as (RnR & PnR & _).
    apply (rbpath_rekey _ _ kR) in PnR.
    destruct (splice_ok T cR lR kR vR rR rR _ RnR PnR)
      as (r' & Hr' & R' & C' & N' & E'); [destruct q; discriminate|auto|].
    rewrite Hr'.
    exists (set_root T (Some r')),
      (map fst (lefts pF) ++ keys lF),
      (kR :: keys rR ++ map fst (rights q) ++ map fst (rights pF)).
    assert (K1 : keys r = (map fst (lefts pF) ++ keys lF) ++
                          k :: kR :: keys rR ++ map fst (rights q) ++
                          map fst (rights pF)).
    { rewrite <- Hz, keys_zip, keys_node, <- Hzq, keys_zip, Hq, keys_node.
      unfold keys at 2. rewrite (is_nil_keys lR HlR). simpl.
      repeat (rewrite <- ?app_assoc; simpl). reflexivity. }
    assert (K2 : keys r' = (map fst (lefts pF) ++ keys lF) ++
                           kR :: keys rR ++ map fst (rights q) ++
                           map fst (rights pF)).
    { unfold keys. rewrite E', elements_zip, lefts_app, rights_app, Hq.
      simpl. rewrite !map_app. simpl.
      repeat (rewrite <- ?app_assoc; simpl). rewrite ?map_app. reflexivity. }
    split; [reflexivity|]. split.
    { apply (valid_good (set_root T (Some r')) r' eq_refl).
      split; [auto|]. split; [auto|]. split; [auto|].
      rewrite K2. eapply sorted_remove. rewrite <- K1. exact Srt. }
    split; [reflexivity|]. split; [reflexivity|]. split; [reflexivity|].
    split; [exact K1|exact K2].
  - (* at most one real child: the node itself is taken out *)
    cbn [bind fst snd child key_of color_of]. rewrite Nat.sub_diag.
    set (x := if negb (is_nil lF) then lF else rF).
    assert (Hx : (x = lF /\ is_nil rF = true) \/ (x = rF /\ is_nil lF = true)).
    { unfold x. destruct (is_nil lF), (is_nil rF); simpl in *;
        auto; discriminate. }
    assert (K1 : keys r = (map fst (lefts pF) ++ keys lF) ++
                          k :: keys rF ++ map fst (rights pF)).
    { rewrite <- Hz, keys_zip, keys_node.
      repeat (rewrite <- ?app_assoc; simpl). reflexivity. }
    assert (Kx : keys lF ++ keys rF = keys x).
    { unfold keys.
      destruct Hx as [(-> & Hn)|(-> & Hn)]; rewrite (is_nil_keys _ Hn);
        simpl; now rewrite ?app_nil_r. }
    rewrite <- Hz in R, C.
    destruct (zip_rb_inv _ _ R C) as (RnF & PnF & _).
    destruct pF as [|f pF'].
    + (* the node is the root *)
      simpl in Hz. simpl in RnF. destruct RnF as (Rl & Rr & _).
      assert (Rx : rb x) by (destruct Hx as [(-> & _)|(-> & _)]; auto).
      destruct (is_nil x) eqn:Enx.
      * exists (set_root T None), (map fst (lefts []) ++ keys lF),
          (keys rF ++ map fst (rights [])).
        split; [reflexivity|]. split; [exact Logic.I|].
        split; [reflexivity|]. split; [reflexivity|]. split; [reflexivity|].
        split; [exact K1|]. simpl. rewrite !app_nil_r.
        rewrite Kx. unfold keys. now rewrite (is_nil_keys _ Enx).
      * exists (set_root T (Some (paint BLACK x))),
          (map fst (lefts []) ++ keys lF), (keys rF ++ map fst (rights [])).
        split; [reflexivity|].
        assert (K2 : keys (paint BLACK x) =
                     (map fst (lefts []) ++ keys lF) ++
                     keys rF ++ map fst (rights [])).
        { simpl. rewrite app_nil_r, Kx. unfold keys.
          now rewrite elements_paint. }
        split.
        { apply (valid_good (set_root T (Some (paint BLACK x))) _ eq_refl).
          split; [now rewrite paint_is_nil|].
          split; [apply rb_paint_black; auto|].
          split; [apply color_paint|].
          rewrite K2. eapply sorted_remove. rewrite <- K1. exact Srt. }
        split; [reflexivity|]. split; [reflexivity|]. split; [reflexivity|].
        split; [exact K1|exact K2].
    + destruct (splice_ok T cF lF k vF rF x (f :: pF') RnF PnF)
        as (r' & Hr' & R' & C' & N' & E');
        [discriminate|destruct Hx as [(-> & _)|(-> & _)]; auto|].
      exists (set_root T (Some r')),
        (map fst (lefts (f :: pF')) ++ keys lF),
        (keys rF ++ map fst (rights (f :: pF'))).
      split; [exact Hr'|].
      assert (K2 : keys r' = (map fst (lefts (f :: pF')) ++ keys lF) ++
                             keys rF ++ map fst (rights (f :: pF'))).
      { unfold keys at 1. rewrite E', elements_zip, !map_app.
        fold (keys x). rewrite <- Kx.
        repeat (rewrite <- ?app_assoc; simpl). reflexivity. }
      split.
      { apply (valid_good (set_root T (Some r')) r' eq_refl).
        split; [auto|]. split; [auto|]. split; [auto|].
        rewrite K2. eapply sorted_remove. rewrite <- K1. exact Srt. }
      split; [reflexivity|]. split; [reflexivity|]. split; [reflexivity|].
      split; [exact K1|exact K2].
Qed.

(** ** update *)

Lemma update_ok T key k value :
  isinstance_int key = Some k -> valid T -> In k (tree_keys T) ->
  exists T' L R old,
    update key value T = Ok T' /\ valid T' /\
    debug T' = debug T /\ vals T' = vals T /\ max_nodes T' = max_nodes T /\
    tree_elements T = L ++ (k, old) :: R /\
    tree_elements T' = L ++ (k, Some value) :: R.
Proof.
  intros Hk V Hin. unfold tree_keys, tree_elements in *.
  destruct (root T) as [r|] eqn:Er; [|contradiction].
  apply (valid_good T r Er) in V. destruct V as (N & R & C & Srt).
  assert (H5 : inv5 r) by (apply inv5_sorted; auto).
  destruct (find_present T key k r Hk Er H5 Hin)
    as (c & l & v & r' & p & _ & Hf & _ & Hz).
  unfold update. rewrite Hf. cbn [bind fst snd set_value].
  exists (set_root T (Some (zip (Node c l k (Some value) r') p))),
    (lefts p ++ elements l), (elements r' ++ rights p), v.
  split; [reflexivity|].
  assert (E1 : elements r =
               (lefts p ++ elements l) ++ (k, v) :: elements r' ++ rights p).
  { rewrite <- Hz, elements_zip. simpl.
    repeat (rewrite <- ?app_assoc; simpl). reflexivity. }
  assert (E2 : elements (zip (Node c l k (Some value) r') p) =
               (lefts p ++ elements l) ++
               (k, Some value) :: elements r' ++ rights p).
  { rewrite elements_zip. simpl.
    repeat (rewrite <- ?app_assoc; simpl). reflexivity. }
  split.
  { apply (valid_good (set_root T _) _ eq_refl).
    rewrite <- Hz in R, C, N.
    destruct (zip_rb_inv _ _ R C) as (Rn & Pn & Cn).
    destruct (zip_rb (Node c l k (Some value) r') p) as (R' & C'); auto.
    { intros E. apply Cn. exact E. }
    split; [apply zip_not_nil; reflexivity|]. split; [auto|].
    split.
    - destruct p as [|f p]; [exact C|apply C'; discriminate].
    - unfold keys in *. rewrite E2. rewrite E1 in Srt.
      rewrite map_app in *. exact Srt. }
  split; [reflexivity|]. split; [reflexivity|]. split; [reflexivity|].
  split; [exact E1|exact E2].
Qed.

(** ** Runs *)

Lemma in_keys_dec k T : {In k (tree_keys T)} + {~ In k (tree_keys T)}.
Proof. apply in_dec. apply Z.eq_dec. Qed.

Lemma find_empty T key a :
  root T = None -> isinstance_int key <> None ->
  find key a T = Raise LookupError.
Proof.
  intros Er Hk. unfold find. rewrite Er.
  destruct (isinstance_int key); congruence.
Qed.

Lemma find_not_int T key a :
  isinstance_int key = None -> find key a T = Raise TypeError.
Proof. intros Hk. unfold find. now rewrite Hk. Qed.

Lemma find_absent' T key k a :
  isinstance_int key = Some k -> valid T -> ~ In k (tree_keys T) ->
  is_insert a = false -> find key a T = Raise LookupError.
Proof.
  intros Hk V Hnin Ha. destruct (root T) as [r|] eqn:Er.
  - apply (valid_good T r Er) in V. destruct V as (_ & _ & _ & Srt).
    unfold tree_keys in Hnin. rewrite Er in Hnin.
    eapply find_absent; eauto. apply inv5_sorted; auto.
  - apply find_empty; auto. congruence.
Qed.

(** Every public mutation takes a valid tree to a valid tree, whether it
    returns or raises. *)
Lemma step_valid o T :
  valid T -> exists T', after T (apply_op o T) = Some T' /\ valid T'.
Proof.
  intros V. destruct o as [key value|key|key value]; simpl.
  - destruct (isinstance_int key) as [k|] eqn:Hk.
    + destruct (in_keys_dec k T) as [Hin|Hnin].
      * rewrite (insert_duplicate T key k value Hk V Hin). simpl. eauto.
      * destruct (insert_ok T key k value Hk V Hnin)
          as (T' & L & R & Hi & V' & _). rewrite Hi. simpl. eauto.
    + unfold insert. rewrite Hk. simpl. eauto.
  - destruct (isinstance_int key) as [k|] eqn:Hk.
    + destruct (in_keys_dec k T) as [Hin|Hnin].
      * destruct (delete_ok T key k Hk V Hin)
          as (T' & L & R & Hd & V' & _). rewrite Hd. simpl. eauto.
      * unfold delete.
        rewrite (find_absent' T key k (Some TREE_DELETE) Hk V Hnin eq_refl).
        simpl. eauto.
    + unfold delete. rewrite (find_not_int T key _ Hk). simpl. eauto.
  - destruct (isinstance_int key) as [k|] eqn:Hk.
    + destruct (in_keys_dec k T) as [Hin|Hnin].
      * destruct (update_ok T key k value Hk V Hin)
          as (T' & L & R & old & Hu & V' & _). rewrite Hu. simpl. eauto.
      * unfold update.
        rewrite (find_absent' T key k (Some TREE_UPDATE) Hk V Hnin eq_refl).
        simpl. eauto.
    + unfold update. rewrite (find_not_int T key _ Hk). simpl. eauto.
Qed.

Lemma run_valid ops T :
  valid T -> exists T', run ops T = Some T' /\ valid T'.
Proof.
  revert T. induction ops as [|o ops IH]; intros T V; simpl.
  - eauto.
  - destruct (step_valid o T V) as (T1 & H1 & V1). rewrite H1. auto.
Qed.

Lemma valid_init dbg : valid (Tree_init dbg).
Proof. exact Logic.I. Qed.

(** ** Height *)

Lemma rb_height n :
  rb n ->
  (height n <= 2 * bh n + (1 - blackness (color_of n)))%nat /\
  (2 ^ bh n <= size n + 1)%nat.
Proof.
  induction n as [c|c l IHl k v r IHr]; simpl.
  - intros _. split; lia.
  - intros (Rl & Rr & Hbh & Hc).
    destruct (IHl Rl) as (Hl & Sl). destruct (IHr Rr) as (Hr & Sr).
    rewrite <- Hbh in Hr, Sr.
    destruct c; simpl.
    + destruct (Hc eq_refl) as (Cl & Cr). rewrite Cl in Hl. rewrite Cr in Hr.
      simpl in Hl, Hr. rewrite Nat.add_0_r. split; lia.
    + rewrite Nat.add_1_r. simpl. split; lia.
Qed.

Lemma good_height r :
  good r ->
  (height r <= 2 * Nat.log2 (size r + 1))%nat /\
  (2 ^ height r <= (size r + 1) ^ 2)%nat.
Proof.
  intros (_ & R & C & _). destruct (rb_height r R) as (H & S).
  rewrite C in H. simpl in H.
  assert (B : (bh r <= Nat.log2 (size r + 1))%nat).
  { rewrite <- (Nat.log2_pow2 (bh r)) by lia. apply Nat.log2_le_mono. exact S. }
  split; [lia|].
  apply Nat.le_trans with (2 ^ (2 * bh r))%nat.
  - apply Nat.pow_le_mono_r; lia.
  - rewrite Nat.pow_mul_r. replace (2 ^ 2)%nat with 4%nat by reflexivity.
    replace 4%nat with (2 ^ 2)%nat by reflexivity.
    rewrite <- Nat.pow_mul_r, Nat.mul_comm, Nat.pow_mul_r.
    apply Nat.pow_le_mono_l. exact S.
Qed.

(** ** traverse *)

Lemma feed_app {A} (cb : node -> Z -> A -> A) a xs ys :
  feed cb a (xs ++ ys) = feed cb (feed cb a xs) ys.
Proof. apply fold_left_app. Qed.

Lemma call_if_feed {A} (cb : node -> Z -> A -> A) o o' n d a :
  call_if A cb o o' n d a =
  feed cb a (if order_eqb o o' then [(n, d)] else []).
Proof. unfold call_if. destruct (order_eqb o o'); reflexivity. Qed.

Lemma address_eqb_refl a : address_eqb a a = true.
Proof. induction a as [|[] a IH]; simpl; auto. Qed.

Lemma address_eqb_length a b :
  address_eqb a b = true -> List.length a = List.length b.
Proof.
  revert b. induction a as [|x a IH]; destruct b as [|y b]; simpl;
    try discriminate; auto.
  intros H. apply andb_prop in H. destruct H as (_ & H). f_equal. auto.
Qed.

Lemma address_eqb_longer a x y : address_eqb a (x :: y :: a) = false.
Proof.
  destruct (address_eqb a (x :: y :: a)) eqn:E; auto.
  apply address_eqb_length in E. simpl in E. lia.
Qed.

Lemma steps_size n : (steps n <= 3 * size n)%nat.
Proof.
  induction n as [c|c l IHl k v r IHr]; simpl; [lia|].
  destruct (is_nil l), (is_nil r); lia.
Qed.

Section TraverseFacts.
Variable A : Type.
Variable cb : node -> Z -> A -> A.
Variable o : order.

Lemma traverse_loop_step fuel st c :
  curr st = Some c ->
  traverse_loop cb o (S fuel) st =
  match traverse_body cb o st with
  | Raise e => Some (Raise e)
  | Ok st' => traverse_loop cb o fuel st'
  end.
Proof. intros H. simpl. rewrite H. reflexivity. Qed.

(** Entering a subtree from above, the loop comes back to the parent after
    [steps n] iterations, having made the calls of [visits]. *)
Lemma traverse_subtree n : forall p pv d a fuel,
  is_nil n = false ->
  match pv with
  | None => True
  | Some x => in_children (n, p) x = true
  end ->
  traverse_loop cb o (steps n + fuel) (Walk (Some (n, p)) pv d a) =
  traverse_loop cb o fuel
    (Walk (up (n, p)) (Some (n, p)) (d + 1)
       (feed cb a (visits o n (d + 1)))).
Proof.
  induction n as [c|c l IHl k v r IHr]; intros p pv d a fuel Hn Hpv;
    [discriminate|].
  cbn [steps visits]. rewrite !feed_app.
  rewrite Nat.add_succ_l.
  erewrite traverse_loop_step by reflexivity.
  unfold traverse_body. cbn [curr prev depth seen fst snd].
  assert (Hc : match pv with
               | Some pv0 => in_children (Node c l k v r, p) pv0
               | None => true
               end = true) by (destruct pv; auto).
  rewrite Hc. cbn [child bind]. clear Hc Hpv pv.
  rewrite !call_if_feed.
  assert (HbackL : forall x, in_children (Node c l k v r, p)
                     (x, Frame LEFT c k v r :: p) = false).
  { intros x. unfold in_children, is_child, address. cbn [fst snd map f_dir].
    rewrite !address_eqb_longer, !andb_false_r. reflexivity. }
  assert (HbackR : forall x, in_children (Node c l k v r, p)
                     (x, Frame RIGHT c k v l :: p) = false).
  { intros x. unfold in_children, is_child, address. cbn [fst snd map f_dir].
    rewrite !address_eqb_longer, !andb_false_r. reflexivity. }
  assert (HselfL : is_child LEFT (l, Frame LEFT c k v r :: p)
                     (Node c l k v r, p) = true).
  { unfold is_child, address. cbn [fst snd map f_dir is_nil negb].
    cbn [address_eqb]. rewrite address_eqb_refl. reflexivity. }
  assert (HselfR : is_child RIGHT (r, Frame RIGHT c k v l :: p)
                     (Node c l k v r, p) = true).
  { unfold is_child, address. cbn [fst snd map f_dir is_nil negb].
    cbn [address_eqb]. rewrite address_eqb_refl. reflexivity. }
  assert (Hother : is_child LEFT (r, Frame RIGHT c k v l :: p)
                     (Node c l k v r, p) = false).
  { unfold is_child, address. cbn [fst snd map f_dir is_nil negb].
    reflexivity. }
  (* what happens once the in-order call at this node is made *)
  assert (Hright : forall a' fuel' (st : walk A),
    (if negb (is_nil r)
     then nxt <- down RIGHT (Node c l k v r, p) ;;
          Ok (Walk (Some nxt) (Some (Node c l k v r, p)) (d + 1) a')
     else Ok (Walk (up (Node c l k v r, p)) (Some (Node c l k v r, p)) (d + 1)
                (feed cb a' (if order_eqb o POST_ORDER
                             then [(Node c l k v r, d + 1)] else []))))
    = Ok st ->
    traverse_loop cb o ((if is_nil r then 0%nat else S (steps r)) + fuel') st =
    traverse_loop cb o fuel'
      (Walk (up (Node c l k v r, p)) (Some (Node c l k v r, p)) (d + 1)
         (feed cb (feed cb a' (visits o r (d + 1 + 1)))
            (if order_eqb o POST_ORDER then [(Node c l k v r, d + 1)] else [])))).
  { intros a' fuel' st. destruct (is_nil r) eqn:Er; cbn [negb].
    - intros E. inversion E; subst st. cbn [Nat.add].
      destruct r; [|discriminate]. reflexivity.
    - cbn [down fst snd bind]. intros E. inversion E; subst st.
      rewrite Nat.add_succ_l, <- Nat.add_succ_r.
      rewrite IHr; [|assumption|].
      2:{ cbv beta iota. unfold in_children. rewrite HselfR. apply orb_true_r. }
      cbn [up fst snd fill f_dir f_color f_key f_value f_other].
      erewrite traverse_loop_step by reflexivity.
      unfold traverse_body. cbn [curr prev depth seen fst snd].
      rewrite (HbackR r), Hother, HselfR.
      rewrite call_if_feed.
      replace (d + 1 + 1 - 1) with (d + 1) by lia. reflexivity. }
  destruct (is_nil l) eqn:El; cbn [negb].
  - (* no left child *)
    destruct l; [|discriminate]. cbn [visits feed fold_left Nat.add].
    destruct (if negb (is_nil r) then _ else _) as [st|e] eqn:Est.
    + rewrite (Hright _ fuel st Est). reflexivity.
    + destruct (is_nil r); cbn in Est; discriminate.
  - (* the left subtree first *)
    cbn [down fst snd bind].
    match goal with
    | |- traverse_loop _ _ (S (steps l) + ?X + fuel) _ = _ =>
        replace (S (steps l) + X + fuel)%nat
          with (steps l + S (X + fuel))%nat by lia
    end.
    rewrite IHl; [|assumption|].
    2:{ cbv beta iota. unfold in_children. rewrite HselfL. reflexivity. }
    cbn [up fst snd fill f_dir f_color f_key f_value f_other].
    erewrite traverse_loop_step by reflexivity.
    unfold traverse_body. cbn [curr prev depth seen fst snd].
    rewrite (HbackL l), HselfL. cbn [child bind].
    replace (d + 1 + 1 - 1) with (d + 1) by lia.
    rewrite !call_if_feed.
    destruct (if negb (is_nil r) then _ else _) as [st|e] eqn:Est.
    + rewrite (Hright _ fuel st Est). reflexivity.
    + destruct (is_nil r); cbn in Est; discriminate.
Qed.
End TraverseFacts.

Lemma traverse_ok A (cb : node -> Z -> A -> A) o T extra a :
  valid T ->
  traverse cb o T (3 * tree_size T + extra) a =
  Some (Ok (feed cb a (tree_visits o T))).
Proof.
  intros V. unfold traverse, tree_visits, tree_size.
  destruct (root T) as [r|] eqn:Er; [|reflexivity].
  apply (valid_good T r Er) in V. destruct V as (N & _).
  pose proof (steps_size r) as Hs.
  replace (3 * size r + extra)%nat
    with (steps r + (3 * size r - steps r + extra))%nat by lia.
  rewrite traverse_subtree; [|exact N|exact Logic.I].
  destruct (3 * size r - steps r + extra)%nat; reflexivity.
Qed.

Lemma visits_in_order_keys n d :
  map (fun c => key_of (fst c)) (visits IN_ORDER n d) = map Some (keys n).
Proof.
  revert d. induction n as [c|c l IHl k v r IHr]; intros d; [reflexivity|].
  cbn [visits order_eqb]. rewrite keys_node. simpl.
  rewrite !map_app. simpl. rewrite app_nil_r, IHl, IHr. reflexivity.
Qed.

Lemma visits_length o n d : List.length (visits o n d) = size n.
Proof.
  revert d. induction n as [c|c l IHl k v r IHr]; intros d; [reflexivity|].
  cbn [visits size]. rewrite !length_app, IHl, IHr.
  destruct o; simpl; lia.
Qed.

(** A place in a list with distinct keys is found in one way only. *)
Lemma split_unique {A} (f : A -> Z) L x R L' y R' :
  StronglySorted Z.lt (map f (L ++ x :: R)) ->
  L ++ x :: R = L' ++ y :: R' -> f x = f y ->
  L = L' /\ x = y /\ R = R'.
Proof.
  revert L'. induction L as [|a L IH]; intros [|a' L'] S E F; simpl in *.
  - inversion E. auto.
  - inversion E; subst. exfalso.
    inversion S as [|? ? _ Hf]; subst. rewrite Forall_forall in Hf.
    assert (f a' < f y); [|lia].
    apply Hf. rewrite map_app. apply in_or_app. right. simpl. auto.
  - inversion E; subst. exfalso.
    inversion S as [|? ? _ Hf]; subst. rewrite Forall_forall in Hf.
    assert (f y < f x); [|lia].
    apply Hf. rewrite map_app. apply in_or_app. right. simpl. auto.
  - inversion E; subst. inversion S; subst.
    destruct (IH L') as (-> & -> & ->); auto.
Qed.

(** [find] hands back the node that holds the key, with the payload the
    in-order contents list for it. *)
Lemma find_value T key k L x R :
  isinstance_int key = Some k -> valid T ->
  tree_elements T = L ++ (k, x) :: R ->
  exists n p, find key None T = Ok (n, p) /\
              key_of n = Some k /\ value_of n = x.
Proof.
  intros Hk V E. unfold tree_elements in E.
  destruct (root T) as [r|] eqn:Er; [|destruct L; discriminate].
  pose proof V as V'.
  apply (valid_good T r Er) in V. destruct V as (N & Rr & C & Srt).
  assert (H5 : inv5 r) by (apply inv5_sorted; auto).
  assert (Hin : In k (keys r)).
  { unfold keys. rewrite E, map_app. apply in_or_app. right. simpl. auto. }
  destruct (find_present T key k r Hk Er H5 Hin)
    as (c & l & v & r' & p & _ & _ & Hf & Hz).
  exists (Node c l k v r'), p. split; [exact Hf|]. split; [reflexivity|].
  simpl.
  assert (E' : elements r =
               (lefts p ++ elements l) ++ (k, v) :: elements r' ++ rights p).
  { rewrite <- Hz, elements_zip. simpl.
    repeat (rewrite <- ?app_assoc; simpl). reflexivity. }
  unfold keys in Srt. rewrite E' in Srt.
  rewrite E in E'. symmetry in E'.
  destruct (split_unique fst _ _ _ _ _ _ Srt E' eq_refl) as (_ & Hx & _).
  inversion Hx. reflexivity.
Qed.

Lemma insert_keys T k value T' L R :
  tree_elements T = L ++ R ->
  tree_elements T' = L ++ (k, payload value) :: R ->
  forall x, In x (tree_keys T') <-> x = k \/ In x (tree_keys T).
Proof.
  intros E E' x.
  assert (K : tree_keys T = map fst (tree_elements T))
    by (unfold tree_keys, tree_elements; destruct (root T); reflexivity).
  assert (K' : tree_keys T' = map fst (tree_elements T'))
    by (unfold tree_keys, tree_elements; destruct (root T'); reflexivity).
  rewrite K, K', E, E', !map_app. simpl. rewrite !in_app_iff. simpl.
  intuition.
Qed.

Lemma tree_size_elements T : tree_size T = List.length (tree_elements T).
Proof.
  unfold tree_size, tree_elements. destruct (root T); [|reflexivity].
  apply size_elements.
Qed.

(** Inserting distinct keys that are not yet in a valid tree: every insert
    returns, and the tree grows by one node each time. *)
Lemma run_inserts kvs : forall T,
  valid T -> NoDup (map fst kvs) ->
  (forall k, In k (map fst kvs) -> ~ In k (tree_keys T)) ->
  exists T', run (map insert_op kvs) T = Some T' /\ valid T' /\
             tree_size T' = (tree_size T + List.length kvs)%nat /\
             (forall x, In x (tree_keys T') <->
                        In x (map fst kvs) \/ In x (tree_keys T)).
Proof.
  induction kvs as [|[k v] kvs IH]; intros T V ND Hfresh.
  - exists T. simpl. split; [auto|]. split; [auto|]. split; [lia|]. tauto.
  - simpl in ND. inversion ND as [|? ? Hk ND']; subst.
    destruct (insert_ok T (PyInt k) k v eq_refl V) as
      (T1 & L & R & Hi & V1 & _ & _ & _ & E & E1).
    { apply Hfresh. simpl. auto. }
    pose proof (insert_keys T k v T1 L R E E1) as K1.
    destruct (IH T1 V1 ND') as (T' & Hr & V' & S' & K').
    { intros x Hx Hin. apply K1 in Hin. destruct Hin as [->|Hin].
      - contradiction.
      - apply (Hfresh x); simpl; auto. }
    exists T'. cbn [map run insert_op fst snd apply_op].
    rewrite Hi. cbn [after]. split; [exact Hr|]. split; [auto|]. split.
    + rewrite S', !tree_size_elements, E, E1, !length_app. simpl. lia.
    + intros x. rewrite K', K1. simpl. intuition congruence.
Qed.

(** [find] succeeds exactly on the keys of the tree. *)
Lemma find_succeeds_iff T key k :
  isinstance_int key = Some k -> valid T ->
  (exists n p, find key None T = Ok (n, p)) <-> In k (tree_keys T).
Proof.
  intros Hk V. split.
  - intros (n & p & Hf). destruct (in_keys_dec k T) as [Hin|Hnin]; [exact Hin|].
    rewrite (find_absent' T key k None Hk V Hnin eq_refl) in Hf. discriminate.
  - intros Hin. unfold tree_keys in Hin.
    destruct (root T) as [r|] eqn:Er; [|contradiction].
    apply (valid_good T r Er) in V. destruct V as (_ & _ & _ & Srt).
    apply inv5_sorted in Srt.
    destruct (find_present T key k r Hk Er Srt Hin)
      as (c & l & v & r' & p & _ & _ & Hf & _).
    eauto.
Qed.

(** ** The claims *)

Lemma tree_10_20_30_valid : valid tree_10_20_30.
Proof.
  unfold valid, tree_10_20_30. cbn.
  repeat split; try discriminate; try reflexivity; auto.
  - intros a b Ha Hb. intuition congruence.
  - intros a b Ha Hb. intuition congruence.
  - intros a b Ha Hb. intuition congruence.
  - repeat constructor.
  - repeat constructor.
Qed.

(** The example of the specification: inserting 10, 20, 30 makes 20 the
    BLACK root over the RED nodes 10 and 30, and deleting 20 leaves the two
    keys 10 and 30 in a tree that passes the debug check. *)
Example insert_10_20_30 :
  run [Insert (PyInt 10) PyNone; Insert (PyInt 20) PyNone;
       Insert (PyInt 30) PyNone] (Tree_init false) = Some tree_10_20_30.
Proof. reflexivity. Qed.

Example delete_20 :
  exists T,
    run [Insert (PyInt 10) PyNone; Insert (PyInt 20) PyNone;
         Insert (PyInt 30) PyNone; Delete (PyInt 20)] (Tree_init true) = Some T /\
    tree_keys T = [10; 30] /\
    fst (validate None (set_debug T [] (2, 0))) = Ok tt.
Proof. eexists. split; [reflexivity|]. split; reflexivity. Qed.

(** C1: after every sequence of public mutations (inserts and deletes, and
    updates, with any arguments, whether they return or are refused), each
    call is completed and the resulting tree satisfies invariants 1 to 5:
    nil terminators are BLACK, no RED node has a RED child, all paths from a
    node down to a terminator hold the same number of BLACK nodes, the root
    is BLACK, and keys are in strict search-tree order. *)
Theorem C1_mutations_keep_invariants (ops : list op) (dbg : bool) :
  exists T,
    run ops (Tree_init dbg) = Some T /\
    match root T with
    | None => True
    | Some r => inv1 r /\ inv2 r /\ inv3 r /\ inv4 r /\ inv5 r
    end.
Proof.
  destruct (run_valid ops (Tree_init dbg) (valid_init dbg)) as (T & H & V).
  exists T. split; [exact H|]. unfold valid in V.
  destruct (root T); [tauto|exact Logic.I].
Qed.

(** C2: on every tree built by a sequence of inserts and deletes, an
    IN_ORDER traverse ends (within three iterations per node), calls the
    callback on each real node once, and the keys it is given are the keys of
    the tree in strictly ascending order. *)
Theorem C2_in_order_traverse_ascending (ops : list op) (dbg : bool) :
  exists T calls,
    run ops (Tree_init dbg) = Some T /\
    (forall (A : Type) (callback : node -> Z -> A -> A) (a : A) (extra : nat),
        traverse callback IN_ORDER T (3 * tree_size T + extra) a =
        Some (Ok (feed callback a calls))) /\
    List.length calls = tree_size T /\
    map (fun c => key_of (fst c)) calls = map Some (tree_keys T) /\
    StronglySorted Z.lt (tree_keys T).
Proof.
  destruct (run_valid ops (Tree_init dbg) (valid_init dbg)) as (T & H & V).
  exists T, (tree_visits IN_ORDER T). split; [exact H|]. split.
  { intros A cb a extra. apply traverse_ok. exact V. }
  unfold tree_visits, tree_size, tree_keys.
  destruct (root T) as [r|] eqn:Er.
  - apply (valid_good T r Er) in V. destruct V as (_ & _ & _ & S).
    split; [apply visits_length|]. split; [apply visits_in_order_keys|exact S].
  - repeat split; constructor.
Qed.

(** C3: inserting N distinct integer keys into an empty tree, every insert
    returns, the tree has N nodes, and its height is at most
    2 * log2 (N + 1) (with the integer logarithm, and in the equivalent form
    2 ^ height <= (N + 1) ^ 2). *)
Theorem C3_height_bound (kvs : list (Z * pyval)) (dbg : bool) :
  NoDup (map fst kvs) ->
  exists T,
    run (map insert_op kvs) (Tree_init dbg) = Some T /\
    tree_size T = List.length kvs /\
    (tree_height T <= 2 * Nat.log2 (List.length kvs + 1))%nat /\
    (2 ^ tree_height T <= (List.length kvs + 1) ^ 2)%nat.
Proof.
  intros ND.
  destruct (run_inserts kvs (Tree_init dbg) (valid_init dbg) ND)
    as (T & H & V & S & _).
  { intros k _ []. }
  exists T. split; [exact H|]. simpl in S. split; [exact S|].
  rewrite <- S. unfold tree_height, tree_size.
  destruct (root T) as [r|] eqn:Er.
  - apply (valid_good T r Er) in V. apply good_height. exact V.
  - simpl. split; lia.
Qed.

Lemma C3_height_bound_witness :
  NoDup (map fst [(5, PyNone); (1, PyInt 7); (9, PyNone); (3, PyNone)]) /\
  exists T,
    run (map insert_op [(5, PyNone); (1, PyInt 7); (9, PyNone); (3, PyNone)])
      (Tree_init true) = Some T /\
    tree_size T = 4%nat /\
    (tree_height T <= 2 * Nat.log2 5)%nat /\
    (2 ^ tree_height T <= 5 ^ 2)%nat.
Proof.
  assert (ND : NoDup (map fst [(5, PyNone); (1, PyInt 7); (9, PyNone);
                               (3, PyNone)])).
  { simpl. repeat constructor; simpl; intuition lia. }
  split; [exact ND|].
  exact (C3_height_bound [(5, PyNone); (1, PyInt 7); (9, PyNone); (3, PyNone)]
           true ND).
Defined.

(** C4: on a valid tree, inserting an absent key and deleting it at once
    gives back a tree with the same keys that is valid (invariants 1 to 5),
    hence balanced. *)
Theorem C4_insert_then_delete (T : Tree) (key : pyval) (k : Z) (value : pyval) :
  valid T -> isinstance_int key = Some k -> ~ In k (tree_keys T) ->
  exists T1 T2,
    insert key value T = Ok T1 /\ delete key T1 = Ok T2 /\
    tree_keys T2 = tree_keys T /\ valid T2 /\
    (tree_height T2 <= 2 * Nat.log2 (tree_size T2 + 1))%nat.
Proof.
  intros V Hk Hnin.
  destruct (insert_ok T key k value Hk V Hnin)
    as (T1 & L & R & Hi & V1 & _ & _ & _ & E & E1).
  assert (K : forall U, tree_keys U = map fst (tree_elements U)).
  { intros U. unfold tree_keys, tree_elements. destruct (root U); reflexivity. }
  assert (Hin : In k (tree_keys T1)).
  { rewrite K, E1, map_app. apply in_or_app. right. simpl. auto. }
  destruct (delete_ok T1 key k Hk V1 Hin)
    as (T2 & L' & R' & Hd & V2 & _ & _ & _ & E1' & E2).
  exists T1, T2. split; [exact Hi|]. split; [exact Hd|].
  assert (S1 : StronglySorted Z.lt (tree_keys T1)).
  { unfold tree_keys. destruct (root T1) as [r1|] eqn:Er1; [|constructor].
    apply (valid_good T1 r1 Er1) in V1.
    destruct V1 as (_ & _ & _ & S1). exact S1. }
  rewrite K, E1, map_app in E1'. simpl in E1'.
  rewrite K, E1, map_app in S1. simpl in S1.
  rewrite <- (map_id (map fst L ++ k :: map fst R)) in S1.
  destruct (split_unique (fun x => x) _ _ _ _ _ _ S1 E1' eq_refl)
    as (HL & _ & HR).
  split.
  { rewrite E2, <- HL, <- HR, K, E, map_app. reflexivity. }
  split; [exact V2|].
  unfold tree_height, tree_size. destruct (root T2) as [r2|] eqn:Er2.
  - apply (valid_good T2 r2 Er2) in V2. apply good_height. exact V2.
  - simpl. lia.
Qed.

Lemma C4_insert_then_delete_witness :
  valid tree_10_20_30 /\ isinstance_int (PyInt 25) = Some 25 /\
  ~ In 25 (tree_keys tree_10_20_30) /\
  exists T1 T2,
    insert (PyInt 25) (PyStr "x") tree_10_20_30 = Ok T1 /\
    delete (PyInt 25) T1 = Ok T2 /\
    tree_keys T2 = tree_keys tree_10_20_30 /\ valid T2 /\
    (tree_height T2 <= 2 * Nat.log2 (tree_size T2 + 1))%nat.
Proof.
  assert (H : ~ In 25 (tree_keys tree_10_20_30)).
  { simpl. intuition lia. }
  split; [exact tree_10_20_30_valid|]. split; [reflexivity|].
  split; [exact H|].
  exact (C4_insert_then_delete tree_10_20_30 (PyInt 25) 25 (PyStr "x")
           tree_10_20_30_valid eq_refl H).
Defined.

(** C5: on a valid tree, inserting a key that is present raises the
    [LookupError] of [find] before anything is written: the caller is left
    with the same tree, and an in-order traverse shows the same keys, colors,
    payloads and depths as before. *)
Theorem C5_duplicate_insert_rejected
  (T : Tree) (key : pyval) (k : Z) (value : pyval) :
  valid T -> isinstance_int key = Some k -> In k (tree_keys T) ->
  insert key value T = Raise LookupError /\
  after T (insert key value T) = Some T /\
  (forall T' fuel,
      after T (insert key value T) = Some T' ->
      traverse view_cb IN_ORDER T' fuel [] = traverse view_cb IN_ORDER T fuel []).
Proof.
  intros V Hk Hin.
  pose proof (insert_duplicate T key k value Hk V Hin) as H.
  rewrite H. split; [reflexivity|]. split; [reflexivity|].
  intros T' fuel E. simpl in E. inversion E. reflexivity.
Qed.

Lemma C5_duplicate_insert_rejected_witness :
  valid tree_10_20_30 /\ isinstance_int (PyInt 20) = Some 20 /\
  In 20 (tree_keys tree_10_20_30) /\
  insert (PyInt 20) (PyStr "again") tree_10_20_30 = Raise LookupError /\
  after tree_10_20_30 (insert (PyInt 20) (PyStr "again") tree_10_20_30) =
  Some tree_10_20_30 /\
  (forall T' fuel,
      after tree_10_20_30 (insert (PyInt 20) (PyStr "again") tree_10_20_30) =
      Some T' ->
      traverse view_cb IN_ORDER T' fuel [] =
      traverse view_cb IN_ORDER tree_10_20_30 fuel []).
Proof.
  assert (H : In 20 (tree_keys tree_10_20_30)) by (simpl; auto).
  split; [exact tree_10_20_30_valid|]. split; [reflexivity|].
  split; [exact H|].
  exact (C5_duplicate_insert_rejected tree_10_20_30 (PyInt 20) 20
           (PyStr "again") tree_10_20_30_valid eq_refl H).
Defined.

(** C6: what [delete] does at a node with two real children.  Deleting 10
    from the tree holding 10 -> 'a', 5 -> 'b', 20 -> 'c' takes out the
    successor node (20) and writes its key into the node that held 10; the
    payload of that node stays 'a', and the successor's payload 'c' is gone
    with its node. *)
Theorem C6_delete_copies_key_not_payload :
  run [Insert (PyInt 10) (PyStr "a"); Insert (PyInt 5) (PyStr "b");
       Insert (PyInt 20) (PyStr "c")] (Tree_init false) = Some tree_abc /\
  delete (PyInt 10) tree_abc =
  Ok (mkTree (Some (Node BLACK (leaf RED 5 (Some (PyStr "b"))) 20
                      (Some (PyStr "a")) (Nil BLACK)))
        false [] (0, 0)) /\
  (forall T', delete (PyInt 10) tree_abc = Ok T' ->
              exists n p, find (PyInt 20) None T' = Ok (n, p) /\
                          value_of n = Some (PyStr "a") /\
                          value_of n <> Some (PyStr "c")).
Proof.
  split; [reflexivity|]. split; [reflexivity|].
  intros T' H. vm_compute in H. inversion H; subst T'.
  eexists. eexists. split; [reflexivity|]. split; [reflexivity|].
  simpl. discriminate.
Qed.

(** C7: what [boundary] returns.  The walk [while curr:] does not stop at
    the outermost real node: a nil terminator is an object and so is true,
    and the walk ends on the [None] in the terminator's slot.  The result is
    the terminator, a [Node] object without a key, for every tree with a
    root. *)
Theorem C7_boundary_returns_terminator :
  (forall d n, is_nil (boundary_walk d n) = true /\
               key_of (boundary_walk d n) = None) /\
  boundary LOWEST_KEY tree_10_20_30 = Ok (Some (Nil BLACK)) /\
  boundary HIGHEST_KEY tree_10_20_30 = Ok (Some (Nil BLACK)) /\
  boundary LOWEST_KEY (Tree_init false) = Ok None.
Proof.
  split.
  - intros d n. induction n as [c|c l IHl k v r IHr]; simpl; [auto|].
    destruct d; auto.
  - repeat split; reflexivity.
Qed.

(** C8: [find] with an integer key on an empty tree raises [LookupError],
    the exception also raised for a key that is absent from a tree with
    nodes, and not the [TypeError] raised for a key that is not an
    integer. *)
Theorem C8_find_on_empty_tree (k : Z) (a : option action) (dbg : bool) :
  find (PyInt k) a (Tree_init dbg) = Raise LookupError /\
  find (PyInt 5) None tree_10_20_30 = Raise LookupError /\
  find (PyStr "x") a (Tree_init dbg) = Raise TypeError /\
  insert (PyStr "x") PyNone (Tree_init dbg) = Raise TypeError /\
  LookupError <> TypeError.
Proof.
  repeat split; try reflexivity. discriminate.
Qed.

(** C9: what [validate] detects.  The tests on the right child sit in an
    [elif] of the test that the left child is real, so a RED right child of a
    RED node, or a right child out of order, passes unnoticed whenever the
    left child is real, while the same defect on the left side is
    reported.  The two trees that pass are what seven, and three, checked
    inserts followed by writes to [color], and to [key], leave. *)
Theorem C9_validate_misses_right_child (vs : list Z) (act : Z) :
  (T <- fold_left insert_validate [10; 5; 15; 3; 7; 6; 8] (Ok (Tree_init true)) ;;
   T <- write_color 7 RED T ;; T <- write_color 6 BLACK T ;;
   write_color 8 BLACK T) =
  Ok (debug_tree red_red_right 7 [15; 8; 6; 7; 3; 5; 10] 7) /\
  fst (validate None (debug_tree red_red_right 7 vs act)) = Ok tt /\
  ~ inv2 red_red_right /\
  fst (validate None (debug_tree red_red_left 7 vs act)) = Raise ValueError /\
  (T <- fold_left insert_validate [10; 5; 15] (Ok (Tree_init true)) ;;
   write_key 15 3 T) =
  Ok (debug_tree order_right 3 [15; 5; 10] 3) /\
  fst (validate None (debug_tree order_right 3 vs act)) = Ok tt /\
  ~ inv5 order_right /\
  fst (validate None (debug_tree order_left 3 vs act)) = Raise KeyError.
Proof.
  split; [reflexivity|]. split; [reflexivity|]. split.
  { simpl. intros (_ & (H & _) & _). destruct (H eq_refl). discriminate. }
  split; [reflexivity|]. split; [reflexivity|]. split; [reflexivity|].
  split; [|reflexivity].
  simpl. intros (_ & H & _). inversion H; subst. lia.
Qed.

(** C10: [insert] gives the new node a payload only when the payload is
    true; after an insert with a false payload the node has no [value]
    attribute, and an [update] with any value, true or false, sets it. *)
Theorem C10_payload_only_when_truthy
  (T : Tree) (key : pyval) (k : Z) (value : pyval) :
  valid T -> isinstance_int key = Some k -> ~ In k (tree_keys T) ->
  value_of (Node_init k value) = (if truthy value then Some value else None) /\
  exists T' n p,
    insert key value T = Ok T' /\
    find key None T' = Ok (n, p) /\ key_of n = Some k /\
    value_of n = (if truthy value then Some value else None) /\
    (truthy value = false -> value_of n = None) /\
    forall w, exists T'' n' p',
      update key w T' = Ok T'' /\
      find key None T'' = Ok (n', p') /\ key_of n' = Some k /\
      value_of n' = Some w.
Proof.
  intros V Hk Hnin. split; [reflexivity|].
  destruct (insert_ok T key k value Hk V Hnin)
    as (T' & L & R & Hi & V' & _ & _ & _ & E & E').
  destruct (find_value T' key k L _ R Hk V' E') as (n & p & Hf & Kn & Vn).
  exists T', n, p. split; [exact Hi|]. split; [exact Hf|]. split; [exact Kn|].
  split; [exact Vn|]. split.
  { intros Ht. rewrite Vn. unfold payload. now rewrite Ht. }
  intros w.
  assert (Hin : In k (tree_keys T')).
  { unfold tree_keys, tree_elements in *. destruct (root T');
      [|destruct L; discriminate].
    unfold keys. rewrite E', map_app. apply in_or_app. right. simpl. auto. }
  destruct (update_ok T' key k w Hk V' Hin)
    as (T'' & L2 & R2 & old & Hu & V'' & _ & _ & _ & _ & E2).
  destruct (find_value T'' key k L2 _ R2 Hk V'' E2) as (n' & p' & Hf' & Kn' & Vn').
  exists T'', n', p'. auto.
Qed.

Lemma C10_payload_only_when_truthy_witness :
  valid tree_10_20_30 /\ isinstance_int (PyInt 25) = Some 25 /\
  ~ In 25 (tree_keys tree_10_20_30) /\
  value_of (Node_init 25 (PyInt 0)) =
  (if truthy (PyInt 0) then Some (PyInt 0) else None) /\
  exists T' n p,
    insert (PyInt 25) (PyInt 0) tree_10_20_30 = Ok T' /\
    find (PyInt 25) None T' = Ok (n, p) /\ key_of n = Some 25 /\
    value_of n = (if truthy (PyInt 0) then Some (PyInt 0) else None) /\
    (truthy (PyInt 0) = false -> value_of n = None) /\
    forall w, exists T'' n' p',
      update (PyInt 25) w T' = Ok T'' /\
      find (PyInt 25) None T'' = Ok (n', p') /\ key_of n' = Some 25 /\
      value_of n' = Some w.
Proof.
  assert (H : ~ In 25 (tree_keys tree_10_20_30)).
  { simpl. intuition lia. }
  split; [exact tree_10_20_30_valid|]. split; [reflexivity|].
  split; [exact H|].
  exact (C10_payload_only_when_truthy tree_10_20_30 (PyInt 25) 25 (PyInt 0)
           tree_10_20_30_valid eq_refl H).
Defined.

(** ** Further properties of the operations *)

Lemma tree_keys_elements T : tree_keys T = map fst (tree_elements T).
Proof. unfold tree_keys, tree_elements. destruct (root T); reflexivity. Qed.

Lemma valid_sorted T : valid T -> StronglySorted Z.lt (tree_keys T).
Proof.
  intros V. unfold tree_keys. destruct (root T) as [r|] eqn:Er; [|constructor].
  apply (valid_good T r Er) in V. destruct V as (_ & _ & _ & S). exact S.
Qed.

Lemma tree_size_keys T : tree_size T = List.length (tree_keys T).
Proof. rewrite tree_size_elements, tree_keys_elements, length_map. reflexivity. Qed.

Lemma sorted_not_in L k R :
  StronglySorted Z.lt (L ++ k :: R) -> ~ In k (L ++ R).
Proof.
  intros S Hin. apply sorted_app in S. destruct S as (_ & SR & H).
  apply in_app_or in Hin. destruct Hin as [Hin|Hin].
  - specialize (H k k Hin (or_introl eq_refl)). lia.
  - inversion SR as [|? ? _ F]; subst. rewrite Forall_forall in F.
    specialize (F k Hin). lia.
Qed.

(** Two strictly ascending lists with the same members are the same list. *)
Lemma sorted_ext (l1 l2 : list Z) :
  StronglySorted Z.lt l1 -> StronglySorted Z.lt l2 ->
  (forall x, In x l1 <-> In x l2) -> l1 = l2.
Proof.
  intros S1. revert l2. induction S1 as [|a l1 S1 IH F1]; intros l2 S2 H.
  - destruct l2 as [|b l2]; [reflexivity|].
    destruct (proj2 (H b) (or_introl eq_refl)).
  - destruct S2 as [|b l2 S2 F2].
    { destruct (proj1 (H a) (or_introl eq_refl)). }
    rewrite Forall_forall in F1, F2.
    assert (a = b).
    { destruct (proj1 (H a) (or_introl eq_refl)) as [E|Hin]; [auto|].
      destruct (proj2 (H b) (or_introl eq_refl)) as [E|Hin']; [auto|].
      specialize (F1 _ Hin'). specialize (F2 _ Hin). lia. }
    subst b. f_equal. apply IH; [exact S2|].
    intros x. split; intros Hx.
    + destruct (proj1 (H x) (or_intror Hx)) as [E|Hin]; [|exact Hin].
      subst x. specialize (F1 _ Hx). lia.
    + destruct (proj2 (H x) (or_intror Hx)) as [E|Hin]; [|exact Hin].
      subst x. specialize (F2 _ Hx). lia.
Qed.

Lemma find_present_any T key k a :
  valid T -> isinstance_int key = Some k -> is_insert a = false ->
  In k (tree_keys T) ->
  exists c l v r p,
    find key a T = Ok (Node c l k v r, p) /\
    root T = Some (zip (Node c l k v r) p).
Proof.
  intros V Hk Ha Hin. unfold tree_keys in Hin.
  destruct (root T) as [r0|] eqn:Er; [|contradiction].
  apply (valid_good T r0 Er) in V. destruct V as (_ & _ & _ & Srt).
  apply inv5_sorted in Srt.
  destruct (find_present T key k r0 Hk Er Srt Hin)
    as (c & l & v & r & p & Hd & Hu & Hn & Hz).
  exists c, l, v, r, p. rewrite Hz. split; [|reflexivity].
  destruct a as [[| |]|]; try discriminate; assumption.
Qed.

(** X1: what [find] returns when it is not called for an insert.  On a valid
    tree a key that is not an integer raises [TypeError]; an integer key in
    the tree gives the node that holds it, in its place in the tree; an
    integer key that is not in the tree raises [LookupError]. *)
Theorem X1_find_outcome (T : Tree) (key : pyval) (a : option action) :
  valid T -> is_insert a = false ->
  match isinstance_int key with
  | None => find key a T = Raise TypeError
  | Some k =>
      (In k (tree_keys T) ->
       exists n p,
         find key a T = Ok (n, p) /\ key_of n = Some k /\
         root T = Some (zip n p) /\
         In (k, value_of n) (tree_elements T)) /\
      (~ In k (tree_keys T) -> find key a T = Raise LookupError)
  end.
Proof.
  intros V Ha. destruct (isinstance_int key) as [k|] eqn:Hk.
  - split.
    + intros Hin.
      destruct (find_present_any T key k a V Hk Ha Hin)
        as (c & l & v & r & p & Hf & Hz).
      exists (Node c l k v r), p. split; [exact Hf|]. split; [reflexivity|].
      split; [exact Hz|]. unfold tree_elements. rewrite Hz, elements_zip.
      apply in_or_app. right. apply in_or_app. left. simpl.
      apply in_or_app. right. left. reflexivity.
    + intros Hnin. apply (find_absent' T key k a Hk V Hnin Ha).
  - apply find_not_int. exact Hk.
Qed.

Lemma tree_abc_valid : valid tree_abc.
Proof.
  unfold valid, tree_abc. cbn.
  repeat split; try discriminate; try reflexivity; auto;
    try (intros a b Ha Hb; intuition congruence); repeat constructor.
Qed.

Lemma X1_find_outcome_witness :
  valid tree_abc /\ is_insert (Some TREE_UPDATE) = false /\
  match isinstance_int (PyInt 20) with
  | None => find (PyInt 20) (Some TREE_UPDATE) tree_abc = Raise TypeError
  | Some k =>
      (In k (tree_keys tree_abc) ->
       exists n p,
         find (PyInt 20) (Some TREE_UPDATE) tree_abc = Ok (n, p) /\
         key_of n = Some k /\
         root tree_abc = Some (zip n p) /\
         In (k, value_of n) (tree_elements tree_abc)) /\
      (~ In k (tree_keys tree_abc) ->
       find (PyInt 20) (Some TREE_UPDATE) tree_abc = Raise LookupError)
  end.
Proof.
  split; [exact tree_abc_valid|]. split; [reflexivity|].
  exact (X1_find_outcome tree_abc (PyInt 20) (Some TREE_UPDATE)
           tree_abc_valid eq_refl).
Defined.

(** X2: where [find] sends an insert.  On a valid tree with a root, for an
    integer key that is not in the tree, [find(key, TREE_INSERT)] returns a
    nil terminator that has a parent; a new node put in the place of that
    terminator keeps the keys in strictly ascending order, and adds the new
    key to the keys of the tree and nothing else. *)
Theorem X2_find_insert_position
  (T : Tree) (key : pyval) (k : Z) (value : pyval) (r : node) :
  valid T -> isinstance_int key = Some k -> root T = Some r ->
  ~ In k (tree_keys T) ->
  exists c p,
    find key (Some TREE_INSERT) T = Ok (Nil c, p) /\ p <> [] /\
    zip (Nil c) p = r /\
    StronglySorted Z.lt (keys (zip (Node_init k value) p)) /\
    (forall x, In x (keys (zip (Node_init k value) p)) <->
               x = k \/ In x (tree_keys T)).
Proof.
  intros V Hk Er Hnin. unfold tree_keys in *. rewrite Er in *.
  apply (valid_good T r Er) in V. destruct V as (N & _ & _ & Srt).
  assert (H5 : inv5 r) by (apply inv5_sorted; exact Srt).
  destruct (descend_ok k r [] H5) as (n' & q & D & Hz & HL & HR & _).
  rewrite app_nil_r in D.
  destruct (descend_found k r [] n' q H5 D) as (_ & Hnil).
  destruct (Hnil Hnin) as (c & ->).
  exists c, q. unfold find. rewrite Hk, Er, D. cbn.
  split; [reflexivity|]. split.
  { intros ->. simpl in Hz. subst r. discriminate. }
  split; [exact Hz|].
  assert (K : keys r = map fst (lefts q) ++ map fst (rights q)).
  { rewrite <- Hz, keys_zip. reflexivity. }
  assert (K' : keys (zip (Node_init k value) q) =
               map fst (lefts q) ++ k :: map fst (rights q)).
  { rewrite keys_zip. reflexivity. }
  rewrite K'. split.
  - apply sorted_insert; [rewrite <- K; exact Srt|exact HL|exact HR].
  - intros x. rewrite K, !in_app_iff. simpl. intuition congruence.
Qed.

Lemma X2_find_insert_position_witness :
  valid tree_10_20_30 /\ isinstance_int (PyInt 25) = Some 25 /\
  root tree_10_20_30 =
  Some (Node BLACK (leaf RED 10 None) 20 None (leaf RED 30 None)) /\
  ~ In 25 (tree_keys tree_10_20_30) /\
  exists c p,
    find (PyInt 25) (Some TREE_INSERT) tree_10_20_30 = Ok (Nil c, p) /\
    p <> [] /\
    zip (Nil c) p = Node BLACK (leaf RED 10 None) 20 None (leaf RED 30 None) /\
    StronglySorted Z.lt (keys (zip (Node_init 25 PyNone) p)) /\
    (forall x, In x (keys (zip (Node_init 25 PyNone) p)) <->
               x = 25 \/ In x (tree_keys tree_10_20_30)).
Proof.
  assert (H : ~ In 25 (tree_keys tree_10_20_30)).
  { simpl. intuition lia. }
  split; [exact tree_10_20_30_valid|]. split; [reflexivity|].
  split; [reflexivity|]. split; [exact H|].
  exact (X2_find_insert_position tree_10_20_30 (PyInt 25) 25 PyNone _
           tree_10_20_30_valid eq_refl eq_refl H).
Defined.

(** X3: the three outcomes of [insert] on a valid tree.  A key that is not
    an integer raises [TypeError]; a key that is in the tree raises
    [LookupError]; any other key is inserted: the call returns a valid tree
    that has one node more, whose in-order contents are those of the old tree
    with the new key and its payload put in at the key's place, and the
    bookkeeping of the debug check is not touched. *)
Theorem X3_insert_outcome (T : Tree) (key : pyval) (value : pyval) :
  valid T ->
  match isinstance_int key with
  | None => insert key value T = Raise TypeError
  | Some k =>
      (In k (tree_keys T) -> insert key value T = Raise LookupError) /\
      (~ In k (tree_keys T) ->
       exists T' L R,
         insert key value T = Ok T' /\ valid T' /\
         tree_elements T = L ++ R /\
         tree_elements T' =
         L ++ (k, if truthy value then Some value else None) :: R /\
         tree_size T' = S (tree_size T) /\
         debug T' = debug T /\ vals T' = vals T /\
         max_nodes T' = max_nodes T)
  end.
Proof.
  intros V. destruct (isinstance_int key) as [k|] eqn:Hk.
  - split.
    + intros Hin. apply (insert_duplicate T key k value Hk V Hin).
    + intros Hnin.
      destruct (insert_ok T key k value Hk V Hnin)
        as (T' & L & R & Hi & V' & D & Vs & M & E & E').
      exists T', L, R. split; [exact Hi|]. split; [exact V'|].
      split; [exact E|]. split; [exact E'|]. split.
      { rewrite !tree_size_elements, E, E', !length_app. simpl. lia. }
      auto.
  - unfold insert. rewrite Hk. reflexivity.
Qed.

Lemma X3_insert_outcome_witness :
  valid tree_abc /\
  match isinstance_int (PyInt 7) with
  | None => insert (PyInt 7) (PyStr "d") tree_abc = Raise TypeError
  | Some k =>
      (In k (tree_keys tree_abc) ->
       insert (PyInt 7) (PyStr "d") tree_abc = Raise LookupError) /\
      (~ In k (tree_keys tree_abc) ->
       exists T' L R,
         insert (PyInt 7) (PyStr "d") tree_abc = Ok T' /\ valid T' /\
         tree_elements tree_abc = L ++ R /\
         tree_elements T' =
         L ++ (k, if truthy (PyStr "d") then Some (PyStr "d") else None) :: R /\
         tree_size T' = S (tree_size tree_abc) /\
         debug T' = debug tree_abc /\ vals T' = vals tree_abc /\
         max_nodes T' = max_nodes tree_abc)
  end.
Proof.
  split; [exact tree_abc_valid|].
  exact (X3_insert_outcome tree_abc (PyInt 7) (PyStr "d") tree_abc_valid).
Defined.

(** X4: the three outcomes of [delete] on a valid tree.  A key that is not
    an integer raises [TypeError]; an integer key that is not in the tree
    (in particular any key on an empty tree) raises [LookupError]; a key of
    the tree is removed: the call returns a valid tree with one node less,
    whose keys are the old keys in order without the deleted one. *)
Theorem X4_delete_outcome (T : Tree) (key : pyval) :
  valid T ->
  match isinstance_int key with
  | None => delete key T = Raise TypeError
  | Some k =>
      (~ In k (tree_keys T) -> delete key T = Raise LookupError) /\
      (In k (tree_keys T) ->
       exists T' L R,
         delete key T = Ok T' /\ valid T' /\
         tree_keys T = L ++ k :: R /\ tree_keys T' = L ++ R /\
         ~ In k (tree_keys T') /\
         S (tree_size T') = tree_size T /\
         debug T' = debug T /\ vals T' = vals T /\
         max_nodes T' = max_nodes T)
  end.
Proof.
  intros V. destruct (isinstance_int key) as [k|] eqn:Hk.
  - split.
    + intros Hnin. unfold delete.
      rewrite (find_absent' T key k (Some TREE_DELETE) Hk V Hnin eq_refl).
      reflexivity.
    + intros Hin.
      destruct (delete_ok T key k Hk V Hin)
        as (T' & L & R & Hd & V' & D & Vs & M & E & E').
      exists T', L, R. split; [exact Hd|]. split; [exact V'|].
      split; [exact E|]. split; [exact E'|]. split.
      { rewrite E'. apply sorted_not_in. rewrite <- E.
        apply valid_sorted. exact V. }
      split.
      { rewrite !tree_size_keys, E, E', !length_app. simpl. lia. }
      auto.
  - unfold delete. rewrite (find_not_int T key _ Hk). reflexivity.
Qed.

Lemma X4_delete_outcome_witness :
  valid tree_abc /\
  match isinstance_int (PyInt 5) with
  | None => delete (PyInt 5) tree_abc = Raise TypeError
  | Some k =>
      (~ In k (tree_keys tree_abc) ->
       delete (PyInt 5) tree_abc = Raise LookupError) /\
      (In k (tree_keys tree_abc) ->
       exists T' L R,
         delete (PyInt 5) tree_abc = Ok T' /\ valid T' /\
         tree_keys tree_abc = L ++ k :: R /\ tree_keys T' = L ++ R /\
         ~ In k (tree_keys T') /\
         S (tree_size T') = tree_size tree_abc /\
         debug T' = debug tree_abc /\ vals T' = vals tree_abc /\
         max_nodes T' = max_nodes tree_abc)
  end.
Proof.
  split; [exact tree_abc_valid|].
  exact (X4_delete_outcome tree_abc (PyInt 5) tree_abc_valid).
Defined.

(** *** What [delete] does to the payloads *)

Lemma sorted_map_remove {A} (f : A -> Z) L x R :
  StronglySorted Z.lt (map f (L ++ x :: R)) ->
  StronglySorted Z.lt (map f (L ++ R)).
Proof.
  rewrite !map_app. simpl. apply sorted_remove.
Qed.

(** The in-order contents before and after a [delete] of a key of the tree,
    by the number of real children of the node that holds the key. *)
Lemma delete_elements T key k :
  isinstance_int key = Some k -> valid T -> In k (tree_keys T) ->
  exists T' c l v r p,
    find key None T = Ok (Node c l k v r, p) /\
    delete key T = Ok T' /\ valid T' /\
    if negb (is_nil l) && negb (is_nil r)
    then exists L k' v' R,
        tree_elements T = L ++ (k, v) :: (k', v') :: R /\
        tree_elements T' = L ++ (k', v) :: R
    else exists L R,
        tree_elements T = L ++ (k, v) :: R /\
        tree_elements T' = L ++ R.
Proof.
  intros Hk V Hin. unfold tree_keys, tree_elements in *.
  destruct (root T) as [r|] eqn:Er; [|contradiction].
  apply (valid_good T r Er) in V. destruct V as (N & R & C & Srt).
  assert (H5 : inv5 r) by (apply inv5_sorted; auto).
  destruct (find_present T key k r Hk Er H5 Hin)
    as (cF & lF & vF & rF & pF & Hf & _ & Hfn & Hz).
  unfold delete. rewrite Hf. cbn [bind fst snd child].
  destruct (negb (is_nil lF) && negb (is_nil rF)) eqn:Etwo.
  - (* two real children: the successor is taken out *)
    pose proof Etwo as Two. apply andb_prop in Etwo. destruct Etwo as (El & Er').
    assert (Nr : is_nil rF = false) by (destruct (is_nil rF); auto; discriminate).
    cbn [down fst snd bind].
    destruct (leftmost_ok rF (Frame RIGHT cF k vF lF :: pF) Nr)
      as (cR & lR & kR & vR & rR & q & Hl & HlR & Hzq & Hq).
    rewrite Hl. cbn [bind fst snd child key_of color_of].
    rewrite HlR. cbn [negb].
    replace (List.length (q ++ Frame RIGHT cF k vF lF :: pF) - List.length pF)%nat
      with (S (List.length q)) by (rewrite length_app; simpl; lia).
    rewrite match_nonempty by (destruct q; discriminate).
    rewrite set_key_app.
    assert (Hzr : zip (Node cR lR kR vR rR)
                    (q ++ Frame RIGHT cF k vF lF :: pF) = r).
    { rewrite zip_app, Hzq. exact Hz. }
    rewrite <- Hzr in R, C.
    destruct (zip_rb_inv _ _ R C) as (RnR & PnR & _).
    apply (rbpath_rekey _ _ kR) in PnR.
    destruct (splice_ok T cR lR kR vR rR rR _ RnR PnR)
      as (r' & Hr' & R' & C' & N' & E'); [destruct q; discriminate|auto|].
    rewrite Hr'.
    assert (K1 : elements r = (lefts pF ++ elements lF) ++
                          (k, vF) :: (kR, vR) :: elements rR ++ rights q ++
                          rights pF).
    { rewrite <- Hz, elements_zip. cbn [elements].
      rewrite <- Hzq, elements_zip, Hq. cbn [elements].
      rewrite (is_nil_keys lR HlR). simpl.
      repeat (rewrite <- ?app_assoc; simpl). reflexivity. }
    assert (K2 : elements r' = (lefts pF ++ elements lF) ++
                           (kR, vF) :: elements rR ++ rights q ++
                           rights pF).
    { rewrite E', elements_zip, lefts_app, rights_app, Hq.
      simpl. repeat (rewrite <- ?app_assoc; simpl). reflexivity. }
    exists (set_root T (Some r')), cF, lF, vF, rF, pF.
    split; [exact Hfn|]. split; [reflexivity|]. split.
    { apply (valid_good (set_root T (Some r')) r' eq_refl).
      split; [auto|]. split; [auto|]. split; [auto|].
      unfold keys in *. rewrite K2. rewrite K1 in Srt.
      rewrite map_app in *. simpl in *.
      apply sorted_remove in Srt. exact Srt. }
    rewrite Two.
    exists (lefts pF ++ elements lF), kR, vR,
      (elements rR ++ rights q ++ rights pF).
    cbn [root set_root]. split; [exact K1|exact K2].
  - (* at most one real child: the node itself is taken out *)
    pose proof Etwo as Two.
    cbn [bind fst snd child key_of color_of]. rewrite Nat.sub_diag.
    set (x := if negb (is_nil lF) then lF else rF).
    assert (Hx : (x = lF /\ is_nil rF = true) \/ (x = rF /\ is_nil lF = true)).
    { unfold x. destruct (is_nil lF), (is_nil rF); simpl in *;
        auto; discriminate. }
    assert (K1 : elements r = (lefts pF ++ elements lF) ++
                          (k, vF) :: elements rF ++ rights pF).
    { rewrite <- Hz, elements_zip. cbn [elements].
      repeat (rewrite <- ?app_assoc; simpl). reflexivity. }
    assert (Kx : elements lF ++ elements rF = elements x).
    { destruct Hx as [(-> & Hn)|(-> & Hn)]; rewrite (is_nil_keys _ Hn);
        simpl; now rewrite ?app_nil_r. }
    assert (Srt' : StronglySorted Z.lt
                     (map fst ((lefts pF ++ elements lF) ++
                               elements rF ++ rights pF))).
    { unfold keys in Srt. rewrite K1 in Srt.
      apply sorted_map_remove in Srt. exact Srt. }
    rewrite <- Hz in R, C.
    destruct (zip_rb_inv _ _ R C) as (RnF & PnF & _).
    destruct pF as [|f pF'].
    + (* the node is the root *)
      simpl in Hz. simpl in RnF. destruct RnF as (Rl & Rr & _).
      assert (Rx : rb x) by (destruct Hx as [(-> & _)|(-> & _)]; auto).
      destruct (is_nil x) eqn:Enx.
      * exists (set_root T None), cF, lF, vF, rF, [].
        split; [exact Hfn|]. split; [reflexivity|]. split; [exact Logic.I|].
        rewrite Two.
        exists (lefts [] ++ elements lF), (elements rF ++ rights []).
        split; [exact K1|]. cbn [root set_root]. simpl. rewrite !app_nil_r.
        rewrite Kx. now rewrite (is_nil_keys _ Enx).
      * assert (K2 : elements (paint BLACK x) =
                     (lefts [] ++ elements lF) ++ elements rF ++ rights []).
        { simpl. rewrite app_nil_r, Kx. now rewrite elements_paint. }
        exists (set_root T (Some (paint BLACK x))), cF, lF, vF, rF, [].
        split; [exact Hfn|]. split; [reflexivity|]. split.
        { apply (valid_good (set_root T (Some (paint BLACK x))) _ eq_refl).
          split; [now rewrite paint_is_nil|].
          split; [apply rb_paint_black; auto|].
          split; [apply color_paint|].
          unfold keys. rewrite K2. exact Srt'. }
        rewrite Two.
        exists (lefts [] ++ elements lF), (elements rF ++ rights []).
        cbn [root set_root]. split; [exact K1|exact K2].
    + destruct (splice_ok T cF lF k vF rF x (f :: pF') RnF PnF)
        as (r' & Hr' & R' & C' & N' & E');
        [discriminate|destruct Hx as [(-> & _)|(-> & _)]; auto|].
      assert (K2 : elements r' = (lefts (f :: pF') ++ elements lF) ++
                             elements rF ++ rights (f :: pF')).
      { rewrite E', elements_zip. rewrite <- Kx.
        repeat (rewrite <- ?app_assoc; simpl). reflexivity. }
      exists (set_root T (Some r')), cF, lF, vF, rF, (f :: pF').
      split; [exact Hfn|]. split; [exact Hr'|]. split.
      { apply (valid_good (set_root T (Some r')) r' eq_refl).
        split; [auto|]. split; [auto|]. split; [auto|].
        unfold keys. rewrite K2. exact Srt'. }
      rewrite Two.
      exists (lefts (f :: pF') ++ elements lF),
        (elements rF ++ rights (f :: pF')).
      cbn [root set_root]. split; [exact K1|exact K2].
Qed.

Lemma find_ok_in_keys T key k a n p :
  valid T -> isinstance_int key = Some k -> is_insert a = false ->
  find key a T = Ok (n, p) -> In k (tree_keys T).
Proof.
  intros V Hk Ha Hf. destruct (in_keys_dec k T) as [Hin|Hnin]; [exact Hin|].
  rewrite (find_absent' T key k a Hk V Hnin Ha) in Hf. discriminate.
Qed.

(** X5: [delete] at a node with two real children, on any valid tree.  The
    node found keeps its payload and takes the key of its in-order
    successor; the successor's node is taken out, and its payload with it.
    In the in-order contents the two entries [(k, v)], [(k', v')] become the
    one entry [(k', v)], and a later [find(k')] gives the payload that was
    stored with the deleted key. *)
Theorem X5_delete_two_children
  (T : Tree) (key : pyval) (k : Z) (n : node) (p : path) (l r : node) :
  valid T -> isinstance_int key = Some k ->
  find key None T = Ok (n, p) ->
  child LEFT n = Ok l -> child RIGHT n = Ok r ->
  is_nil l = false -> is_nil r = false ->
  exists T' L k' v' R,
    delete key T = Ok T' /\ valid T' /\
    tree_elements T = L ++ (k, value_of n) :: (k', v') :: R /\
    tree_elements T' = L ++ (k', value_of n) :: R /\
    exists n' p',
      find (PyInt k') None T' = Ok (n', p') /\ key_of n' = Some k' /\
      value_of n' = value_of n.
Proof.
  intros V Hk Hf Hl Hr Nl Nr.
  pose proof (find_ok_in_keys T key k None n p V Hk eq_refl Hf) as Hin.
  destruct (delete_elements T key k Hk V Hin)
    as (T' & c & l0 & v & r0 & p0 & Hf' & Hd & V' & H).
  rewrite Hf in Hf'. inversion Hf'; subst n p0. clear Hf'.
  simpl in Hl, Hr. inversion Hl; subst l0. inversion Hr; subst r0.
  rewrite Nl, Nr in H. cbn [negb andb] in H.
  destruct H as (L & k' & v' & R & E & E').
  exists T', L, k', v', R. cbn [value_of].
  split; [exact Hd|]. split; [exact V'|]. split; [exact E|].
  split; [exact E'|].
  apply (find_value T' (PyInt k') k' L v R eq_refl V' E').
Qed.

Lemma X5_delete_two_children_witness :
  valid tree_abc /\ isinstance_int (PyInt 10) = Some 10 /\
  find (PyInt 10) None tree_abc =
  Ok (Node BLACK (leaf RED 5 (Some (PyStr "b"))) 10 (Some (PyStr "a"))
        (leaf RED 20 (Some (PyStr "c"))), []) /\
  is_nil (leaf RED 5 (Some (PyStr "b"))) = false /\
  is_nil (leaf RED 20 (Some (PyStr "c"))) = false /\
  exists T' L k' v' R,
    delete (PyInt 10) tree_abc = Ok T' /\ valid T' /\
    tree_elements tree_abc = L ++ (10, Some (PyStr "a")) :: (k', v') :: R /\
    tree_elements T' = L ++ (k', Some (PyStr "a")) :: R /\
    exists n' p',
      find (PyInt k') None T' = Ok (n', p') /\ key_of n' = Some k' /\
      value_of n' = Some (PyStr "a").
Proof.
  split; [exact tree_abc_valid|]. split; [reflexivity|].
  split; [reflexivity|]. split; [reflexivity|]. split; [reflexivity|].
  exact (X5_delete_two_children tree_abc (PyInt 10) 10 _ _ _ _
           tree_abc_valid eq_refl eq_refl eq_refl eq_refl eq_refl eq_refl).
Defined.

(** X6: [delete] at a node with at most one real child, on any valid tree.
    The entry of the key is taken out of the in-order contents and every
    other key keeps its payload. *)
Theorem X6_delete_at_most_one_child
  (T : Tree) (key : pyval) (k : Z) (n : node) (p : path) (l r : node) :
  valid T -> isinstance_int key = Some k ->
  find key None T = Ok (n, p) ->
  child LEFT n = Ok l -> child RIGHT n = Ok r ->
  is_nil l = true \/ is_nil r = true ->
  exists T' L R,
    delete key T = Ok T' /\ valid T' /\
    tree_elements T = L ++ (k, value_of n) :: R /\
    tree_elements T' = L ++ R.
Proof.
  intros V Hk Hf Hl Hr Hnil.
  pose proof (find_ok_in_keys T key k None n p V Hk eq_refl Hf) as Hin.
  destruct (delete_elements T key k Hk V Hin)
    as (T' & c & l0 & v & r0 & p0 & Hf' & Hd & V' & H).
  rewrite Hf in Hf'. inversion Hf'; subst n p0. clear Hf'.
  simpl in Hl, Hr. inversion Hl; subst l0. inversion Hr; subst r0.
  assert (E2 : negb (is_nil l) && negb (is_nil r) = false).
  { destruct Hnil as [-> | ->]; [reflexivity|apply andb_false_r]. }
  rewrite E2 in H. destruct H as (L & R & E & E').
  exists T', L, R. cbn [value_of]. auto.
Qed.

Lemma X6_delete_at_most_one_child_witness :
  valid tree_abc /\ isinstance_int (PyInt 5) = Some 5 /\
  find (PyInt 5) None tree_abc =
  Ok (leaf RED 5 (Some (PyStr "b")),
      [Frame LEFT BLACK 10 (Some (PyStr "a"))
         (leaf RED 20 (Some (PyStr "c")))]) /\
  (is_nil (Nil BLACK) = true \/ is_nil (Nil BLACK) = true) /\
  exists T' L R,
    delete (PyInt 5) tree_abc = Ok T' /\ valid T' /\
    tree_elements tree_abc = L ++ (5, Some (PyStr "b")) :: R /\
    tree_elements T' = L ++ R.
Proof.
  split; [exact tree_abc_valid|]. split; [reflexivity|].
  split; [reflexivity|]. split; [left; reflexivity|].
  exact (X6_delete_at_most_one_child tree_abc (PyInt 5) 5 _ _ _ _
           tree_abc_valid eq_refl eq_refl eq_refl eq_refl
           (or_introl eq_refl)).
Defined.

Lemma skeleton_zip n n' p :
  skeleton n = skeleton n' -> skeleton (zip n p) = skeleton (zip n' p).
Proof.
  revert n n'. induction p as [|f p IH]; intros n n' H; simpl; [exact H|].
  apply IH. unfold fill. destruct (f_dir f); simpl; now rewrite H.
Qed.

(** X7: the three outcomes of [update] on a valid tree.  A key that is not
    an integer raises [TypeError]; an integer key that is not in the tree
    raises [LookupError], so [update] never adds a key; for a key of the tree
    the payload of that key becomes the given value, whatever its truth
    value, every other entry stays as it is, and no node is moved or
    recolored. *)
Theorem X7_update_outcome (T : Tree) (key : pyval) (value : pyval) :
  valid T ->
  match isinstance_int key with
  | None => update key value T = Raise TypeError
  | Some k =>
      (~ In k (tree_keys T) -> update key value T = Raise LookupError) /\
      (In k (tree_keys T) ->
       exists T' L R old r r',
         update key value T = Ok T' /\ valid T' /\
         tree_elements T = L ++ (k, old) :: R /\
         tree_elements T' = L ++ (k, Some value) :: R /\
         root T = Some r /\ root T' = Some r' /\
         skeleton r' = skeleton r)
  end.
Proof.
  intros V. destruct (isinstance_int key) as [k|] eqn:Hk.
  - split.
    + intros Hnin. unfold update.
      rewrite (find_absent' T key k (Some TREE_UPDATE) Hk V Hnin eq_refl).
      reflexivity.
    + intros Hin.
      destruct (update_ok T key k value Hk V Hin)
        as (T' & L & R & old & Hu & V' & _ & _ & _ & E & E').
      destruct (find_present_any T key k (Some TREE_UPDATE) V Hk eq_refl Hin)
        as (c & l & v & r & p & Hf & Hz).
      exists T', L, R, old, (zip (Node c l k v r) p),
        (zip (Node c l k (Some value) r) p).
      split; [exact Hu|]. split; [exact V'|]. split; [exact E|].
      split; [exact E'|]. split; [exact Hz|].
      unfold update in Hu. rewrite Hf in Hu. cbn in Hu.
      inversion Hu; subst T'. split; [reflexivity|].
      apply skeleton_zip. reflexivity.
  - unfold update. rewrite (find_not_int T key _ Hk). reflexivity.
Qed.

Lemma X7_update_outcome_witness :
  valid tree_abc /\
  match isinstance_int (PyInt 5) with
  | None => update (PyInt 5) (PyInt 0) tree_abc = Raise TypeError
  | Some k =>
      (~ In k (tree_keys tree_abc) ->
       update (PyInt 5) (PyInt 0) tree_abc = Raise LookupError) /\
      (In k (tree_keys tree_abc) ->
       exists T' L R old r r',
         update (PyInt 5) (PyInt 0) tree_abc = Ok T' /\ valid T' /\
         tree_elements tree_abc = L ++ (k, old) :: R /\
         tree_elements T' = L ++ (k, Some (PyInt 0)) :: R /\
         root tree_abc = Some r /\ root T' = Some r' /\
         skeleton r' = skeleton r)
  end.
Proof.
  split; [exact tree_abc_valid|].
  exact (X7_update_outcome tree_abc (PyInt 5) (PyInt 0) tree_abc_valid).
Defined.

(** X8: after a [delete] the key is gone, and an [insert] brings it back.
    On a valid tree, once [delete(key)] has returned, [find], [update] and a
    second [delete] of the same key raise [LookupError]; an [insert] of the
    key then returns a valid tree with the key list of the tree before the
    delete. *)
Theorem X8_delete_then_insert
  (T : Tree) (key : pyval) (k : Z) (value : pyval) :
  valid T -> isinstance_int key = Some k -> In k (tree_keys T) ->
  exists T1 T2,
    delete key T = Ok T1 /\
    find key None T1 = Raise LookupError /\
    update key value T1 = Raise LookupError /\
    delete key T1 = Raise LookupError /\
    insert key value T1 = Ok T2 /\ valid T2 /\
    tree_keys T2 = tree_keys T.
Proof.
  intros V Hk Hin.
  destruct (delete_ok T key k Hk V Hin)
    as (T1 & L & R & Hd & V1 & _ & _ & _ & E & E1).
  assert (Hnin : ~ In k (tree_keys T1)).
  { rewrite E1. apply sorted_not_in. rewrite <- E. apply valid_sorted, V. }
  destruct (insert_ok T1 key k value Hk V1 Hnin)
    as (T2 & L' & R' & Hi & V2 & _ & _ & _ & F & F').
  exists T1, T2. split; [exact Hd|].
  split; [apply (find_absent' T1 key k None Hk V1 Hnin eq_refl)|].
  split.
  { unfold update.
    now rewrite (find_absent' T1 key k (Some TREE_UPDATE) Hk V1 Hnin eq_refl). }
  split.
  { unfold delete.
    now rewrite (find_absent' T1 key k (Some TREE_DELETE) Hk V1 Hnin eq_refl). }
  split; [exact Hi|]. split; [exact V2|].
  apply sorted_ext; [apply valid_sorted, V2|apply valid_sorted, V|].
  intros x. rewrite (insert_keys T1 k value T2 L' R' F F' x).
  rewrite E, E1, !in_app_iff. simpl. intuition congruence.
Qed.

Lemma X8_delete_then_insert_witness :
  valid tree_abc /\ isinstance_int (PyInt 10) = Some 10 /\
  In 10 (tree_keys tree_abc) /\
  exists T1 T2,
    delete (PyInt 10) tree_abc = Ok T1 /\
    find (PyInt 10) None T1 = Raise LookupError /\
    update (PyInt 10) PyNone T1 = Raise LookupError /\
    delete (PyInt 10) T1 = Raise LookupError /\
    insert (PyInt 10) PyNone T1 = Ok T2 /\ valid T2 /\
    tree_keys T2 = tree_keys tree_abc.
Proof.
  assert (H : In 10 (tree_keys tree_abc)) by (simpl; auto).
  split; [exact tree_abc_valid|]. split; [reflexivity|]. split; [exact H|].
  exact (X8_delete_then_insert tree_abc (PyInt 10) 10 PyNone
           tree_abc_valid eq_refl H).
Defined.

(** X9: deleting the only key of a tree leaves a tree without a root, on
    which every [find] with an integer key raises [LookupError], [boundary]
    returns [None] for every selector, and [traverse] returns without a call
    of the callback. *)
Theorem X9_delete_only_key (T : Tree) (key : pyval) (k : Z) :
  valid T -> isinstance_int key = Some k -> tree_keys T = [k] ->
  exists T',
    delete key T = Ok T' /\ root T' = None /\
    (forall key' a, isinstance_int key' <> None ->
                    find key' a T' = Raise LookupError) /\
    (forall find_option, boundary find_option T' = Ok None) /\
    (forall A (callback : node -> Z -> A -> A) o fuel a,
        traverse callback o T' fuel a = Some (Ok a)).
Proof.
  intros V Hk E.
  assert (Hin : In k (tree_keys T)) by (rewrite E; left; reflexivity).
  destruct (delete_ok T key k Hk V Hin)
    as (T' & L & R & Hd & V' & _ & _ & _ & F & F').
  assert (K : tree_keys T' = []).
  { rewrite E in F. destruct L as [|x [|y L]]; try discriminate.
    inversion F; subst. exact F'. }
  assert (Er : root T' = None).
  { unfold tree_keys in K. unfold valid in V'.
    destruct (root T') as [[c|c l x v r]|]; [| |reflexivity].
    - destruct V' as (N & _). discriminate.
    - unfold keys in K. simpl in K. rewrite map_app in K.
      destruct (map fst (elements l)); discriminate. }
  exists T'. split; [exact Hd|]. split; [exact Er|]. split.
  { intros key' a H. apply find_empty; assumption. }
  split.
  { intros o. unfold boundary. now rewrite Er. }
  intros A cb o fuel a. unfold traverse. now rewrite Er.
Qed.

Lemma X9_delete_only_key_witness :
  valid (mkTree (Some (leaf BLACK 4 None)) false [] (0, 0)) /\
  isinstance_int (PyInt 4) = Some 4 /\
  tree_keys (mkTree (Some (leaf BLACK 4 None)) false [] (0, 0)) = [4] /\
  exists T',
    delete (PyInt 4) (mkTree (Some (leaf BLACK 4 None)) false [] (0, 0)) =
    Ok T' /\ root T' = None /\
    (forall key' a, isinstance_int key' <> None ->
                    find key' a T' = Raise LookupError) /\
    (forall find_option, boundary find_option T' = Ok None) /\
    (forall A (callback : node -> Z -> A -> A) o fuel a,
        traverse callback o T' fuel a = Some (Ok a)).
Proof.
  assert (V : valid (mkTree (Some (leaf BLACK 4 None)) false [] (0, 0))).
  { unfold valid. cbn.
    repeat split; try discriminate; try reflexivity; auto;
      try (intros a b Ha Hb; intuition congruence); repeat constructor. }
  split; [exact V|]. split; [reflexivity|]. split; [reflexivity|].
  exact (X9_delete_only_key _ (PyInt 4) 4 V eq_refl eq_refl).
Defined.

(** X10: a rotation is undone by the rotation in the other direction.
    Whenever [__rotate(nFocus, d)] has a real child to promote, the subtree
    it leaves holds the same entries in the same in-order sequence, and
    rotating the promoted node in the direction [1 - d] gives back the
    subtree the first rotation started from. *)
Theorem X10_rotate_round_trip (nFocus : node) (d : direction) (top : node) :
  rotate nFocus d = Ok top ->
  rotate top (opp d) = Ok nFocus /\
  elements top = elements nFocus /\
  size top = size nFocus.
Proof.
  intros H. unfold rotate in *.
  destruct nFocus as [c|c l k v r]; [discriminate|].
  destruct d; cbn in *.
  - destruct r as [cr|cr rl rk rv rr]; [discriminate|].
    cbn in H. inversion H; subst top. cbn.
    split; [reflexivity|]. split.
    { repeat (rewrite <- ?app_assoc; simpl). reflexivity. }
    lia.
  - destruct l as [cl|cl ll lk lv lr]; [discriminate|].
    cbn in H. inversion H; subst top. cbn.
    split; [reflexivity|]. split.
    { repeat (rewrite <- ?app_assoc; simpl). reflexivity. }
    lia.
Qed.

Lemma X10_rotate_round_trip_witness :
  rotate (Node BLACK (leaf RED 10 None) 20 None (leaf RED 30 None)) LEFT =
  Ok (Node RED (Node BLACK (leaf RED 10 None) 20 None (Nil BLACK)) 30 None
        (Nil BLACK)) /\
  rotate (Node RED (Node BLACK (leaf RED 10 None) 20 None (Nil BLACK)) 30 None
            (Nil BLACK)) (opp LEFT) =
  Ok (Node BLACK (leaf RED 10 None) 20 None (leaf RED 30 None)) /\
  elements (Node RED (Node BLACK (leaf RED 10 None) 20 None (Nil BLACK)) 30
              None (Nil BLACK)) =
  elements (Node BLACK (leaf RED 10 None) 20 None (leaf RED 30 None)).
Proof.
  split; [reflexivity|].
  pose proof (X10_rotate_round_trip
                (Node BLACK (leaf RED 10 None) 20 None (leaf RED 30 None))
                LEFT _ eq_refl) as H.
  split; [exact (proj1 H)|exact (proj1 (proj2 H))].
Defined.

(** *** The three orders of [traverse] *)

Lemma visits_pre_order n d : visits PRE_ORDER n d = pre_order n d.
Proof.
  revert d. induction n as [c|c l IHl k v r IHr]; intros d; simpl;
    [reflexivity|].
  rewrite IHl, IHr, app_nil_r. reflexivity.
Qed.

Lemma visits_in_order n d : visits IN_ORDER n d = in_order n d.
Proof.
  revert d. induction n as [c|c l IHl k v r IHr]; intros d; simpl;
    [reflexivity|].
  rewrite IHl, IHr, app_nil_r. reflexivity.
Qed.

Lemma visits_post_order n d : visits POST_ORDER n d = post_order n d.
Proof.
  revert d. induction n as [c|c l IHl k v r IHr]; intros d; simpl;
    [reflexivity|].
  rewrite IHl, IHr. reflexivity.
Qed.

Lemma pre_order_perm n d : Permutation (pre_order n d) (in_order n d).
Proof.
  revert d. induction n as [c|c l IHl k v r IHr]; intros d; simpl; [auto|].
  apply Permutation_cons_app. apply Permutation_app; auto.
Qed.

Lemma post_order_perm n d : Permutation (post_order n d) (in_order n d).
Proof.
  revert d. induction n as [c|c l IHl k v r IHr]; intros d; simpl; [auto|].
  rewrite app_assoc. rewrite <- Permutation_cons_append.
  apply Permutation_cons_app. apply Permutation_app; auto.
Qed.

(** X11: a PRE_ORDER [traverse] of a valid tree ends within three
    iterations of its loop per node and calls the callback on every node
    before the nodes of its left subtree, and on those before the nodes of
    its right subtree, so on the root first; the calls are those of an
    IN_ORDER traverse in another order. *)
Theorem X11_pre_order_traverse (T : Tree) (r : node) :
  valid T -> root T = Some r ->
  (forall (A : Type) (callback : node -> Z -> A -> A) (a : A) (extra : nat),
      traverse callback PRE_ORDER T (3 * size r + extra) a =
      Some (Ok (feed callback a (pre_order r 1)))) /\
  hd_error (pre_order r 1) = Some (r, 1) /\
  List.length (pre_order r 1) = size r /\
  Permutation (pre_order r 1) (in_order r 1).
Proof.
  intros V Er. split.
  { intros A cb a extra.
    pose proof (traverse_ok A cb PRE_ORDER T extra a V) as H.
    unfold tree_size, tree_visits in H. rewrite Er in H.
    rewrite visits_pre_order in H. exact H. }
  split.
  { unfold valid in V. rewrite Er in V. destruct V as (N & _).
    destruct r; [discriminate|reflexivity]. }
  split; [rewrite <- visits_pre_order; apply visits_length|].
  apply pre_order_perm.
Qed.

Lemma X11_pre_order_traverse_witness :
  valid tree_10_20_30 /\
  root tree_10_20_30 =
  Some (Node BLACK (leaf RED 10 None) 20 None (leaf RED 30 None)) /\
  map (fun c => key_of (fst c))
    (pre_order (Node BLACK (leaf RED 10 None) 20 None (leaf RED 30 None)) 1) =
  [Some 20; Some 10; Some 30] /\
  forall (A : Type) (callback : node -> Z -> A -> A) (a : A) (extra : nat),
    traverse callback PRE_ORDER tree_10_20_30
      (3 * size (Node BLACK (leaf RED 10 None) 20 None (leaf RED 30 None)) +
       extra) a =
    Some (Ok (feed callback a
                (pre_order (Node BLACK (leaf RED 10 None) 20 None
                              (leaf RED 30 None)) 1))).
Proof.
  split; [exact tree_10_20_30_valid|]. split; [reflexivity|].
  split; [reflexivity|].
  exact (proj1 (X11_pre_order_traverse tree_10_20_30 _
                  tree_10_20_30_valid eq_refl)).
Defined.

(** X12: a POST_ORDER [traverse] of a valid tree ends within three
    iterations of its loop per node and calls the callback on every node
    after the nodes of its two subtrees, so on the root last; the calls are
    those of an IN_ORDER traverse in another order. *)
Theorem X12_post_order_traverse (T : Tree) (r : node) :
  valid T -> root T = Some r ->
  (forall (A : Type) (callback : node -> Z -> A -> A) (a : A) (extra : nat),
      traverse callback POST_ORDER T (3 * size r + extra) a =
      Some (Ok (feed callback a (post_order r 1)))) /\
  last (post_order r 1) (Nil BLACK, 0) = (r, 1) /\
  List.length (post_order r 1) = size r /\
  Permutation (post_order r 1) (in_order r 1).
Proof.
  intros V Er. split.
  { intros A cb a extra.
    pose proof (traverse_ok A cb POST_ORDER T extra a V) as H.
    unfold tree_size, tree_visits in H. rewrite Er in H.
    rewrite visits_post_order in H. exact H. }
  split.
  { unfold valid in V. rewrite Er in V. destruct V as (N & _).
    destruct r as [c|c l k v r']; [discriminate|]. simpl.
    rewrite app_assoc. apply last_last. }
  split; [rewrite <- visits_post_order; apply visits_length|].
  apply post_order_perm.
Qed.

Lemma X12_post_order_traverse_witness :
  valid tree_10_20_30 /\
  root tree_10_20_30 =
  Some (Node BLACK (leaf RED 10 None) 20 None (leaf RED 30 None)) /\
  map (fun c => key_of (fst c))
    (post_order (Node BLACK (leaf RED 10 None) 20 None (leaf RED 30 None)) 1) =
  [Some 10; Some 30; Some 20] /\
  forall (A : Type) (callback : node -> Z -> A -> A) (a : A) (extra : nat),
    traverse callback POST_ORDER tree_10_20_30
      (3 * size (Node BLACK (leaf RED 10 None) 20 None (leaf RED 30 None)) +
       extra) a =
    Some (Ok (feed callback a
                (post_order (Node BLACK (leaf RED 10 None) 20 None
                               (leaf RED 30 None)) 1))).
Proof.
  split; [exact tree_10_20_30_valid|]. split; [reflexivity|].
  split; [reflexivity|].
  exact (proj1 (X12_post_order_traverse tree_10_20_30 _
                  tree_10_20_30_valid eq_refl)).
Defined.

(** Every call of the callback passes a node of the tree with the number of
    nodes on the way from the root down to it, both included. *)
Lemma visits_located o n d :
  Forall (fun c => exists p, zip (fst c) p = n /\
                             snd c = d + Z.of_nat (List.length p))
    (visits o n d).
Proof.
  revert d. induction n as [c|c l IHl k v r IHr]; intros d; [constructor|].
  assert (Hself : Forall (fun c0 => exists p, zip (fst c0) p = Node c l k v r /\
                                          snd c0 = d + Z.of_nat (List.length p))
                    [(Node c l k v r, d)]).
  { constructor; [|constructor]. exists []. simpl. split; [reflexivity|lia]. }
  assert (Hl : Forall (fun c0 => exists p, zip (fst c0) p = Node c l k v r /\
                                       snd c0 = d + Z.of_nat (List.length p))
                 (visits o l (d + 1))).
  { eapply Forall_impl; [|apply IHl]. intros [x dx] (p & Hz & Hd).
    exists (p ++ [Frame LEFT c k v r]). simpl in *. split.
    - rewrite zip_app, Hz. reflexivity.
    - rewrite length_app. simpl. lia. }
  assert (Hr : Forall (fun c0 => exists p, zip (fst c0) p = Node c l k v r /\
                                       snd c0 = d + Z.of_nat (List.length p))
                 (visits o r (d + 1))).
  { eapply Forall_impl; [|apply IHr]. intros [x dx] (p & Hz & Hd).
    exists (p ++ [Frame RIGHT c k v l]). simpl in *. split.
    - rewrite zip_app, Hz. reflexivity.
    - rewrite length_app. simpl. lia. }
  cbn [visits].
  repeat (apply Forall_app; split); auto;
    match goal with |- Forall _ (if ?b then _ else _) => destruct b end;
    auto; constructor.
Qed.

Lemma zip_height n p :
  (height n + List.length p <= height (zip n p))%nat.
Proof.
  revert n. induction p as [|f p IH]; intros n; simpl; [lia|].
  specialize (IH (fill f n)).
  assert (Hh : (height n < height (fill f n))%nat)
    by (unfold fill; destruct (f_dir f); simpl; lia).
  lia.
Qed.

Lemma visits_real o n d :
  Forall (fun c => is_nil (fst c) = false) (visits o n d).
Proof.
  revert d. induction n as [c|c l IHl k v r IHr]; intros d; [constructor|].
  cbn [visits].
  repeat (apply Forall_app; split); auto;
    match goal with |- Forall _ (if ?b then _ else _) => destruct b end;
    repeat constructor.
Qed.

(** X13: the arguments of the callback.  In each of the three orders, every
    call that [traverse] makes on a valid tree passes a real node of the
    tree together with its depth: the number of nodes on the way from the
    root down to it, both included, so 1 for the root and never more than
    the height of the tree. *)
Theorem X13_traverse_depths (T : Tree) (r : node) (o : order) :
  valid T -> root T = Some r ->
  exists calls,
    (forall (A : Type) (callback : node -> Z -> A -> A) (a : A) (extra : nat),
        traverse callback o T (3 * size r + extra) a =
        Some (Ok (feed callback a calls))) /\
    List.length calls = size r /\
    Forall (fun c => exists p,
                zip (fst c) p = r /\ is_nil (fst c) = false /\
                snd c = 1 + Z.of_nat (List.length p) /\
                1 <= snd c <= Z.of_nat (height r)) calls.
Proof.
  intros V Er. exists (visits o r 1). split.
  { intros A cb a extra.
    pose proof (traverse_ok A cb o T extra a V) as H.
    unfold tree_size, tree_visits in H. rewrite Er in H. exact H. }
  split; [apply visits_length|].
  pose proof (visits_located o r 1) as HL.
  pose proof (visits_real o r 1) as HR.
  rewrite Forall_forall in *. intros c Hc.
  destruct (HL c Hc) as (p & Hz & Hd). specialize (HR c Hc).
  exists p. split; [exact Hz|]. split; [exact HR|]. split; [exact Hd|].
  pose proof (zip_height (fst c) p) as Hh. rewrite Hz in Hh.
  destruct (fst c); [discriminate|]. simpl in Hh. lia.
Qed.

Lemma X13_traverse_depths_witness :
  valid tree_10_20_30 /\
  root tree_10_20_30 =
  Some (Node BLACK (leaf RED 10 None) 20 None (leaf RED 30 None)) /\
  exists calls,
    (forall (A : Type) (callback : node -> Z -> A -> A) (a : A) (extra : nat),
        traverse callback IN_ORDER tree_10_20_30
          (3 * size (Node BLACK (leaf RED 10 None) 20 None (leaf RED 30 None)) +
           extra) a =
        Some (Ok (feed callback a calls))) /\
    List.length calls =
    size (Node BLACK (leaf RED 10 None) 20 None (leaf RED 30 None)) /\
    Forall (fun c => exists p,
                zip (fst c) p =
                Node BLACK (leaf RED 10 None) 20 None (leaf RED 30 None) /\
                is_nil (fst c) = false /\
                snd c = 1 + Z.of_nat (List.length p) /\
                1 <= snd c <=
                Z.of_nat (height (Node BLACK (leaf RED 10 None) 20 None
                                    (leaf RED 30 None)))) calls.
Proof.
  split; [exact tree_10_20_30_valid|]. split; [reflexivity|].
  exact (X13_traverse_depths tree_10_20_30 _ IN_ORDER
           tree_10_20_30_valid eq_refl).
Defined.

Lemma feed_display_cb acc vs :
  feed display_cb acc vs = acc ++ map display_entry vs.
Proof.
  unfold feed. revert acc. induction vs as [|v vs IH]; intros acc; simpl.
  - now rewrite app_nil_r.
  - rewrite IH. unfold display_cb, display_entry.
    rewrite <- app_assoc. reflexivity.
Qed.

Lemma in_order_keys n d :
  map (fun e => fst (fst e)) (map display_entry (in_order n d)) =
  map Some (keys n).
Proof.
  rewrite <- visits_in_order, map_map, <- (visits_in_order_keys n d).
  reflexivity.
Qed.

(** X14: what [display] prints for a valid tree with a root.  The list has
    one entry per node, in the order of the keys, which is strictly
    ascending; each entry holds the key, the depth and the color of its
    node, and the entry of the root has depth 1 and is BLACK. *)
Theorem X14_display (T : Tree) (r : node) (extra : nat) :
  valid T -> root T = Some r ->
  display T (3 * size r + extra) =
  Some (Ok (map display_entry (in_order r 1))) /\
  map (fun e => fst (fst e)) (map display_entry (in_order r 1)) =
  map Some (tree_keys T) /\
  StronglySorted Z.lt (tree_keys T) /\
  List.length (map display_entry (in_order r 1)) = size r /\
  In (key_of r, 1, BLACK) (map display_entry (in_order r 1)).
Proof.
  intros V Er. split.
  { unfold display.
    pose proof (traverse_ok _ display_cb IN_ORDER T extra [] V) as H.
    unfold tree_size, tree_visits in H. rewrite Er in H.
    rewrite H, feed_display_cb, visits_in_order. reflexivity. }
  split.
  { rewrite in_order_keys. unfold tree_keys. now rewrite Er. }
  split; [apply valid_sorted; exact V|].
  split.
  { rewrite length_map, <- visits_in_order. apply visits_length. }
  unfold valid in V. rewrite Er in V.
  destruct V as (N & _ & _ & _ & C & _). unfold inv4 in C.
  destruct r as [c|c l k v r']; [discriminate|]. simpl in C. subst c.
  simpl. rewrite map_app. apply in_or_app. right. left. reflexivity.
Qed.

Lemma X14_display_witness :
  valid tree_10_20_30 /\
  root tree_10_20_30 =
  Some (Node BLACK (leaf RED 10 None) 20 None (leaf RED 30 None)) /\
  display tree_10_20_30
    (3 * size (Node BLACK (leaf RED 10 None) 20 None (leaf RED 30 None)) + 0) =
  Some (Ok [(Some 10, 2, RED); (Some 20, 1, BLACK); (Some 30, 2, RED)]).
Proof.
  split; [exact tree_10_20_30_valid|]. split; [reflexivity|].
  exact (proj1 (X14_display tree_10_20_30 _ 0 tree_10_20_30_valid eq_refl)).
Defined.

(** X15: the height bound holds after deletes as well.  After every
    sequence of inserts, deletes and updates on a new tree, whatever the
    arguments and whether the calls return or are refused, the height of the
    tree is at most 2 * log2 (n + 1) for its number [n] of nodes. *)
Theorem X15_height_after_any_run (ops : list op) (dbg : bool) :
  exists T,
    run ops (Tree_init dbg) = Some T /\
    (tree_height T <= 2 * Nat.log2 (tree_size T + 1))%nat /\
    (2 ^ tree_height T <= (tree_size T + 1) ^ 2)%nat.
Proof.
  destruct (run_valid ops (Tree_init dbg) (valid_init dbg)) as (T & H & V).
  exists T. split; [exact H|]. unfold tree_height, tree_size.
  destruct (root T) as [r|] eqn:Er.
  - apply (valid_good T r Er) in V. apply good_height. exact V.
  - simpl. split; lia.
Qed.

(** X16: the order of the inserts does not show in the contents.  Inserting
    the same distinct keys into a new tree in two different orders gives two
    trees with the same key list, the keys in ascending order, whatever the
    shapes of the two trees. *)
Theorem X16_insert_order_irrelevant (kvs kvs' : list (Z * pyval)) (dbg : bool) :
  NoDup (map fst kvs) -> Permutation (map fst kvs) (map fst kvs') ->
  exists T T',
    run (map insert_op kvs) (Tree_init dbg) = Some T /\
    run (map insert_op kvs') (Tree_init dbg) = Some T' /\
    tree_keys T = tree_keys T' /\
    StronglySorted Z.lt (tree_keys T) /\
    Permutation (tree_keys T) (map fst kvs).
Proof.
  intros ND P.
  assert (ND' : NoDup (map fst kvs')) by (eapply Permutation_NoDup; eauto).
  destruct (run_inserts kvs (Tree_init dbg) (valid_init dbg) ND)
    as (T & H & V & _ & M); [intros k _ []|].
  destruct (run_inserts kvs' (Tree_init dbg) (valid_init dbg) ND')
    as (T' & H' & V' & _ & M'); [intros k _ []|].
  exists T, T'. split; [exact H|]. split; [exact H'|].
  pose proof (valid_sorted T V) as S. pose proof (valid_sorted T' V') as S'.
  split.
  { apply sorted_ext; [exact S|exact S'|]. intros x.
    rewrite M, M'. simpl. split; intros [Hx|[]]; left.
    - eapply Permutation_in; eauto.
    - eapply Permutation_in; [apply Permutation_sym|]; eauto. }
  split; [exact S|].
  apply NoDup_Permutation; [|exact ND|].
  - clear -S. induction S as [|a l S IH F]; constructor; [|exact IH].
    intros Hin. rewrite Forall_forall in F. specialize (F a Hin). lia.
  - intros x. rewrite M. simpl. tauto.
Qed.

Lemma X16_insert_order_irrelevant_witness :
  NoDup (map fst [(1, PyNone); (2, PyNone); (3, PyNone)]) /\
  Permutation (map fst [(1, PyNone); (2, PyNone); (3, PyNone)])
    (map fst [(3, PyStr "c"); (1, PyStr "a"); (2, PyStr "b")]) /\
  exists T T',
    run (map insert_op [(1, PyNone); (2, PyNone); (3, PyNone)])
      (Tree_init false) = Some T /\
    run (map insert_op [(3, PyStr "c"); (1, PyStr "a"); (2, PyStr "b")])
      (Tree_init false) = Some T' /\
    tree_keys T = tree_keys T' /\
    StronglySorted Z.lt (tree_keys T) /\
    Permutation (tree_keys T) (map fst [(1, PyNone); (2, PyNone); (3, PyNone)]).
Proof.
  assert (ND : NoDup (map fst [(1, PyNone); (2, PyNone); (3, PyNone)])).
  { simpl. repeat constructor; simpl; intuition lia. }
  assert (P : Permutation (map fst [(1, PyNone); (2, PyNone); (3, PyNone)])
                (map fst [(3, PyStr "c"); (1, PyStr "a"); (2, PyStr "b")])).
  { simpl. apply Permutation_sym. apply (Permutation_cons_app [1; 2] []).
    simpl. apply Permutation_refl. }
  split; [exact ND|]. split; [exact P|].
  exact (X16_insert_order_irrelevant _ _ false ND P).
Defined.

(** *** The depth that [main.py] computes for drawing *)

Lemma feed_find_tree_depth o n d a :
  feed find_tree_depth a (visits o n d) =
  if is_nil n then a else Z.max a (d - 1 + Z.of_nat (height n)).
Proof.
  revert d a. induction n as [c|c l IHl k v r IHr]; intros d a;
    [reflexivity|].
  cbn [visits is_nil height]. unfold feed in *.
  rewrite !fold_left_app, IHr, IHl.
  rewrite Nat2Z.inj_succ, Nat2Z.inj_max.
  assert (Hl : is_nil l = true -> height l = 0%nat)
    by (destruct l; simpl; [reflexivity|discriminate]).
  assert (Hr : is_nil r = true -> height r = 0%nat)
    by (destruct r; simpl; [reflexivity|discriminate]).
  destruct o; cbn [order_eqb fold_left fst snd]; unfold find_tree_depth;
    destruct (is_nil l) eqn:El; destruct (is_nil r) eqn:Er;
    try rewrite (Hl eq_refl); try rewrite (Hr eq_refl);
    repeat match goal with
           | |- context [if ?x <? ?y then _ else _] =>
               destruct (Z.ltb_spec x y)
           end; lia.
Qed.

(** X17: the depth [main.py] draws with.  [_draw_tree_on_canvas] sets
    [rbt_draw_depth] to 0 and traverses the tree with [_find_tree_depth];
    on a valid tree the traverse ends and leaves the height of the tree in
    [rbt_draw_depth], 0 for a tree without a root, and at most
    2 * log2 (n + 1) for [n] nodes. *)
Theorem X17_draw_depth_is_height (T : Tree) (extra : nat) :
  valid T ->
  draw_depth T (3 * tree_size T + extra) = Some (Ok (Z.of_nat (tree_height T))) /\
  (tree_height T <= 2 * Nat.log2 (tree_size T + 1))%nat.
Proof.
  intros V. split.
  - unfold draw_depth. rewrite (traverse_ok _ _ _ _ _ _ V).
    unfold tree_visits, tree_height.
    destruct (root T) as [r|] eqn:Er; [|reflexivity].
    rewrite feed_find_tree_depth.
    unfold valid in V. rewrite Er in V. destruct V as (N & _).
    rewrite N. do 2 f_equal. lia.
  - unfold tree_height, tree_size. destruct (root T) as [r|] eqn:Er.
    + apply (valid_good T r Er) in V. apply good_height. exact V.
    + simpl. lia.
Qed.

Lemma X17_draw_depth_is_height_witness :
  valid tree_10_20_30 /\
  draw_depth tree_10_20_30 (3 * tree_size tree_10_20_30 + 0) = Some (Ok 2).
Proof.
  split; [exact tree_10_20_30_valid|].
  exact (proj1 (X17_draw_depth_is_height tree_10_20_30 0 tree_10_20_30_valid)).
Defined.

(** *** What [validate] checks *)

(** The bookkeeping that [__inspect] leaves after a subtree without
    findings. *)
Lemma existsb_eqb_false k l : existsb (Z.eqb k) l = false <-> ~ In k l.
Proof.
  split.
  - intros H Hin. assert (E : existsb (Z.eqb k) l = true).
    { apply existsb_exists. exists k. split; [exact Hin|apply Z.eqb_refl]. }
    congruence.
  - intros H. destruct (existsb (Z.eqb k) l) eqn:E; [|reflexivity].
    apply existsb_exists in E. destruct E as (x & Hin & Hx).
    apply Z.eqb_eq in Hx. subst x. contradiction.
Qed.

Lemma inspect_pass n : forall b T,
  balanced n -> inspected n -> NoDup (pre_keys n) ->
  (forall x, In x (pre_keys n) -> ~ In x (vals T)) ->
  (b = true -> is_nil n = false ->
   fst (max_nodes T) = snd (max_nodes T) + Z.of_nat (size n)) ->
  inspect b n T =
  (Ok (Z.of_nat (bh n) + 1),
   set_debug T (rev (pre_keys n) ++ vals T)
     (fst (max_nodes T), snd (max_nodes T) + Z.of_nat (size n))).
Proof.
  induction n as [c|c l IHl k v r IHr]; intros b T B I ND D Hc.
  - destruct T as [rt dbg vs [rep act]]. cbn. unfold set_debug. cbn.
    rewrite Z.add_0_r. reflexivity.
  - cbn [balanced] in B. destruct B as (Bl & Br & Hbh).
    cbn [inspected] in I. destruct I as (Ic & Il & Ir).
    cbn [pre_keys] in ND, D. inversion ND as [|? ? Hk ND']; subst.
    apply NoDup_app_remove_l in ND' as NDr.
    apply NoDup_app_remove_r in ND' as NDl.
    cbn [inspect]. cbn [set_debug vals max_nodes fst snd].
    assert (E : existsb (Z.eqb k) (vals T) = false).
    { apply existsb_eqb_false. apply D. left. reflexivity. }
    rewrite E, Ic.
    rewrite (IHl false); auto; cbn [vals max_nodes fst snd set_debug];
      [|intros x Hx [Hx'|Hx'];
        [subst x; apply Hk; apply in_or_app; auto
        |apply (D x); [right; apply in_or_app; auto|exact Hx']]
      |discriminate].
    rewrite (IHr false); auto; cbn [vals max_nodes fst snd set_debug root debug];
      [|intros x Hx Hx'; apply in_app_or in Hx'; destruct Hx' as [Hx'|[Hx'|Hx']];
        [apply in_rev in Hx'; revert x Hx' Hx; clear -ND';
         induction (pre_keys l) as [|y ys IH]; intros x Hx' Hx; [destruct Hx'|];
         simpl in ND'; inversion ND'; subst; destruct Hx' as [->|Hx'];
         [apply H1; apply in_or_app; auto|eapply IH; eauto]
        |subst x; apply Hk; apply in_or_app; auto
        |apply (D x); [right; apply in_or_app; auto|exact Hx']]
      |discriminate].
    assert (P1 : (Z.of_nat (bh l) + 1 >? 0) = true) by (apply Z.gtb_lt; lia).
    assert (P2 : (Z.of_nat (bh r) + 1 >? 0) = true) by (apply Z.gtb_lt; lia).
    rewrite P1, P2, Hbh, Z.eqb_refl. cbn [negb andb].
    assert (P3 : (Z.of_nat (bh r) + 1 =? 0) = false) by (apply Z.eqb_neq; lia).
    rewrite P3.
    assert (P4 : b && negb (fst (max_nodes T) =?
                            snd (max_nodes T) + 1 + Z.of_nat (size l) +
                            Z.of_nat (size r)) = false).
    { destruct b; [|reflexivity]. cbn [andb].
      rewrite (Hc eq_refl eq_refl). cbn [size].
      replace (snd (max_nodes T) + Z.of_nat (S (size l + size r)))
        with (snd (max_nodes T) + 1 + Z.of_nat (size l) + Z.of_nat (size r))
        by lia.
      now rewrite Z.eqb_refl. }
    rewrite P4.
    assert (Es : rev (pre_keys r) ++ rev (pre_keys l) ++ k :: vals T =
                 rev (k :: pre_keys l ++ pre_keys r) ++ vals T).
    { simpl. rewrite rev_app_distr.
      repeat (rewrite <- ?app_assoc; simpl). reflexivity. }
    assert (Ec : snd (max_nodes T) + 1 + Z.of_nat (size l) + Z.of_nat (size r) =
                 snd (max_nodes T) + Z.of_nat (size (Node c l k v r))).
    { cbn [size]. lia. }
    cbn [pre_keys]. rewrite <- Es, <- Ec.
    destruct c; cbn [color_eqb bh blackness]; repeat f_equal; lia.
Qed.

Lemma inspect_sound n : forall b T h T',
  inspect b n T = (Ok h, T') ->
  balanced n /\ inspected n /\ NoDup (pre_keys n) /\
  (forall x, In x (pre_keys n) -> ~ In x (vals T)) /\
  (b = true -> is_nil n = false ->
   fst (max_nodes T) = snd (max_nodes T) + Z.of_nat (size n)) /\
  h = Z.of_nat (bh n) + 1 /\
  T' = set_debug T (rev (pre_keys n) ++ vals T)
         (fst (max_nodes T), snd (max_nodes T) + Z.of_nat (size n)).
Proof.
  induction n as [c|c l IHl k v r IHr]; intros b T h T' H.
  - cbn in H. inversion H; subst. cbn.
    split; [exact Logic.I|]. split; [exact Logic.I|]. split; [constructor|].
    split; [intros x []|]. split; [discriminate|]. split; [reflexivity|].
    destruct T' as [rt dbg vs [rep act]]. unfold set_debug. cbn.
    rewrite Z.add_0_r. reflexivity.
  - cbn [inspect] in H. cbn [set_debug vals max_nodes fst snd] in H.
    destruct (existsb (Z.eqb k) (vals T)) eqn:E; [discriminate|].
    apply existsb_eqb_false in E.
    destruct (inspect_children (Node c l k v r)) as [[]|e] eqn:Ic;
      [|discriminate].
    destruct (inspect false l _) as [[hl|e] Tl] eqn:Hl; [|discriminate].
    destruct (inspect false r Tl) as [[hr|e] Tr] eqn:Hr; [|discriminate].
    destruct (IHl _ _ _ _ Hl) as (Bl & Il & NDl & Dl & _ & -> & ->).
    destruct (IHr _ _ _ _ Hr) as (Br & Ir & NDr & Dr & _ & -> & ->).
    cbn [vals max_nodes fst snd set_debug root debug] in *.
    destruct ((Z.of_nat (bh l) + 1 >? 0) && (Z.of_nat (bh r) + 1 >? 0) &&
              negb (Z.of_nat (bh l) + 1 =? Z.of_nat (bh r) + 1)) eqn:Hm;
      [discriminate|].
    assert (Hbh : bh l = bh r).
    { assert (P1 : (Z.of_nat (bh l) + 1 >? 0) = true) by (apply Z.gtb_lt; lia).
      assert (P2 : (Z.of_nat (bh r) + 1 >? 0) = true) by (apply Z.gtb_lt; lia).
      rewrite P1, P2 in Hm. cbn [andb] in Hm.
      apply negb_false_iff, Z.eqb_eq in Hm. lia. }
    destruct (b && negb (fst (max_nodes T) =?
                         snd (max_nodes T) + 1 + Z.of_nat (size l) +
                         Z.of_nat (size r))) eqn:Hcnt; [discriminate|].
    assert (P3 : (Z.of_nat (bh r) + 1 =? 0) = false) by (apply Z.eqb_neq; lia).
    rewrite P3, andb_false_r in H.
    split; [cbn; auto|]. split; [cbn; auto|]. split.
    { cbn [pre_keys]. constructor.
      - intros Hin. apply in_app_or in Hin. destruct Hin as [Hin|Hin].
        + apply (Dl k Hin). left. reflexivity.
        + apply (Dr k Hin). apply in_or_app. right. left. reflexivity.
      - clear -NDl NDr Dr. induction (pre_keys l) as [|y ys IH]; [exact NDr|].
        simpl. inversion NDl; subst. constructor.
        + intros Hin. apply in_app_or in Hin. destruct Hin as [Hin|Hin];
            [contradiction|].
          apply (Dr y Hin). apply in_or_app. left. apply in_rev.
          rewrite rev_involutive. left. reflexivity.
        + apply IH; [assumption|]. intros x Hx Hx'. apply (Dr x Hx).
          apply in_app_or in Hx'. destruct Hx' as [Hx'|Hx'].
          * apply in_or_app. left. simpl. apply in_or_app. left. exact Hx'.
          * apply in_or_app. right. exact Hx'. }
    split.
    { cbn [pre_keys]. intros x [->|Hx] Hv; [contradiction|].
      apply in_app_or in Hx. destruct Hx as [Hx|Hx].
      - apply (Dl x Hx). right. exact Hv.
      - apply (Dr x Hx). apply in_or_app. right. right. exact Hv. }
    split.
    { intros -> _. cbn [andb] in Hcnt. apply negb_false_iff, Z.eqb_eq in Hcnt.
      cbn [size]. lia. }
    assert (Es : rev (pre_keys r) ++ rev (pre_keys l) ++ k :: vals T =
                 rev (k :: pre_keys l ++ pre_keys r) ++ vals T).
    { simpl. rewrite rev_app_distr.
      repeat (rewrite <- ?app_assoc; simpl). reflexivity. }
    assert (Ec : snd (max_nodes T) + 1 + Z.of_nat (size l) + Z.of_nat (size r) =
                 snd (max_nodes T) + Z.of_nat (size (Node c l k v r))).
    { cbn [size]. lia. }
    cbn [pre_keys]. rewrite <- Es, <- Ec.
    destruct c; cbn [color_eqb bh blackness] in *; inversion H; subst;
      split; try reflexivity; lia.
Qed.

Lemma pre_keys_perm n : Permutation (pre_keys n) (keys n).
Proof.
  induction n as [c|c l IHl k v r IHr]; [constructor|].
  rewrite keys_node. cbn [pre_keys]. apply Permutation_cons_app.
  apply Permutation_app; assumption.
Qed.

Lemma rb_balanced n : rb n -> balanced n.
Proof.
  induction n as [c|c l IHl k v r IHr]; simpl; [auto|].
  intros (Rl & Rr & Hbh & _). auto.
Qed.

Lemma rb_inspected n : rb n -> inv5 n -> inspected n.
Proof.
  induction n as [c|c l IHl k v r IHr]; [simpl; auto|].
  intros R O. cbn [rb] in R. destruct R as (Rl & Rr & _ & Hc).
  cbn [inv5] in O. destruct O as (Fl & Fr & Ol & Or).
  cbn [inspected]. split; [|auto].
  unfold inspect_children. cbn [child bind color_of].
  destruct l as [cl|cl ll kl vl lr]; cbn [is_nil negb].
  - destruct r as [cr|cr rl kr vr rr]; cbn [is_nil negb]; [reflexivity|].
    assert (Hcol : color_eqb c RED && color_eqb (color_of (Node cr rl kr vr rr)) RED
                   = false).
    { destruct c; [|reflexivity]. destruct (Hc eq_refl) as (_ & Cr).
      simpl in Cr. subst cr. reflexivity. }
    rewrite Hcol. unfold compare. cbn [key_of bind].
    rewrite keys_node in Fr. apply Forall_app in Fr. destruct Fr as (_ & Fr).
    inversion Fr; subst.
    assert (E : (k <? kr) = true) by (apply Z.ltb_lt; lia).
    rewrite E. reflexivity.
  - assert (Hcol : color_eqb c RED && color_eqb (color_of (Node cl ll kl vl lr)) RED
                   = false).
    { destruct c; [|reflexivity]. destruct (Hc eq_refl) as (Cl & _).
      simpl in Cl. subst cl. reflexivity. }
    rewrite Hcol. unfold compare. cbn [key_of bind].
    rewrite keys_node in Fl. apply Forall_app in Fl. destruct Fl as (_ & Fl).
    inversion Fl; subst.
    assert (E : (k <? kl) = false) by (apply Z.ltb_ge; lia).
    assert (E' : (k >? kl) = true) by (apply Z.gtb_lt; lia).
    rewrite E, E'. reflexivity.
Qed.

Lemma balanced_black_counts n :
  inv1 n -> balanced n -> Forall (fun x => x = S (bh n)) (black_counts n).
Proof.
  induction n as [c|c l IHl k v r IHr]; simpl.
  - intros -> _. constructor; auto.
  - intros (Hl & Hr) (Bl & Br & Hbh).
    apply Forall_map. apply Forall_app. split.
    + eapply Forall_impl; [|apply IHl; auto]. simpl. intros; lia.
    + eapply Forall_impl; [|apply IHr; auto]. simpl. intros; lia.
Qed.

Lemma balanced_inv3 n : inv1 n -> balanced n -> inv3 n.
Proof.
  induction n as [c|c l IHl k v r IHr]; [simpl; auto|].
  intros H1 B. pose proof (balanced_black_counts _ H1 B) as F.
  cbn [inv1] in H1. destruct H1 as (H1l & H1r).
  cbn [balanced] in B. destruct B as (Bl & Br & _).
  cbn [inv3]. split; [|auto].
  rewrite Forall_forall in F. intros a b Ha Hb.
  rewrite (F a Ha), (F b Hb). reflexivity.
Qed.

Lemma validate_unfold T r a :
  debug T = true -> root T = Some r ->
  validate a T =
  match inspect true r (set_debug T [] (reported a T, 0)) with
  | (Raise e, T') => (Raise e, T')
  | (Ok _, T') => (Ok tt, T')
  end.
Proof.
  intros D Er. unfold validate. rewrite Er, D. cbn [negb].
  destruct a as [[| |]|]; reflexivity.
Qed.

(** X18: when [validate] returns normally.  On a debug tree with a root,
    [validate] raises nothing exactly when these four hold: no key occurs
    twice; the number of nodes is the reported count, adjusted for the action;
    at every node the two subtrees have the same black height; and at every
    node the red and order tests on the child that [__inspect] looks at (the
    left one if it is real, else the right one) find nothing.  The color of
    the root is not looked at. *)
Theorem X18_validate_passes_iff (T : Tree) (r : node) (a : option action) :
  debug T = true -> root T = Some r -> is_nil r = false ->
  (fst (validate a T) = Ok tt <->
   NoDup (keys r) /\ reported a T = Z.of_nat (size r) /\
   balanced r /\ inspected r).
Proof.
  intros D Er N. rewrite (validate_unfold T r a D Er). split.
  - destruct (inspect true r _) as [[h|e] T'] eqn:H; [|discriminate].
    intros _.
    destruct (inspect_sound _ _ _ _ _ H) as (B & I & ND & _ & Hc & _).
    specialize (Hc eq_refl N). cbn in Hc.
    split; [eapply Permutation_NoDup; [apply pre_keys_perm|exact ND]|].
    split; [exact Hc|]. auto.
  - intros (ND & Hc & B & I).
    assert (ND' : NoDup (pre_keys r)).
    { eapply Permutation_NoDup; [apply Permutation_sym, pre_keys_perm|exact ND]. }
    rewrite (inspect_pass r true _ B I ND'); [reflexivity|intros x _ []|].
    intros _ _. cbn. exact Hc.
Qed.

Lemma X18_validate_passes_iff_witness :
  debug (debug_tree red_red_right 7 [] 0) = true /\
  root (debug_tree red_red_right 7 [] 0) = Some red_red_right /\
  is_nil red_red_right = false /\
  (fst (validate None (debug_tree red_red_right 7 [] 0)) = Ok tt <->
   NoDup (keys red_red_right) /\
   reported None (debug_tree red_red_right 7 [] 0) =
   Z.of_nat (size red_red_right) /\
   balanced red_red_right /\ inspected red_red_right).
Proof.
  split; [reflexivity|]. split; [reflexivity|]. split; [reflexivity|].
  exact (X18_validate_passes_iff (debug_tree red_red_right 7 [] 0)
           red_red_right None eq_refl eq_refl eq_refl).
Defined.

Lemma validate_accepts T r a :
  valid T -> debug T = true -> root T = Some r ->
  reported a T = Z.of_nat (size r) ->
  validate a T =
  (Ok tt, mkTree (Some r) true (rev (pre_keys r) ++ [])
            (Z.of_nat (size r), 0 + Z.of_nat (size r))).
Proof.
  intros V D Er Hc. rewrite (validate_unfold T r a D Er).
  apply (valid_good T r Er) in V. destruct V as (N & R & C & Srt).
  assert (B : balanced r) by apply rb_balanced, R.
  assert (I : inspected r)
    by (apply rb_inspected; [exact R|apply inv5_sorted, Srt]).
  assert (ND : NoDup (pre_keys r)).
  { eapply Permutation_NoDup; [apply Permutation_sym, pre_keys_perm|].
    clear -Srt. induction Srt as [|x l S IH F]; constructor; [|exact IH].
    intros Hin. rewrite Forall_forall in F. specialize (F x Hin). lia. }
  rewrite (inspect_pass r true _ B I ND); [|intros x _ []|intros _ _; exact Hc].
  unfold set_debug. cbn. rewrite Er, D, Hc. reflexivity.
Qed.

(** X19: [validate] raises no false alarm.  On a valid debug tree whose
    number of nodes is the reported count, adjusted for the action,
    [validate] returns normally; it leaves the nodes as they are, the
    adjusted count in [__max_nodes[_REPORTED]] and the number of nodes in
    [__max_nodes[_ACTUAL]]. *)
Theorem X19_validate_accepts_valid (T : Tree) (r : node) (a : option action) :
  valid T -> debug T = true -> root T = Some r ->
  reported a T = Z.of_nat (size r) ->
  exists T',
    validate a T = (Ok tt, T') /\
    root T' = Some r /\ debug T' = true /\
    max_nodes T' = (Z.of_nat (size r), Z.of_nat (size r)).
Proof.
  intros V D Er Hc. rewrite (validate_accepts T r a V D Er Hc).
  eexists. split; [reflexivity|]. cbn. auto.
Qed.

Lemma X19_validate_accepts_valid_witness :
  valid (debug_tree (Node BLACK (leaf RED 10 None) 20 None (leaf RED 30 None))
           2 [] 0) /\
  reported (Some TREE_INSERT)
    (debug_tree (Node BLACK (leaf RED 10 None) 20 None (leaf RED 30 None))
       2 [] 0) = 3 /\
  exists T',
    validate (Some TREE_INSERT)
      (debug_tree (Node BLACK (leaf RED 10 None) 20 None (leaf RED 30 None))
         2 [] 0) = (Ok tt, T') /\
    root T' = Some (Node BLACK (leaf RED 10 None) 20 None (leaf RED 30 None)) /\
    debug T' = true /\
    max_nodes T' = (3, 3).
Proof.
  split; [exact tree_10_20_30_valid|]. split; [reflexivity|].
  exact (X19_validate_accepts_valid
           (debug_tree (Node BLACK (leaf RED 10 None) 20 None (leaf RED 30 None))
              2 [] 0)
           _ (Some TREE_INSERT) tree_10_20_30_valid eq_refl eq_refl eq_refl).
Defined.

(** X20: what a pass of [validate] guarantees.  If [validate] returns
    normally on a debug tree with a root, the keys of the tree are pairwise
    different, the tree has as many nodes as reported, and, the nil
    terminators being BLACK, all paths from any node down to a terminator
    hold the same number of BLACK nodes (invariant 3). *)
Theorem X20_validate_pass_guarantees (T : Tree) (r : node) (a : option action) :
  debug T = true -> root T = Some r -> is_nil r = false ->
  fst (validate a T) = Ok tt ->
  NoDup (keys r) /\ Z.of_nat (size r) = reported a T /\ (inv1 r -> inv3 r).
Proof.
  intros D Er N H. rewrite (validate_unfold T r a D Er) in H.
  destruct (inspect true r _) as [[h|e] T'] eqn:Hi; [|discriminate].
  destruct (inspect_sound _ _ _ _ _ Hi) as (B & I & ND & _ & Hc & _).
  specialize (Hc eq_refl N). cbn in Hc.
  split; [eapply Permutation_NoDup; [apply pre_keys_perm|exact ND]|].
  split; [lia|]. intros H1. apply balanced_inv3; assumption.
Qed.

Lemma X20_validate_pass_guarantees_witness :
  fst (validate None (debug_tree red_red_right 7 [] 0)) = Ok tt /\
  NoDup (keys red_red_right) /\
  Z.of_nat (size red_red_right) = 7 /\
  (inv1 red_red_right -> inv3 red_red_right).
Proof.
  split; [reflexivity|].
  exact (X20_validate_pass_guarantees (debug_tree red_red_right 7 [] 0)
           red_red_right None eq_refl eq_refl eq_refl eq_refl).
Defined.

(** *** The test loop of [random_seed_tests] *)

Lemma valid_root T T' : root T' = root T -> valid T -> valid T'.
Proof. unfold valid. intros ->. auto. Qed.

Lemma tree_keys_root T T' : root T' = root T -> tree_keys T' = tree_keys T.
Proof. unfold tree_keys. intros ->. reflexivity. Qed.

Lemma tree_size_root T T' : root T' = root T -> tree_size T' = tree_size T.
Proof. unfold tree_size. intros ->. reflexivity. Qed.

Lemma valid_root_keys T : valid T -> tree_keys T = [] -> root T = None.
Proof.
  unfold valid, tree_keys. destruct (root T) as [[c|c l k v r]|]; auto.
  - intros (N & _). discriminate.
  - intros _ K. rewrite keys_node in K. destruct (keys l); discriminate.
Qed.

Lemma insert_phase ks : forall T,
  valid T -> debug T = true ->
  fst (max_nodes T) = Z.of_nat (tree_size T) ->
  NoDup ks -> (forall k, In k ks -> ~ In k (tree_keys T)) ->
  exists T',
    fold_left insert_validate ks (Ok T) = Ok T' /\ valid T' /\
    debug T' = true /\
    fst (max_nodes T') = Z.of_nat (tree_size T') /\
    (forall x, In x (tree_keys T') <-> In x ks \/ In x (tree_keys T)).
Proof.
  induction ks as [|k ks IH]; intros T V D M ND Hnin.
  - exists T. simpl. repeat split; auto. tauto.
  - inversion ND as [|? ? Hk ND']; subst.
    destruct (insert_ok T (PyInt k) k PyNone eq_refl V
                (Hnin k (or_introl eq_refl)))
      as (T1 & L & R & Hi & V1 & D1 & _ & M1 & E & E1).
    assert (S1 : tree_size T1 = S (tree_size T)).
    { rewrite !tree_size_elements, E, E1, !length_app. simpl. lia. }
    destruct (root T1) as [r1|] eqn:Er1;
      [|unfold tree_size in S1; rewrite Er1 in S1; discriminate].
    assert (Hc : reported (Some TREE_INSERT) T1 = Z.of_nat (size r1)).
    { unfold reported. rewrite M1, M. unfold tree_size in S1 at 1.
      rewrite Er1 in S1. lia. }
    rewrite D in D1.
    pose proof (validate_accepts T1 r1 (Some TREE_INSERT) V1 D1 Er1 Hc) as Hv.
    set (T2 := mkTree (Some r1) true (rev (pre_keys r1) ++ [])
                 (Z.of_nat (size r1), 0 + Z.of_nat (size r1))) in *.
    assert (R2 : root T2 = root T1) by (rewrite Er1; reflexivity).
    destruct (IH T2) as (T' & Hf & V' & D' & M' & K').
    + exact (valid_root _ _ R2 V1).
    + reflexivity.
    + reflexivity.
    + exact ND'.
    + intros x Hx. rewrite (tree_keys_root _ _ R2).
      rewrite (insert_keys T k PyNone T1 L R E E1 x).
      intros [->|Hin]; [contradiction|].
      apply (Hnin x); [right; exact Hx|exact Hin].
    + exists T'. split.
      { cbn [fold_left]. unfold insert_validate at 2. cbn [bind].
        rewrite Hi. cbn [bind]. rewrite Hv. exact Hf. }
      split; [exact V'|]. split; [exact D'|]. split; [exact M'|].
      intros x. rewrite K', (tree_keys_root _ _ R2).
      rewrite (insert_keys T k PyNone T1 L R E E1 x). simpl.
      intuition congruence.
Qed.

Lemma delete_phase ks : forall T,
  valid T -> debug T = true -> NoDup ks ->
  (forall x, In x (tree_keys T) <-> In x ks) ->
  (root T <> None -> fst (max_nodes T) = Z.of_nat (tree_size T)) ->
  exists T',
    fold_left delete_validate ks (Ok T) = Ok T' /\ root T' = None /\
    debug T' = true /\ (ks <> [] -> fst (max_nodes T') = 1).
Proof.
  induction ks as [|k ks IH]; intros T V D ND K M.
  - exists T. simpl. split; [reflexivity|]. split.
    + apply valid_root_keys; [exact V|].
      destruct (tree_keys T) as [|x l]; [reflexivity|].
      destruct (proj1 (K x) (or_introl eq_refl)).
    + split; [exact D|]. congruence.
  - inversion ND as [|? ? Hk ND']; subst.
    assert (Hin : In k (tree_keys T)) by (apply K; left; reflexivity).
    assert (Rn : root T <> None).
    { unfold tree_keys in Hin. destruct (root T); [discriminate|contradiction]. }
    destruct (delete_ok T (PyInt k) k eq_refl V Hin)
      as (T1 & L & R & Hd & V1 & D1 & _ & M1 & E & E1).
    assert (Hnk : ~ In k (L ++ R)).
    { apply sorted_not_in. rewrite <- E. apply valid_sorted, V. }
    assert (K1 : forall x, In x (tree_keys T1) <-> In x ks).
    { intros x. rewrite E1. split.
      - intros Hx. assert (Hx' : In x (tree_keys T)).
        { rewrite E. apply in_app_or in Hx. apply in_or_app.
          destruct Hx; [left|right; right]; assumption. }
        apply K in Hx'. destruct Hx' as [->|Hx']; [contradiction|exact Hx'].
      - intros Hx. assert (Hx' : In x (tree_keys T)) by (apply K; right; exact Hx).
        rewrite E in Hx'. apply in_app_or in Hx'. apply in_or_app.
        destruct Hx' as [Hx'|[->|Hx']]; [left; exact Hx'|contradiction|
                                          right; exact Hx']. }
    assert (S1 : S (tree_size T1) = tree_size T).
    { rewrite !tree_size_keys, E, E1, !length_app. simpl. lia. }
    rewrite D in D1. specialize (M Rn).
    cbn [fold_left]. unfold delete_validate at 2. cbn [bind]. rewrite Hd.
    cbn [bind].
    destruct (root T1) as [r1|] eqn:Er1.
    + assert (Hc : reported (Some TREE_DELETE) T1 = Z.of_nat (size r1)).
      { unfold reported. rewrite M1, M. unfold tree_size in S1 at 1.
        rewrite Er1 in S1. lia. }
      rewrite (validate_accepts T1 r1 (Some TREE_DELETE) V1 D1 Er1 Hc).
      set (T2 := mkTree (Some r1) true (rev (pre_keys r1) ++ [])
                   (Z.of_nat (size r1), 0 + Z.of_nat (size r1))) in *.
      assert (R2 : root T2 = root T1) by (rewrite Er1; reflexivity).
      destruct (IH T2) as (T' & Hf & R' & D' & M').
      * exact (valid_root _ _ R2 V1).
      * reflexivity.
      * exact ND'.
      * intros x. rewrite (tree_keys_root _ _ R2). apply K1.
      * intros _. reflexivity.
      * exists T'. split; [exact Hf|]. split; [exact R'|]. split; [exact D'|].
        intros _. apply M'. intros ->.
        assert (Kn : tree_keys T1 = []).
        { destruct (tree_keys T1) as [|x l]; [reflexivity|].
          destruct (proj1 (K1 x) (or_introl eq_refl)). }
        pose proof (valid_root_keys T1 V1 Kn) as Hr. congruence.
    + assert (Hv : validate (Some TREE_DELETE) T1 = (Ok tt, T1)).
      { unfold validate. rewrite Er1. reflexivity. }
      rewrite Hv.
      assert (Hks : ks = []).
      { destruct ks as [|x l]; [reflexivity|].
        assert (Hx : In x (tree_keys T1)) by (apply K1; left; reflexivity).
        unfold tree_keys in Hx. rewrite Er1 in Hx. destruct Hx. }
      subst ks. exists T1. simpl. split; [reflexivity|].
      split; [exact Er1|]. split; [exact D1|]. intros _.
      rewrite M1, M. unfold tree_size in S1 at 1. rewrite Er1 in S1. lia.
Qed.

Lemma seed_test_ok rand_array :
  NoDup rand_array ->
  exists T,
    seed_test rand_array = Ok T /\ root T = None /\ debug T = true /\
    (rand_array <> [] -> fst (max_nodes T) = 1).
Proof.
  intros ND. unfold seed_test.
  destruct (insert_phase rand_array (Tree_init true) (valid_init true)
              eq_refl eq_refl ND) as (T1 & H1 & V1 & D1 & M1 & K1).
  { intros k _ []. }
  rewrite H1.
  destruct (delete_phase rand_array T1 V1 D1 ND) as (T2 & H2 & R2 & D2 & M2).
  - intros x. rewrite K1. simpl. tauto.
  - intros _. exact M1.
  - exists T2. auto.
Qed.

(** X21: the test loop never reports a finding.  For every array of
    pairwise different integers, the body of [random_seed_tests] runs to its
    end: on a new debug tree each [insert] returns and the [validate] after
    it raises nothing, then each [delete] returns and the [validate] after it
    raises nothing, and the tree is left without a root. *)
Theorem X21_seed_test_passes (rand_array : list Z) :
  NoDup rand_array ->
  exists T1 T,
    fold_left insert_validate rand_array (Ok (Tree_init true)) = Ok T1 /\
    valid T1 /\ tree_size T1 = List.length rand_array /\
    Permutation (tree_keys T1) rand_array /\
    seed_test rand_array = Ok T /\ root T = None.
Proof.
  intros ND.
  destruct (insert_phase rand_array (Tree_init true) (valid_init true)
              eq_refl eq_refl ND) as (T1 & H1 & V1 & D1 & M1 & K1).
  { intros k _ []. }
  destruct (seed_test_ok rand_array ND) as (T & H & R & _).
  assert (P : Permutation (tree_keys T1) rand_array).
  { apply NoDup_Permutation; [|exact ND|].
    - pose proof (valid_sorted T1 V1) as S. clear -S.
      induction S as [|a l S IH F]; constructor; [|exact IH].
      intros Hin. rewrite Forall_forall in F. specialize (F a Hin). lia.
    - intros x. rewrite K1. simpl. tauto. }
  exists T1, T. split; [exact H1|]. split; [exact V1|]. split.
  { rewrite tree_size_keys. apply Permutation_length. exact P. }
  split; [exact P|]. split; [exact H|exact R].
Qed.

Lemma X21_seed_test_passes_witness :
  NoDup [2; 0; 3; 1] /\
  exists T1 T,
    fold_left insert_validate [2; 0; 3; 1] (Ok (Tree_init true)) = Ok T1 /\
    valid T1 /\ tree_size T1 = List.length [2; 0; 3; 1] /\
    Permutation (tree_keys T1) [2; 0; 3; 1] /\
    seed_test [2; 0; 3; 1] = Ok T /\ root T = None.
Proof.
  assert (ND : NoDup [2; 0; 3; 1]).
  { repeat constructor; simpl; intuition lia. }
  split; [exact ND|]. exact (X21_seed_test_passes [2; 0; 3; 1] ND).
Defined.

(** X22: a debug tree that has been emptied cannot be checked again.  When
    the last key is deleted, [validate(TREE_DELETE)] returns at its test of
    the root, before the reported count is lowered, so the count stays at 1
    for a tree without nodes.  After the test loop has run on any array of
    pairwise different integers that is not empty, an [insert] of any integer
    returns, the tree is valid and has one node, and
    [validate(TREE_INSERT)] raises [ArithmeticError]. *)
Theorem X22_validate_after_emptying (rand_array : list Z) (key : Z) :
  NoDup rand_array -> rand_array <> [] ->
  exists T T1,
    seed_test rand_array = Ok T /\ root T = None /\
    fst (max_nodes T) = 1 /\
    insert (PyInt key) PyNone T = Ok T1 /\ valid T1 /\ tree_size T1 = 1%nat /\
    fst (validate (Some TREE_INSERT) T1) = Raise ArithmeticError /\
    insert_validate (Ok T) key = Raise ArithmeticError.
Proof.
  intros ND NE.
  destruct (seed_test_ok rand_array ND) as (T & H & R & D & M).
  specialize (M NE).
  destruct T as [rt dbg vs [rep act]]. cbn in R, D, M. subst rt dbg rep.
  eexists. eexists. split; [exact H|]. split; [reflexivity|].
  split; [reflexivity|]. split; [reflexivity|]. split.
  { unfold valid. cbn.
    repeat split; try discriminate; try reflexivity; auto;
      try (intros a b Ha Hb; intuition congruence); repeat constructor. }
  split; [reflexivity|]. split; reflexivity.
Qed.

Lemma X22_validate_after_emptying_witness :
  NoDup [2; 0; 3; 1] /\ [2; 0; 3; 1] <> [] /\
  exists T T1,
    seed_test [2; 0; 3; 1] = Ok T /\ root T = None /\
    fst (max_nodes T) = 1 /\
    insert (PyInt 5) PyNone T = Ok T1 /\ valid T1 /\ tree_size T1 = 1%nat /\
    fst (validate (Some TREE_INSERT) T1) = Raise ArithmeticError /\
    insert_validate (Ok T) 5 = Raise ArithmeticError.
Proof.
  assert (ND : NoDup [2; 0; 3; 1]).
  { repeat constructor; simpl; intuition lia. }
  assert (NE : [2; 0; 3; 1] <> []) by discriminate.
  split; [exact ND|]. split; [exact NE|].
  exact (X22_validate_after_emptying [2; 0; 3; 1] 5 ND NE).
Defined.

Lemma inspected_zip n p : inspected (zip n p) -> inspected n.
Proof.
  revert n. induction p as [|f p IH]; intros n H; [exact H|].
  simpl in H. apply IH in H. unfold fill in H.
  destruct (f_dir f); cbn [inspected] in H; tauto.
Qed.

(** X23: the defects that [validate] does report.  On a debug tree, a RED
    node with a RED child, or a node and a child whose keys are in the wrong
    order, make [validate] raise whenever the child is the one that
    [__inspect] looks at: the left child if it is real, the right child if
    the left one is a terminator. *)
Theorem X23_validate_detects
  (T : Tree) (a : option action) (n : node) (p : path) (d : direction)
  (l x : node) :
  debug T = true -> root T = Some (zip n p) ->
  child LEFT n = Ok l -> child d n = Ok x -> is_nil x = false ->
  (d = RIGHT -> is_nil l = true) ->
  (color_of n = RED /\ color_of x = RED) \/
  (exists k kx, key_of n = Some k /\ key_of x = Some kx /\
                match d with LEFT => k < kx | RIGHT => kx < k end) ->
  exists e, fst (validate a T) = Raise e.
Proof.
  intros D Er Hl Hx Nx Hd Hdef.
  rewrite (validate_unfold T _ a D Er).
  destruct (inspect true (zip n p) _) as [[h|e] T'] eqn:H;
    [|exists e; reflexivity].
  exfalso.
  destruct (inspect_sound _ _ _ _ _ H) as (_ & I & _).
  apply inspected_zip in I.
  destruct n as [c|c l0 k v r0]; [discriminate|].
  cbn [inspected] in I. destruct I as (I & _).
  cbn [child] in Hl. inversion Hl; subst l0.
  unfold inspect_children in I. cbn [child bind color_of] in I.
  destruct d; cbn [child] in Hx; inversion Hx; subst.
  - rewrite Nx in I. cbn [negb] in I.
    destruct x as [cx|cx xl kx vx xr]; [discriminate|].
    destruct Hdef as [(Hc0 & Hc)|(k0 & kx0 & Hk & Hkx & Hlt)].
    + simpl in Hc0, Hc. subst c cx. discriminate.
    + simpl in Hk, Hkx. inversion Hk; inversion Hkx; subst.
      destruct (color_eqb c RED && color_eqb (color_of (Node cx xl kx0 vx xr)) RED);
        [discriminate|].
      unfold compare in I. cbn [key_of bind] in I.
      assert (E : (k0 <? kx0) = true) by (apply Z.ltb_lt; lia).
      rewrite E in I. discriminate.
  - rewrite (Hd eq_refl), Nx in I. cbn [negb] in I.
    destruct x as [cx|cx xl kx vx xr]; [discriminate|].
    destruct Hdef as [(Hc0 & Hc)|(k0 & kx0 & Hk & Hkx & Hlt)].
    + simpl in Hc0, Hc. subst c cx. discriminate.
    + simpl in Hk, Hkx. inversion Hk; inversion Hkx; subst.
      destruct (color_eqb c RED && color_eqb (color_of (Node cx xl kx0 vx xr)) RED);
        [discriminate|].
      unfold compare in I. cbn [key_of bind] in I.
      assert (E : (k0 <? kx0) = false) by (apply Z.ltb_ge; lia).
      assert (E' : (k0 >? kx0) = true) by (apply Z.gtb_lt; lia).
      rewrite E, E' in I. discriminate.
Qed.

Lemma X23_validate_detects_witness :
  debug (debug_tree red_red_left 7 [] 0) = true /\
  root (debug_tree red_red_left 7 [] 0) =
  Some (zip (Node RED (Node RED (leaf BLACK 1 None) 2 None (leaf BLACK 3 None))
               5 None (leaf BLACK 7 None))
          [Frame LEFT BLACK 10 None (leaf BLACK 15 None)]) /\
  exists e, fst (validate None (debug_tree red_red_left 7 [] 0)) = Raise e.
Proof.
  split; [reflexivity|]. split; [reflexivity|].
  apply (X23_validate_detects (debug_tree red_red_left 7 [] 0) None
           (Node RED (Node RED (leaf BLACK 1 None) 2 None (leaf BLACK 3 None))
              5 None (leaf BLACK 7 None))
           [Frame LEFT BLACK 10 None (leaf BLACK 15 None)] LEFT
           (Node RED (leaf BLACK 1 None) 2 None (leaf BLACK 3 None))
           (Node RED (leaf BLACK 1 None) 2 None (leaf BLACK 3 None)));
    try reflexivity; [discriminate|left; split; reflexivity].
Defined.

(** X24: the last [update] of a key is the one that counts.  On a valid
    tree, two updates of the same key leave the in-order contents that the
    second update alone would leave. *)
Theorem X24_update_twice (T : Tree) (key : pyval) (k : Z) (v w : pyval) :
  valid T -> isinstance_int key = Some k -> In k (tree_keys T) ->
  exists T1 T2 T2',
    update key v T = Ok T1 /\ update key w T1 = Ok T2 /\
    update key w T = Ok T2' /\
    tree_elements T2 = tree_elements T2' /\
    exists L R, tree_elements T2 = L ++ (k, Some w) :: R.
Proof.
  intros V Hk Hin.
  destruct (update_ok T key k v Hk V Hin)
    as (T1 & L & R & old & Hu & V1 & _ & _ & _ & E & E1).
  assert (Hin1 : In k (tree_keys T1)).
  { rewrite tree_keys_elements, E1, map_app. apply in_or_app. right. left.
    reflexivity. }
  destruct (update_ok T1 key k w Hk V1 Hin1)
    as (T2 & L1 & R1 & old1 & Hu1 & V2 & _ & _ & _ & F & F1).
  destruct (update_ok T key k w Hk V Hin)
    as (T2' & L2 & R2 & old2 & Hu2 & V2' & _ & _ & _ & G & G1).
  exists T1, T2, T2'. split; [exact Hu|]. split; [exact Hu1|].
  split; [exact Hu2|].
  pose proof (valid_sorted T V) as S. rewrite tree_keys_elements in S.
  pose proof (valid_sorted T1 V1) as S1. rewrite tree_keys_elements in S1.
  assert (A1 : L = L2 /\ (k, old) = (k, old2) /\ R = R2).
  { apply (split_unique fst); [rewrite <- E; exact S|congruence|reflexivity]. }
  assert (A2 : L = L1 /\ (k, Some v) = (k, old1) /\ R = R1).
  { apply (split_unique fst); [rewrite <- E1; exact S1|congruence|reflexivity]. }
  destruct A1 as (<- & _ & <-). destruct A2 as (<- & _ & <-).
  split; [congruence|]. exists L, R. exact F1.
Qed.

Lemma X24_update_twice_witness :
  valid tree_abc /\ isinstance_int (PyInt 5) = Some 5 /\
  In 5 (tree_keys tree_abc) /\
  exists T1 T2 T2',
    update (PyInt 5) (PyStr "x") tree_abc = Ok T1 /\
    update (PyInt 5) PyNone T1 = Ok T2 /\
    update (PyInt 5) PyNone tree_abc = Ok T2' /\
    tree_elements T2 = tree_elements T2' /\
    exists L R, tree_elements T2 = L ++ (5, Some PyNone) :: R.
Proof.
  assert (H : In 5 (tree_keys tree_abc)) by (simpl; auto).
  split; [exact tree_abc_valid|]. split; [reflexivity|]. split; [exact H|].
  exact (X24_update_twice tree_abc (PyInt 5) 5 (PyStr "x") PyNone
           tree_abc_valid eq_refl H).
Defined.

Lemma descend_sound k n : forall p n' q,
  descend k n p = Ok (n', q) ->
  zip n' q = zip n p /\ (is_nil n' = true \/ key_of n' = Some k).
Proof.
  induction n as [c|c l IHl x v r IHr]; intros p n' q H.
  - cbn in H. inversion H; subst. auto.
  - cbn [descend] in H. unfold compare in H. cbn [key_of Node_init bind] in H.
    destruct (k <? x) eqn:E1.
    + apply IHl in H. destruct H as (Hz & Hk). split; [|exact Hk].
      rewrite Hz. reflexivity.
    + destruct (k >? x) eqn:E2.
      * apply IHr in H. destruct H as (Hz & Hk). split; [|exact Hk].
        rewrite Hz. reflexivity.
      * inversion H; subst. split; [reflexivity|]. right. simpl.
        apply Z.ltb_ge in E1. rewrite Z.gtb_ltb in E2. apply Z.ltb_ge in E2.
        f_equal. lia.
Qed.

(** X25: [find] never returns a wrong node, on any tree.  Whatever the
    links, colors and keys of the tree, when [find] returns it returns a node
    of the tree; called for an insert it returns a nil terminator, and
    otherwise a real node whose key is the one asked for. *)
Theorem X25_find_returns_the_key
  (T : Tree) (key : pyval) (a : option action) (n : node) (p : path) :
  find key a T = Ok (n, p) ->
  root T = Some (zip n p) /\
  if is_insert a then is_nil n = true
  else is_nil n = false /\ exists k, isinstance_int key = Some k /\
                                     key_of n = Some k.
Proof.
  unfold find. intros H.
  destruct (isinstance_int key) as [k|]; [|discriminate].
  destruct (root T) as [r|]; [|discriminate].
  destruct (descend k r []) as [[n' q]|e] eqn:D; [|discriminate].
  cbn [bind fst] in H.
  destruct (descend_sound k r [] n' q D) as (Hz & Hk). simpl in Hz.
  destruct (is_nil n') eqn:N; destruct (is_insert a);
    cbn [negb andb] in H; try discriminate; inversion H; subst.
  - split; [reflexivity|exact N].
  - split; [reflexivity|]. split; [exact N|].
    destruct Hk as [Hk|Hk]; [congruence|]. eauto.
Qed.

Lemma X25_find_returns_the_key_witness :
  find (PyInt 5) None (debug_tree order_right 3 [] 0) =
  Ok (leaf RED 5 None, [Frame LEFT BLACK 10 None (leaf RED 3 None)]) /\
  root (debug_tree order_right 3 [] 0) =
  Some (zip (leaf RED 5 None) [Frame LEFT BLACK 10 None (leaf RED 3 None)]) /\
  is_nil (leaf RED 5 None) = false /\
  exists k, isinstance_int (PyInt 5) = Some k /\
            key_of (leaf RED 5 None) = Some k.
Proof.
  split; [reflexivity|].
  exact (X25_find_returns_the_key (debug_tree order_right 3 [] 0) (PyInt 5)
           None (leaf RED 5 None)
           [Frame LEFT BLACK 10 None (leaf RED 3 None)] eq_refl).
Defined.

(** *** The fix-up loops keep the contents *)















